(** * dooshki_args: a shallow embedding of the option parser

    The development follows [dooshki_args.c] function by function.

    Conventions of the embedding.
    - A C string is the [string] of its characters up to, and not
      including, the terminating NUL; reading [s[i] == '\0'] is reaching
      the end of the [string].
    - [argv] is a [list (option string)]: [None] is the NULL pointer the
      parser writes over a consumed entry.  Indices ([int] and
      [unsigned int] in C) are [nat]; they never exceed [argc].
    - Caller-owned storage ([opt_storage], [opt_found]) lives in a store,
      a finite map from addresses to typed cells, so that two descriptors
      naming one address alias each other as they do in C.
    - [print_error] appends one [message] to the [stderr] log.  The help
      screen, the version banner and the usage text go to stdout; they
      are modelled apart, as the text written (see the part on the help
      screen). *)

From Stdlib Require Import ZArith Ascii String Lia.
From stdpp Require Import base option list gmap strings.

(** ** C library and platform *)

(** What the C implementation fixes: the limits of [long] and
    [unsigned long] and the floating-point conversion. *)
Class Platform := {
  ULONG_MAX : Z;
  LONG_MAX : Z;
  LONG_MIN : Z;
  double : Type;
  HUGE_VAL : double;
  double_zero : double;
  double_neg : double -> double;
  double_eqb : double -> double -> bool;
  (* value, unconverted rest, errno == ERANGE *)
  strtod : string -> double * string * bool
}.

Definition NUL : ascii := Ascii.zero.

(** [isspace] in the "C" locale: space, \t, \n, \v, \f, \r. *)
Definition isspace (c : ascii) : bool :=
  let n := nat_of_ascii c in
  Nat.eqb n 32 || (Nat.leb 9 n && Nat.leb n 13).

Definition isdigit (c : ascii) : bool :=
  let n := nat_of_ascii c in Nat.leb 48 n && Nat.leb n 57.

Definition digit_val (c : ascii) : Z := Z.of_nat (nat_of_ascii c) - 48.

Fixpoint skip_spaces (s : string) : string :=
  match s with
  | String c r => if isspace c then skip_spaces r else s
  | EmptyString => s
  end.

(** The longest run of decimal digits at the head of [s], read with
    accumulator [acc]; the result is the number and the unread rest. *)
Fixpoint read_digits (s : string) (acc : Z) : Z * string :=
  match s with
  | String c r =>
      if isdigit c then read_digits r (10 * acc + digit_val c)%Z
      else (acc, s)
  | EmptyString => (acc, s)
  end.

(** Optional sign in front of the subject sequence. *)
Definition read_sign (s : string) : bool * string :=
  match s with
  | String c r =>
      if Ascii.eqb c "-" then (true, r)
      else if Ascii.eqb c "+" then (false, r)
      else (false, s)
  | EmptyString => (false, s)
  end.

(** [s[0]], which is the terminator when [s] is empty. *)
Definition first_char (s : string) : ascii :=
  match s with
  | String c _ => c
  | EmptyString => NUL
  end.

(** The text at [s + n]. *)
Fixpoint tail_from (n : nat) (s : string) : string :=
  match n, s with
  | S n', String _ r => tail_from n' r
  | _, _ => s
  end.

(** [s[0] == '\0'] *)
Definition at_end (s : string) : bool :=
  match s with
  | EmptyString => true
  | String _ _ => false
  end.

Definition starts_with_digit (s : string) : bool :=
  match s with
  | String c _ => isdigit c
  | EmptyString => false
  end.

Section Parser.
Context `{PF : Platform}.

(** [strtoul(s, &end, 10)] after ISO C: white space is skipped, a sign is
    optional, then comes the longest run of digits.  Without a digit
    nothing is converted: the value is 0 and [end] is [s] itself.  A
    number above [ULONG_MAX] gives [ULONG_MAX] with [errno = ERANGE]; a
    minus sign negates within the unsigned type.  The triple is the
    returned value, the text at [end], and whether [errno] is ERANGE. *)
Definition strtoul (s : string) : Z * string * bool :=
  let '(neg, body) := read_sign (skip_spaces s) in
  if starts_with_digit body then
    let '(v, rest) := read_digits body 0 in
    if (ULONG_MAX <? v)%Z then (ULONG_MAX, rest, true)
    else ((if neg then (ULONG_MAX + 1 - v) mod (ULONG_MAX + 1) else v)%Z,
          rest, false)
  else (0%Z, s, false).

(** [strtol(s, &end, 10)], same shape, saturating at [LONG_MAX] and
    [LONG_MIN]. *)
Definition strtol (s : string) : Z * string * bool :=
  let '(neg, body) := read_sign (skip_spaces s) in
  if starts_with_digit body then
    let '(v, rest) := read_digits body 0 in
    if neg then
      if (- v <? LONG_MIN)%Z then (LONG_MIN, rest, true)
      else ((- v)%Z, rest, false)
    else
      if (LONG_MAX <? v)%Z then (LONG_MAX, rest, true)
      else (v, rest, false)
  else (0%Z, s, false).

(** ** Data model *)

Definition ptr := N.

(** A typed cell of caller-owned storage. *)
Inductive cell :=
  | CChar (c : Z)
  | CStr (s : string)
  | CLong (z : Z)
  | CULong (z : Z)
  | CDouble (d : double)
  | CUser (z : Z).

Inductive dooshki_opt_type :=
  | DOOSHKI_OPT_BOOL
  | DOOSHKI_OPT_NEGBOOL
  | DOOSHKI_OPT_STR
  | DOOSHKI_OPT_INT
  | DOOSHKI_OPT_UINT
  | DOOSHKI_OPT_FLOAT
  | DOOSHKI_OPT_CB
  | DOOSHKI_OPT_CB_NOARG.

(** The callback interface: argument text (NULL for the no-argument
    kind), [opt_storage], prefix, option name, [callback_data]; it may
    write the store and returns 1 ([true]) on success. *)
Definition callback_t : Type :=
  option string -> ptr -> string -> string -> option ptr ->
  gmap N cell -> bool * gmap N cell.

(** [struct dooshki_opt].  The [callback] of an entry that is not of a
    callback kind is never called; any function stands for its NULL. *)
Record dooshki_opt := {
  short_name : option string;
  long_name : option string;
  argument_template : option string;
  type : dooshki_opt_type;
  opt_storage : ptr;
  opt_found : option ptr;
  description : option string;
  callback : callback_t;
  callback_data : option ptr
}.

(** [struct dooshki_args]; [opt_desc] is the array of descriptors.  The
    searches stop at the first entry with both names NULL; the end of the
    list stands for that last member when the list does not spell it. *)
Record dooshki_args := {
  program_name : string;
  version : string;
  usage : string;
  summary : string;
  prog_description : string;
  opt_desc : list dooshki_opt
}.

Inductive dooshki_args_ret :=
  | DOOSHKI_ARGS_PARSE_OK
  | DOOSHKI_ARGS_HELP_SHOWN
  | DOOSHKI_ARGS_VER_SHOWN
  | DOOSHKI_ARGS_PARSE_ERROR.

(** One line written by [print_error], by format string. *)
Inductive message :=
  | MsgNotUInt (argument opt_prefix opt_name : string)
  | MsgNotInt (argument opt_prefix opt_name : string)
  | MsgNotFloat (argument opt_prefix opt_name : string)
  | MsgTooLarge (argument opt_prefix opt_name : string)
  | MsgTooSmall (argument opt_prefix opt_name : string)
  | MsgUnderflow (argument opt_prefix opt_name : string)
  | MsgBugType (opt_prefix opt_name : string)
  | MsgNotExpected (argument name : string)
  | MsgMissingLong (name : string)
  | MsgMissingShort (name : string)
  | MsgUnrecLong (token : string)
  | MsgUnrecShort (c : ascii).

(** The state [dooshki_args_parse] works on: [*argv] and [*argc], the
    caller's storage, the four locals of the parse routine, and what has
    been written to stderr so far. *)
Record pstate := {
  argv : list (option string);
  argc : nat;
  mem : gmap N cell;
  stopper_reached : bool;
  show_help : bool;
  show_version : bool;
  errors_found : bool;
  stderr : list message
}.

Definition set_argv (a : list (option string)) (st : pstate) : pstate :=
  {| argv := a; argc := argc st; mem := mem st;
     stopper_reached := stopper_reached st; show_help := show_help st;
     show_version := show_version st; errors_found := errors_found st;
     stderr := stderr st |}.

Definition set_argc (n : nat) (st : pstate) : pstate :=
  {| argv := argv st; argc := n; mem := mem st;
     stopper_reached := stopper_reached st; show_help := show_help st;
     show_version := show_version st; errors_found := errors_found st;
     stderr := stderr st |}.

Definition set_mem (m : gmap N cell) (st : pstate) : pstate :=
  {| argv := argv st; argc := argc st; mem := m;
     stopper_reached := stopper_reached st; show_help := show_help st;
     show_version := show_version st; errors_found := errors_found st;
     stderr := stderr st |}.

Definition set_stopper (st : pstate) : pstate :=
  {| argv := argv st; argc := argc st; mem := mem st;
     stopper_reached := true; show_help := show_help st;
     show_version := show_version st; errors_found := errors_found st;
     stderr := stderr st |}.

Definition set_help (st : pstate) : pstate :=
  {| argv := argv st; argc := argc st; mem := mem st;
     stopper_reached := stopper_reached st; show_help := true;
     show_version := show_version st; errors_found := errors_found st;
     stderr := stderr st |}.

Definition set_version (st : pstate) : pstate :=
  {| argv := argv st; argc := argc st; mem := mem st;
     stopper_reached := stopper_reached st; show_help := show_help st;
     show_version := true; errors_found := errors_found st;
     stderr := stderr st |}.

(** [*errors_found = 1] *)
Definition set_error (st : pstate) : pstate :=
  {| argv := argv st; argc := argc st; mem := mem st;
     stopper_reached := stopper_reached st; show_help := show_help st;
     show_version := show_version st; errors_found := true;
     stderr := stderr st |}.

(** [print_error] *)
Definition print_error (m : message) (st : pstate) : pstate :=
  {| argv := argv st; argc := argc st; mem := mem st;
     stopper_reached := stopper_reached st; show_help := show_help st;
     show_version := show_version st; errors_found := errors_found st;
     stderr := stderr st ++ [m] |}.

(** A write through a pointer into the caller's storage. *)
Definition poke (p : ptr) (v : cell) (st : pstate) : pstate :=
  set_mem (<[p := v]> (mem st)) st.

(** ** Argument conversion *)

(** [process_str_arg]: the destination aliases the argument text. *)
Definition process_str_arg (opt : dooshki_opt) (argument : string)
    (st : pstate) : bool * pstate :=
  (true, poke (opt_storage opt) (CStr argument) st).

(** [process_uint_arg]: the result of [strtoul] is stored through [dest]
    first, and examined afterwards. *)
Definition process_uint_arg (opt : dooshki_opt)
    (opt_prefix opt_name argument : string) (st : pstate) : bool * pstate :=
  let '(v, test_ptr, erange) := strtoul argument in
  let st := poke (opt_storage opt) (CULong v) st in
  if negb (at_end test_ptr) || Ascii.eqb (first_char argument) "-"
  then (false, print_error (MsgNotUInt argument opt_prefix opt_name) st)
  else if (v =? ULONG_MAX)%Z && erange
  then (false, print_error (MsgTooLarge argument opt_prefix opt_name) st)
  else (true, st).

(** [process_int_arg] *)
Definition process_int_arg (opt : dooshki_opt)
    (opt_prefix opt_name argument : string) (st : pstate) : bool * pstate :=
  let '(v, test_ptr, erange) := strtol argument in
  let st := poke (opt_storage opt) (CLong v) st in
  if negb (at_end test_ptr)
  then (false, print_error (MsgNotInt argument opt_prefix opt_name) st)
  else if (v =? LONG_MAX)%Z && erange
  then (false, print_error (MsgTooLarge argument opt_prefix opt_name) st)
  else if (v =? LONG_MIN)%Z && erange
  then (false, print_error (MsgTooSmall argument opt_prefix opt_name) st)
  else (true, st).

(** [process_float_arg] *)
Definition process_float_arg (opt : dooshki_opt)
    (opt_prefix opt_name argument : string) (st : pstate) : bool * pstate :=
  let '(v, test_ptr, erange) := strtod argument in
  let st := poke (opt_storage opt) (CDouble v) st in
  if negb (at_end test_ptr)
  then (false, print_error (MsgNotFloat argument opt_prefix opt_name) st)
  else if double_eqb v HUGE_VAL && erange
  then (false, print_error (MsgTooLarge argument opt_prefix opt_name) st)
  else if double_eqb v (double_neg HUGE_VAL) && erange
  then (false, print_error (MsgTooSmall argument opt_prefix opt_name) st)
  else if double_eqb v double_zero && erange
  then (false, print_error (MsgUnderflow argument opt_prefix opt_name) st)
  else (true, st).

(** A call of the user's routine: it works on the store. *)
Definition run_callback (opt : dooshki_opt) (argument : option string)
    (opt_prefix opt_name : string) (st : pstate) : bool * pstate :=
  let '(ok, m) := callback opt argument (opt_storage opt)
                    opt_prefix opt_name (callback_data opt) (mem st) in
  (ok, set_mem m st).

(** [process_opt_arg]: 1 ([true]) on success, 0 on failure. *)
Definition process_opt_arg (opt : dooshki_opt) (opt_is_long : bool)
    (argument : string) (st : pstate) : bool * pstate :=
  let opt_prefix := if opt_is_long then "--" else "-" in
  let opt_name := default "" (if opt_is_long then long_name opt
                              else short_name opt) in
  match type opt with
  | DOOSHKI_OPT_STR => process_str_arg opt argument st
  | DOOSHKI_OPT_INT =>
      process_int_arg opt opt_prefix opt_name argument st
  | DOOSHKI_OPT_UINT =>
      process_uint_arg opt opt_prefix opt_name argument st
  | DOOSHKI_OPT_FLOAT =>
      process_float_arg opt opt_prefix opt_name argument st
  | DOOSHKI_OPT_CB =>
      run_callback opt (Some argument) opt_prefix opt_name st
  | _ => (false, print_error (MsgBugType opt_prefix opt_name) st)
  end.

(** [if (! f(...)) *errors_found = 1;] *)
Definition flag_failure (r : bool * pstate) : pstate :=
  if r.1 then r.2 else set_error r.2.

(** ** Shared pieces of the two option routines *)

(** Both names NULL: the last member of the descriptor array. *)
Definition is_last (d : dooshki_opt) : bool :=
  match short_name d, long_name d with
  | None, None => true
  | _, _ => false
  end.

(** [if (opt_found != NULL) *opt_found = 1;] *)
Definition mark_found (d : dooshki_opt) (st : pstate) : pstate :=
  match opt_found d with
  | Some p => poke p (CChar 1) st
  | None => st
  end.

(** The search for an argument word, from index [i] over [n] entries: the
    first entry that is not NULL decides; it is taken unless it is
    [--]. *)
Fixpoint next_arg (a : list (option string)) (i n : nat) : option nat :=
  match n with
  | O => None
  | S n' =>
      match a !! i with
      | Some (Some t) => if String.eqb t "--" then None else Some i
      | _ => next_arg a (S i) n'
      end
  end.

(** The argument word after [opt_argi], if any, and the state in which
    its entry is NULL. *)
Definition take_arg (opt_argi : nat) (st : pstate)
    : option (string * pstate) :=
  match next_arg (argv st) (S opt_argi) (argc st - S opt_argi) with
  | Some j =>
      match argv st !! j with
      | Some (Some t) => Some (t, set_argv (<[j := None]> (argv st)) st)
      | _ => None
      end
  | None => None
  end.

(** ** Long options *)

(** [for (iter = 2; option[iter] != '\0' && option[iter] != '='; iter++);
    opt_len = iter - 2], on the text after the two dashes. *)
Fixpoint name_len (s : string) : nat :=
  match s with
  | String c r => if Ascii.eqb c "=" then O else S (name_len r)
  | EmptyString => O
  end.

(** [if (option[iter] == '=') argument = &option[iter+1]] *)
Fixpoint inline_arg (s : string) : option string :=
  match s with
  | String c r => if Ascii.eqb c "=" then Some r else inline_arg r
  | EmptyString => None
  end.

(** [strncmp(a, b, n) == 0] *)
Fixpoint strncmp_eq (a b : string) (n : nat) {struct n} : bool :=
  match n with
  | O => true
  | S n' =>
      match a, b with
      | EmptyString, EmptyString => true
      | String c a', String d b' =>
          if Ascii.eqb c d then strncmp_eq a' b' n' else false
      | _, _ => false
      end
  end.

(** The table loop of [process_long_opt] up to the entry it recognizes:
    it ends at the last member, skips entries without a long name, and
    stops at the first entry [strncmp] accepts. *)
Fixpoint long_search (tbl : list dooshki_opt) (text : string)
    (opt_len : nat) : option dooshki_opt :=
  match tbl with
  | [] => None
  | d :: tbl' =>
      if is_last d then None
      else match long_name d with
           | None => long_search tbl' text opt_len
           | Some l =>
               if strncmp_eq text l opt_len then Some d
               else long_search tbl' text opt_len
           end
  end.

(** The body of that loop for the recognized entry. *)
Definition long_matched (d : dooshki_opt) (opt_argi : nat)
    (argument : option string) (st : pstate) : pstate :=
  let name := default "" (long_name d) in
  let st := mark_found d st in
  match type d with
  | DOOSHKI_OPT_BOOL =>
      match argument with
      | Some a => set_error (print_error (MsgNotExpected a name) st)
      | None => poke (opt_storage d) (CChar 1) st
      end
  | DOOSHKI_OPT_NEGBOOL =>
      match argument with
      | Some a => set_error (print_error (MsgNotExpected a name) st)
      | None => poke (opt_storage d) (CChar 0) st
      end
  | DOOSHKI_OPT_CB_NOARG =>
      match argument with
      | Some a => set_error (print_error (MsgNotExpected a name) st)
      | None => flag_failure (run_callback d None "--" name st)
      end
  | _ =>
      match argument with
      | Some a => flag_failure (process_opt_arg d true a st)
      | None =>
          match take_arg opt_argi st with
          | Some (a, st') => flag_failure (process_opt_arg d true a st')
          | None => set_error (print_error (MsgMissingLong name) st)
          end
      end
  end.

(** [process_long_opt] on the token [option = argv[opt_argi]]. *)
Definition long_opt (args_ctxt : dooshki_args) (opt_argi : nat)
    (token : string) (st : pstate) : pstate :=
  if String.eqb token "--help" then
    if show_version st then st else set_help st
  else if String.eqb token "--version" then
    if show_help st then st else set_version st
  else
    let text := tail_from 2 token in
    let opt_len := name_len text in
    let argument := inline_arg text in
    match long_search (opt_desc args_ctxt) text opt_len with
    | Some d => long_matched d opt_argi argument st
    | None => set_error (print_error (MsgUnrecLong token) st)
    end.

Definition process_long_opt (args_ctxt : dooshki_args) (opt_argi : nat)
    (st : pstate) : pstate :=
  match argv st !! opt_argi with
  | Some (Some token) => long_opt args_ctxt opt_argi token st
  | _ => st
  end.

(** ** Short options *)

(** The table loop of [process_short_opts] for one character. *)
Fixpoint short_search (tbl : list dooshki_opt) (c : ascii)
    : option dooshki_opt :=
  match tbl with
  | [] => None
  | d :: tbl' =>
      if is_last d then None
      else match short_name d with
           | None => short_search tbl' c
           | Some s =>
               if Ascii.eqb c (first_char s) then Some d
               else short_search tbl' c
           end
  end.

(** Its body for the recognized entry. *)
Definition short_matched (d : dooshki_opt) (opt_argi : nat)
    (st : pstate) : pstate :=
  let name := default "" (short_name d) in
  let st := mark_found d st in
  match type d with
  | DOOSHKI_OPT_BOOL => poke (opt_storage d) (CChar 1) st
  | DOOSHKI_OPT_NEGBOOL => poke (opt_storage d) (CChar 0) st
  | DOOSHKI_OPT_CB_NOARG => flag_failure (run_callback d None "-" name st)
  | _ =>
      match take_arg opt_argi st with
      | Some (a, st') => flag_failure (process_opt_arg d false a st')
      | None => set_error (print_error (MsgMissingShort name) st)
      end
  end.

(** One round of the character loop of [process_short_opts]. *)
Definition short_char (args_ctxt : dooshki_args) (opt_argi : nat)
    (c : ascii) (st : pstate) : pstate :=
  if Ascii.eqb c "h" then
    if show_version st then st else set_help st
  else if Ascii.eqb c "V" then
    if show_help st then st else set_version st
  else
    match short_search (opt_desc args_ctxt) c with
    | Some d => short_matched d opt_argi st
    | None => set_error (print_error (MsgUnrecShort c) st)
    end.

(** [for (in_iter = 1; options[in_iter] != '\0'; in_iter++)], on the
    characters from [options[1]] on. *)
Fixpoint short_loop (args_ctxt : dooshki_args) (opt_argi : nat)
    (chars : string) (st : pstate) : pstate :=
  match chars with
  | String c r =>
      short_loop args_ctxt opt_argi r (short_char args_ctxt opt_argi c st)
  | EmptyString => st
  end.

Definition process_short_opts (args_ctxt : dooshki_args) (opt_argi : nat)
    (st : pstate) : pstate :=
  match argv st !! opt_argi with
  | Some (Some options) =>
      short_loop args_ctxt opt_argi (tail_from 1 options) st
  | _ => st
  end.

(** ** Compaction *)

(** The inner loop of [deflate_args_list]: the first entry that is not
    NULL among the [n] entries from [p] on moves to [fill]. *)
Fixpoint pull (a : list (option string)) (fill p n : nat)
    : list (option string) :=
  match n with
  | O => a
  | S n' =>
      match a !! p with
      | Some (Some t) => <[p := None]> (<[fill := Some t]> a)
      | _ => pull a fill (S p) n'
      end
  end.

(** The outer loop, with [k = *argc - fill_iter] rounds to go; the result
    is the array and the final [fill_iter]. *)
Fixpoint deflate_loop (k fill : nat) (a : list (option string))
    : list (option string) * nat :=
  match k with
  | O => (a, fill)
  | S k' =>
      let a1 := match a !! fill with
                | Some (Some _) => a
                | _ => pull a fill (S fill) k'
                end in
      match a1 !! fill with
      | Some (Some _) => deflate_loop k' (S fill) a1
      | _ => (a1, fill)
      end
  end.

Definition deflate_args_list (st : pstate) : pstate :=
  let '(a, n) := deflate_loop (argc st - 1) 1 (argv st) in
  set_argc n (set_argv a st).

(** ** The parse routine *)

(** One round of the scanning loop of [dooshki_args_parse]. *)
Definition scan_step (args_ctxt : dooshki_args) (arg_iter : nat)
    (st : pstate) : pstate :=
  match argv st !! arg_iter with
  | Some (Some token) =>
      if Ascii.eqb (first_char token) "-" then
        let st' :=
          if Ascii.eqb (first_char (tail_from 1 token)) "-" then
            if at_end (tail_from 2 token) then set_stopper st
            else process_long_opt args_ctxt arg_iter st
          else process_short_opts args_ctxt arg_iter st in
        set_argv (<[arg_iter := None]> (argv st')) st'
      else st
  | _ => st
  end.

(** [for (arg_iter = ...; arg_iter < *argc && !stopper_reached;
    arg_iter++)] with [k = *argc - arg_iter] rounds to go. *)
Fixpoint scan_loop (args_ctxt : dooshki_args) (k arg_iter : nat)
    (st : pstate) : pstate :=
  match k with
  | O => st
  | S k' =>
      if stopper_reached st then st
      else scan_loop args_ctxt k' (S arg_iter)
             (scan_step args_ctxt arg_iter st)
  end.

(** The state on entry: the caller's [argc], [argv] and storage, the
    locals cleared. *)
Definition entry (n : nat) (a : list (option string)) (m : gmap N cell)
    : pstate :=
  {| argv := a; argc := n; mem := m; stopper_reached := false;
     show_help := false; show_version := false; errors_found := false;
     stderr := [] |}.

Definition scan (args_ctxt : dooshki_args) (st : pstate) : pstate :=
  scan_loop args_ctxt (argc st - 1) 1 st.

(** The return statements at the end of [dooshki_args_parse]. *)
Definition outcome (st : pstate) : dooshki_args_ret :=
  if show_help st then DOOSHKI_ARGS_HELP_SHOWN
  else if show_version st then DOOSHKI_ARGS_VER_SHOWN
  else if errors_found st then DOOSHKI_ARGS_PARSE_ERROR
  else DOOSHKI_ARGS_PARSE_OK.

Definition dooshki_args_parse (args_ctxt : dooshki_args) (st : pstate)
    : dooshki_args_ret * pstate :=
  let st' := deflate_args_list (scan args_ctxt st) in
  (outcome st', st').

(** A command line as the C runtime passes it: every entry below [argc]
    is a string. *)
Definition command_line (tokens : list string) (m : gmap N cell) : pstate :=
  entry (length tokens) (Some <$> tokens) m.

(** What the caller sees of [argv] afterwards: its first [argc]
    entries. *)
Definition remaining (st : pstate) : list (option string) :=
  take (argc st) (argv st).

(** * Vocabulary of the statements *)

(** The fields of the state that only the parse routine itself and the
    built-in options write. *)
Definition same_control (a b : pstate) : Prop :=
  argc b = argc a /\ stopper_reached b = stopper_reached a /\
  show_help b = show_help a /\ show_version b = show_version a.

(** Every line on stderr comes with [errors_found], and the flag is never
    cleared. *)
Definition errors_grow (a b : pstate) : Prop :=
  (stderr b = stderr a \/ errors_found b = true) /\
  (errors_found a = true -> errors_found b = true).

(** Entries are only ever overwritten with NULL, and none below index
    [i]. *)
Definition nulled_from (i : nat) (a b : list (option string)) : Prop :=
  length b = length a /\
  forall j, (j < i -> b !! j = a !! j) /\
            (b !! j = a !! j \/ b !! j = Some None).

Definition flags_excl (st : pstate) : Prop :=
  show_help st && show_version st = false.

(** From a state where at most one flag is set: still at most one is,
    and a flag that was set stays set. *)
Definition flags_grow (a b : pstate) : Prop :=
  flags_excl a ->
  flags_excl b /\
  (show_help a = true -> show_help b = true) /\
  (show_version a = true -> show_version b = true).

(** What processing the entry at [i] may do to the state. *)
Definition opt_step (i : nat) (a b : pstate) : Prop :=
  nulled_from i (argv a) (argv b) /\ argc b = argc a /\
  errors_grow a b /\ flags_grow a b.

(** The state after the first [n] rounds of the scanning loop (all of
    them when [n] is large). *)
Definition rounds (args_ctxt : dooshki_args) (n : nat) (st : pstate)
    : pstate :=
  scan_loop args_ctxt (Nat.min n (argc st - 1)) 1 st.

(** Every character of [s] satisfies [P]. *)
Fixpoint chars_all (P : ascii -> bool) (s : string) : bool :=
  match s with
  | String c r => P c && chars_all P r
  | EmptyString => true
  end.

(** The characters a decimal numeral is written with, as [strtoul] reads
    it: digits, white space in front, a sign. *)
Definition numeral_char (c : ascii) : bool :=
  isdigit c || isspace c || Ascii.eqb c "+" || Ascii.eqb c "-".

Definition not_equals_sign (c : ascii) : bool := negb (Ascii.eqb c "=").

(** The descriptors the searches look at: those before the last member. *)
Fixpoint entries (tbl : list dooshki_opt) : list dooshki_opt :=
  match tbl with
  | [] => []
  | d :: tbl' => if is_last d then [] else d :: entries tbl'
  end.

(** The long name of [d] begins with the characters of [name]. *)
Definition long_name_begins (name : string) (d : dooshki_opt) : bool :=
  match long_name d with
  | Some l => String.prefix name l
  | None => false
  end.

(** The token [--name] or [--name=value]. *)
Definition long_token (name : string) (value : option string) : string :=
  "--" +:+ name +:+ match value with
                    | Some v => String "=" v
                    | None => ""
                    end.

(** The strings among the [k] entries of [a] from [p] on. *)
Definition kept (a : list (option string)) (p k : nat) : list string :=
  omap id (take k (drop p a)).

Definition null_at (a : list (option string)) (q : nat) : Prop :=
  a !! q = Some None \/ a !! q = None.

(** [st] with [argv] and [argc] replaced. *)
Definition recmd (a : list (option string)) (n : nat) (st : pstate)
    : pstate :=
  set_argc n (set_argv a st).

(** A routine that neither reads nor writes [argv], [argc] and
    [stopper_reached]. *)
Definition blind (f : pstate -> pstate) : Prop :=
  forall a n st,
    f (recmd a n st) = recmd a n (f st) /\
    stopper_reached (f st) = stopper_reached st.

(** The kinds whose option takes an argument word. *)
Definition takes_argument (t : dooshki_opt_type) : bool :=
  match t with
  | DOOSHKI_OPT_BOOL | DOOSHKI_OPT_NEGBOOL | DOOSHKI_OPT_CB_NOARG => false
  | _ => true
  end.

(** The entry [take_arg] picks over the array [a]. *)
Definition pick (a : list (option string)) (opt_argi n : nat)
    : option (string * nat) :=
  match next_arg a (S opt_argi) (n - S opt_argi) with
  | Some j =>
      match a !! j with
      | Some (Some t) => Some (t, j)
      | _ => None
      end
  | None => None
  end.

(** The part of the two option routines that fetches and converts an
    argument word. *)
Definition valued (d : dooshki_opt) (l : bool) (msg : message)
    (opt_argi : nat) (st : pstate) : pstate :=
  match take_arg opt_argi st with
  | Some (a, st') => flag_failure (process_opt_arg d l a st')
  | None => set_error (print_error msg st)
  end.

(** The array [a] ends with the marker, at index [k]. *)
Definition tail_ok (k : nat) (a : list (option string)) : Prop :=
  length a = S k /\ a !! k = Some (Some "--").

(** Entries are only overwritten with NULL. *)
Definition only_nulled (a a' : list (option string)) : Prop :=
  forall j, a' !! j = a !! j \/ a' !! j = Some None.

(** [f] does the same over an array that ends with the marker and over
    that array followed by [e]: it never looks past the marker. *)
Definition tail_step (k : nat) (e : list (option string))
    (f : pstate -> pstate) : Prop :=
  forall a c, tail_ok k a ->
    exists a' c',
      f (recmd a (S k) c) = recmd a' (S k) c' /\
      f (recmd (a ++ e) (S k + length e) c) =
        recmd (a' ++ e) (S k + length e) c' /\
      tail_ok k a' /\ only_nulled a a' /\
      stopper_reached c' = stopper_reached c.

(** What the scanning loop does with a token that starts with a dash,
    before it overwrites the entry. *)
Definition dash_token (args_ctxt : dooshki_args) (i : nat) (token : string)
    (st : pstate) : pstate :=
  if Ascii.eqb (first_char (tail_from 1 token)) "-" then
    if at_end (tail_from 2 token) then set_stopper st
    else long_opt args_ctxt i token st
  else short_loop args_ctxt i (tail_from 1 token) st.

(** The cell at [p] holds 1. *)
Definition flag_set (p : ptr) (st : pstate) : Prop :=
  mem st !! p = Some (CChar 1).

(** The descriptor [d] leaves a set flag at [p] alone: [p] is not its
    destination, and its callback does not clear it. *)
Definition keeps_flag (p : ptr) (d : dooshki_opt) : Prop :=
  opt_storage d <> p /\
  forall o x y m,
    m !! p = Some (CChar 1) ->
    (callback d o (opt_storage d) x y (callback_data d) m).2 !! p =
      Some (CChar 1).

(** The short name of [d] starts with [c]. *)
Definition short_name_is (c : ascii) (d : dooshki_opt) : bool :=
  match short_name d with
  | Some s => Ascii.eqb c (first_char s)
  | None => false
  end.

(** The token, an option word, matches the descriptor [d]: as a long
    option by its name, or as a cluster by one of its characters. *)
Inductive occurs_in (args_ctxt : dooshki_args)
    : string -> dooshki_opt -> Prop :=
  | occurs_long name value d :
      chars_all not_equals_sign name = true ->
      long_token name value <> "--" ->
      long_token name value <> "--help" ->
      long_token name value <> "--version" ->
      List.find (long_name_begins name) (entries (opt_desc args_ctxt)) =
        Some d ->
      occurs_in args_ctxt (long_token name value) d
  | occurs_short before c after d :
      first_char (before +:+ String c after) <> "-"%char ->
      c <> "h"%char -> c <> "V"%char ->
      List.find (short_name_is c) (entries (opt_desc args_ctxt)) = Some d ->
      occurs_in args_ctxt ("-" +:+ before +:+ String c after) d.

(** The effect of a short option that takes an argument word, once the
    word is known. *)
Definition with_word (d : dooshki_opt) (word : string) (c : pstate)
    : pstate :=
  flag_failure (process_opt_arg d false word (mark_found d c)).

(** Its effect when there is no word to take. *)
Definition without_word (d : dooshki_opt) (c : pstate) : pstate :=
  set_error
    (print_error (MsgMissingShort (default "" (short_name d)))
       (mark_found d c)).

(** What the two command lines of C6 come to: the effect of [-f] with
    the word [A], then of [-d] with the word [B], or with none when [B]
    is the marker, which then stops the scan. *)
Definition two_words (df dd : dooshki_opt) (A B : string) (c : pstate)
    : pstate :=
  if String.eqb B "--" then
    set_stopper (without_word dd (with_word df A c))
  else with_word dd B (with_word df A c).

(** * Tables used in the examples *)

(** [tolower] in the "C" locale. *)
Definition tolower (c : ascii) : ascii :=
  let n := nat_of_ascii c in
  if Nat.leb 65 n && Nat.leb n 90 then ascii_of_nat (n + 32) else c.

(** [streq_ci] of the demo program: equality up to case. *)
Fixpoint streq_ci (in_a in_b : string) : bool :=
  match in_a, in_b with
  | EmptyString, EmptyString => true
  | String x a, String y b =>
      Ascii.eqb (tolower x) (tolower y) && streq_ci a b
  | _, _ => false
  end.

(** [quality_arg_decode] of the demo program; the three qualities are the
    enumerators 0, 1 and 2.  (Its own complaint on stderr is not a
    [print_error] line.) *)
Definition quality_arg_decode : callback_t :=
  fun argument_text storage _ _ _ m =>
    let text := default "" argument_text in
    if streq_ci text "good" then (true, <[storage := CUser 0]> m)
    else if streq_ci text "bad" then (true, <[storage := CUser 1]> m)
    else if streq_ci text "ugly" then (true, <[storage := CUser 2]> m)
    else (false, m).

(** A callback slot that is NULL in the table. *)
Definition no_callback : callback_t := fun _ _ _ _ _ m => (true, m).

(** The variables of the demo program, by address. *)
Definition automatic : ptr := 1%N.
Definition automatic_opt : ptr := 2%N.
Definition manual_opt : ptr := 3%N.
Definition label : ptr := 4%N.
Definition direction : ptr := 5%N.
Definition direction_set : ptr := 6%N.
Definition velocity : ptr := 7%N.
Definition velocity_set : ptr := 8%N.
Definition rating : ptr := 9%N.
Definition rating_set : ptr := 10%N.
Definition quality : ptr := 11%N.
Definition quality_set : ptr := 12%N.

Definition an_option (sn ln tmpl : option string) (t : dooshki_opt_type)
    (storage : ptr) (found : option ptr) (cb : callback_t) : dooshki_opt :=
  {| short_name := sn; long_name := ln; argument_template := tmpl;
     type := t; opt_storage := storage; opt_found := found;
     description := None; callback := cb; callback_data := None |}.

(** The members of [cli_options] of the demo program. *)
Definition automatic_option : dooshki_opt :=
  an_option (Some "a") (Some "automatic") None DOOSHKI_OPT_BOOL
    automatic (Some automatic_opt) no_callback.

Definition manual_option : dooshki_opt :=
  an_option (Some "m") None None DOOSHKI_OPT_NEGBOOL
    automatic (Some manual_opt) no_callback.

Definition label_option : dooshki_opt :=
  an_option (Some "l") (Some "label") (Some "NAME") DOOSHKI_OPT_STR
    label None no_callback.

Definition rating_option : dooshki_opt :=
  an_option (Some "r") (Some "rating") (Some "RATING") DOOSHKI_OPT_FLOAT
    rating (Some rating_set) no_callback.

Definition direction_option : dooshki_opt :=
  an_option None (Some "direction") (Some "DIR") DOOSHKI_OPT_INT
    direction (Some direction_set) no_callback.

Definition velocity_option : dooshki_opt :=
  an_option (Some "v") None (Some "VEL") DOOSHKI_OPT_UINT
    velocity (Some velocity_set) no_callback.

Definition quality_option : dooshki_opt :=
  an_option (Some "q") (Some "quality") (Some "GOOD|BAD|UGLY")
    DOOSHKI_OPT_CB quality (Some quality_set) quality_arg_decode.

(** The closing member, all NULL. *)
Definition last_member : dooshki_opt :=
  an_option None None None DOOSHKI_OPT_BOOL 0%N None no_callback.

Definition cli_options : list dooshki_opt :=
  [ automatic_option; manual_option; label_option; rating_option;
    direction_option; velocity_option; quality_option; last_member ].

Definition cli_args_context : dooshki_args :=
  {| program_name := "dooshki_args_demo"; version := "0.1";
     usage := "[OPTIONS] [FILE1 [FILE2 [...]]]";
     summary := "Dooshki's demo for his CLI arguments library";
     prog_description := ""; opt_desc := cli_options |}.

(** A table with one unsigned option [--count], its value at address 1
    and its found flag at address 2. *)
Definition count_option : dooshki_opt :=
  an_option None (Some "count") (Some "N") DOOSHKI_OPT_UINT 1%N (Some 2%N)
    no_callback.

Definition count_args : dooshki_args :=
  {| program_name := "prog"; version := "1"; usage := ""; summary := "";
     prog_description := ""; opt_desc := [count_option; last_member] |}.

End Parser.

Abbreviation store := (gmap N cell).

(** ** IEEE 754 binary64 and [strtod] *)

(** A [double] of an IEEE 754 platform: a signed zero, a finite number
    [m * 2^e] with [0 < m < 2^53] (and [2^52 <= m] unless [e = -1074]),
    an infinity, or a NaN. *)
Inductive binary64 :=
  | B64_zero (neg : bool)
  | B64_finite (neg : bool) (m e : Z)
  | B64_inf (neg : bool)
  | B64_nan.

(** [-x] *)
Definition b64_neg (x : binary64) : binary64 :=
  match x with
  | B64_zero s => B64_zero (negb s)
  | B64_finite s m e => B64_finite (negb s) m e
  | B64_inf s => B64_inf (negb s)
  | B64_nan => B64_nan
  end.

(** [x == y]: the two zeros are equal, a NaN equals nothing. *)
Definition b64_eqb (x y : binary64) : bool :=
  match x, y with
  | B64_zero _, B64_zero _ => true
  | B64_finite s m e, B64_finite s' m' e' =>
      Bool.eqb s s' && (m =? m')%Z && (e =? e')%Z
  | B64_inf s, B64_inf s' => Bool.eqb s s'
  | _, _ => false
  end.

(** [num / (den * 2^e)] rounded to the nearest integer, ties to even,
    and whether that is inexact. *)
Definition round_at (num den e : Z) : Z * bool :=
  let n := (num * 2 ^ Z.max 0 (- e))%Z in
  let d := (den * 2 ^ Z.max 0 e)%Z in
  let q := (n / d)%Z in
  let r := (n mod d)%Z in
  ((if (d <? 2 * r)%Z || ((d =? 2 * r)%Z && Z.odd q) then q + 1 else q)%Z,
   negb (r =? 0)%Z).

(** The positive rational [num / den] rounded to a [double], to nearest
    with ties to even, and whether [errno] is set to ERANGE: on
    overflow, and when the result is tiny and inexact. *)
Definition round_binary64 (neg : bool) (num den : Z) : binary64 * bool :=
  let l0 := (Z.log2 num - Z.log2 den)%Z in
  let l :=
    if (num * 2 ^ Z.max 0 (- l0) <? den * 2 ^ Z.max 0 l0)%Z
    then (l0 - 1)%Z else l0 in
  (* with an unbounded exponent range, to tell whether the result is tiny *)
  let '(qu, _) := round_at num den (l - 52) in
  let lu := if (qu =? 2 ^ 53)%Z then (l + 1)%Z else l in
  let tiny := (lu <? -1022)%Z in
  let e := Z.max (l - 52) (-1074) in
  let '(q, inexact) := round_at num den e in
  let '(q, e) := if (q =? 2 ^ 53)%Z then (2 ^ 52, e + 1)%Z else (q, e) in
  if (971 <? e)%Z then (B64_inf neg, true)
  else if (q =? 0)%Z then (B64_zero neg, true)
  else (B64_finite neg q e, tiny && inexact).

Definition isxdigit (c : ascii) : bool :=
  let n := nat_of_ascii c in
  isdigit c || (Nat.leb 65 n && Nat.leb n 70)
  || (Nat.leb 97 n && Nat.leb n 102).

Definition xdigit_val (c : ascii) : Z :=
  let n := Z.of_nat (nat_of_ascii c) in
  if isdigit c then (n - 48)%Z
  else if (n <? 97)%Z then (n - 55)%Z else (n - 87)%Z.

(** The longest run of hexadecimal digits at the head of [s]. *)
Fixpoint read_xdigits (s : string) (acc : Z) : Z * string :=
  match s with
  | String c r =>
      if isxdigit c then read_xdigits r (16 * acc + xdigit_val c)%Z
      else (acc, s)
  | EmptyString => (acc, s)
  end.

(** [s] without the text [p] in front, compared without regard to
    case, if it starts with it. *)
Fixpoint skip_prefix_ci (p s : string) : option string :=
  match p, s with
  | EmptyString, _ => Some s
  | String a p', String b s' =>
      if Ascii.eqb (Ascii.ascii_of_nat
                      (let n := nat_of_ascii b in
                       if Nat.leb 65 n && Nat.leb n 90 then n + 32 else n))
           a
      then skip_prefix_ci p' s' else None
  | _, _ => None
  end.

(** An exponent part, [e] or [p] with an optional sign and at least one
    digit: its value and the rest; without a digit nothing is read. *)
Definition read_exponent (mark : ascii) (s : string) : Z * string :=
  match skip_prefix_ci (String mark "") s with
  | Some r =>
      let '(neg, digits) := read_sign r in
      if isdigit (first_char digits) then
        let '(v, rest) := read_digits digits 0 in
        ((if neg then - v else v)%Z, rest)
      else (0%Z, s)
  | None => (0%Z, s)
  end.

(** The digits of a significand in base [b], with an optional point:
    the number they spell without the point, how many of them follow
    the point, how many there are, and the rest. *)
Definition read_significand (hex : bool) (s : string)
    : Z * nat * nat * string :=
  let read := if hex then read_xdigits else read_digits in
  let '(ip, r1) := read s 0%Z in
  let n1 := (String.length s - String.length r1)%nat in
  match r1 with
  | String "." r2 =>
      let '(m, r3) := read r2 ip in
      let n2 := (String.length r2 - String.length r3)%nat in
      if Nat.eqb (n1 + n2) 0 then (0%Z, 0%nat, 0%nat, s)
      else (m, n2, (n1 + n2)%nat, r3)
  | _ => (ip, 0%nat, n1, r1)
  end.

(** The value [m * b^x] as a [double], where [digits] bounds the number
    of digits of [m]; huge exponents are decided without computing the
    power. *)
Definition scaled (neg hex : bool) (m x : Z) (digits : nat)
    : binary64 * bool :=
  let b := if hex then 2%Z else 10%Z in
  let bits := if hex then 4%Z else 1%Z in
  if (m =? 0)%Z then (B64_zero neg, false)
  else if (2000 <? x)%Z then (B64_inf neg, true)
  else if (x + bits * Z.of_nat digits <? -2000)%Z then (B64_zero neg, true)
  else if (0 <=? x)%Z then round_binary64 neg (m * b ^ x) 1
  else round_binary64 neg m (b ^ (- x)).

(** The characters of the sequence in [NAN(...)]. *)
Definition isnchar (c : ascii) : bool :=
  let n := nat_of_ascii c in
  isdigit c || (Nat.leb 65 n && Nat.leb n 90)
  || (Nat.leb 97 n && Nat.leb n 122) || Nat.eqb n 95.

Fixpoint skip_nchars (s : string) : string :=
  match s with
  | String c r => if isnchar c then skip_nchars r else s
  | EmptyString => s
  end.

(** [strtod(s, &end)] after ISO C99 in the "C" locale, for IEEE 754
    doubles: white space, an optional sign, then a decimal number, a
    hexadecimal number, an infinity or a NaN.  The triple is the
    returned value, the text at [end], and whether [errno] is ERANGE.
    Without a subject sequence nothing is converted. *)
Definition strtod64 (s : string) : binary64 * string * bool :=
  let '(neg, body) := read_sign (skip_spaces s) in
  let hex_body :=
    match skip_prefix_ci "0x" body with
    | Some r =>
        let '(_, _, n, _) := read_significand true r in
        if Nat.eqb n 0 then None else Some r
    | None => None
    end in
  match hex_body with
  | Some r =>
      let '(m, n2, n, r1) := read_significand true r in
      let '(x, rest) := read_exponent "p" r1 in
      let '(v, erange) := scaled neg true m (x - 4 * Z.of_nat n2) n in
      (v, rest, erange)
  | None =>
      let '(m, n2, n, r1) := read_significand false body in
      if negb (Nat.eqb n 0) then
        let '(x, rest) := read_exponent "e" r1 in
        let '(v, erange) := scaled neg false m (x - Z.of_nat n2) n in
        (v, rest, erange)
      else
        match skip_prefix_ci "inf" body with
        | Some r =>
            (B64_inf neg,
             match skip_prefix_ci "inity" r with
             | Some r' => r'
             | None => r
             end,
             false)
        | None =>
            match skip_prefix_ci "nan" body with
            | Some r =>
                (B64_nan,
                 match r with
                 | String "(" q =>
                     match skip_nchars q with
                     | String ")" r' => r'
                     | _ => r
                     end
                 | _ => r
                 end,
                 false)
            | None => (B64_zero false, s, false)
            end
        end
  end.

(** An LP64 platform with IEEE 754 doubles: [strtod] converts as ISO C99
    says, correctly rounded. *)
Definition lp64 : Platform :=
  {| ULONG_MAX := 18446744073709551615;
     LONG_MAX := 9223372036854775807;
     LONG_MIN := -9223372036854775808;
     double := binary64;
     HUGE_VAL := B64_inf false;
     double_zero := B64_zero false;
     double_neg := b64_neg;
     double_eqb := b64_eqb;
     strtod := strtod64 |}.

(** * Further vocabulary *)

(** The first entry of [a] that is not NULL among the [n] entries from
    [i] on is the string [t], at index [j]. *)
Definition next_word `{PF : Platform} (a : list (option string))
    (i n j : nat) (t : string) : Prop :=
  i <= j < i + n /\ a !! j = Some (Some t) /\
  forall k, i <= k < j -> null_at a k.

(** The descriptor [d] never writes the cell at [p]: [p] is neither its
    destination nor its found flag, and its callback leaves it alone. *)
Definition leaves_cell `{PF : Platform} (p : ptr) (d : dooshki_opt)
    : Prop :=
  opt_storage d <> p /\ opt_found d <> Some p /\
  forall o x y m,
    (callback d o (opt_storage d) x y (callback_data d) m).2 !! p = m !! p.

(** The effect of a long option that takes an argument word, once the
    word is known. *)
Definition with_long_word `{PF : Platform} (d : dooshki_opt)
    (word : string) (c : pstate) : pstate :=
  flag_failure (process_opt_arg d true word (mark_found d c)).

(** The number a text of decimal digits denotes. *)
Definition numeral_value (s : string) : Z :=
  fold_left (fun acc c => (10 * acc + digit_val c)%Z)
    (list_ascii_of_string s) 0%Z.

(** ** Which tokens a parse consumes *)

(** The text of [s] before its first equals sign. *)
Fixpoint before_equals (s : string) : string :=
  match s with
  | String c r => if Ascii.eqb c "=" then "" else String c (before_equals r)
  | EmptyString => ""
  end.

(** The number of argument words the character [c] of a cluster asks
    for: one when it is the short name of a table option that takes a
    value, none when it is [h], [V], the name of an option without value,
    or unknown. *)
Definition short_wants `{PF : Platform} (args_ctxt : dooshki_args)
    (c : ascii) : nat :=
  if Ascii.eqb c "h" || Ascii.eqb c "V" then 0
  else
    match List.find (short_name_is c) (entries (opt_desc args_ctxt)) with
    | Some d => if takes_argument (type d) then 1 else 0
    | None => 0
    end.

(** The words the characters of a cluster ask for, one after the other. *)
Fixpoint cluster_wants `{PF : Platform} (args_ctxt : dooshki_args)
    (chars : string) : nat :=
  match chars with
  | String c r => short_wants args_ctxt c + cluster_wants args_ctxt r
  | EmptyString => 0
  end.

(** The number of argument words a long option token asks for: one when
    it is not [--help] or [--version], carries no value after an equals
    sign, and its name begins the long name of a table option that takes
    a value (the first such entry decides). *)
Definition long_wants `{PF : Platform} (args_ctxt : dooshki_args)
    (token : string) : nat :=
  if String.eqb token "--help" || String.eqb token "--version" then 0
  else
    match inline_arg (tail_from 2 token) with
    | Some _ => 0
    | None =>
        match List.find (long_name_begins (before_equals (tail_from 2 token)))
                (entries (opt_desc args_ctxt)) with
        | Some d => if takes_argument (type d) then 1 else 0
        | None => 0
        end
    end.

(** The number of argument words a token that starts with a dash asks
    for when the scan meets it. *)
Definition words_wanted `{PF : Platform} (args_ctxt : dooshki_args)
    (token : string) : nat :=
  if Ascii.eqb (first_char (tail_from 1 token)) "-"
  then long_wants args_ctxt token
  else cluster_wants args_ctxt (tail_from 1 token).

(** The tokens a parse gives back, of those after the program name, read
    from left to right with [pending] argument words still to be taken
    by the option met last.  The marker ends everything: it goes, and
    what follows it stays.  A word that is pending goes to its option,
    whatever it looks like.  Otherwise a token that starts with a dash is
    met as an option (a lone dash is a cluster without characters) and
    goes, and any other token stays. *)
Fixpoint unconsumed `{PF : Platform} (args_ctxt : dooshki_args)
    (pending : nat) (tokens : list string) : list string :=
  match tokens with
  | [] => []
  | t :: rest =>
      if String.eqb t "--" then rest
      else
        match pending with
        | S k => unconsumed args_ctxt k rest
        | O =>
            if Ascii.eqb (first_char t) "-"
            then unconsumed args_ctxt (words_wanted args_ctxt t) rest
            else t :: unconsumed args_ctxt 0 rest
        end
  end.



(** ** Which built-in option a token triggers *)

Inductive builtin := Help | Version.

(** The first of [h] and [V] among the characters of a cluster. *)
Fixpoint cluster_trigger (chars : string) : option builtin :=
  match chars with
  | String c r =>
      if Ascii.eqb c "h" then Some Help
      else if Ascii.eqb c "V" then Some Version
      else cluster_trigger r
  | EmptyString => None
  end.

(** The built-in option that the entry [e] of [argv] triggers when the
    scan meets it: [--help] and [--version] themselves, or a cluster with
    [h] or [V] among its characters, the first of them deciding. *)
Definition trigger (e : option string) : option builtin :=
  match e with
  | None => None
  | Some token =>
      if negb (Ascii.eqb (first_char token) "-") then None
      else if String.eqb token "--help" then Some Help
      else if String.eqb token "--version" then Some Version
      else if Ascii.eqb (first_char (tail_from 1 token)) "-" then None
      else cluster_trigger (tail_from 1 token)
  end.

(** The help flag and the version flag, in this order. *)
Definition flags `{PF : Platform} (st : pstate) : bool * bool :=
  (show_help st, show_version st).

(** The flags after a round of the scan that meets the trigger [t], from
    the flags [f] before it: the first trigger met sets its flag, and
    nothing changes once a flag is set. *)
Definition flags_after (f : bool * bool) (t : option builtin) : bool * bool :=
  if f.1 || f.2 then f
  else match t with
       | Some Help => (true, false)
       | Some Version => (false, true)
       | None => (false, false)
       end.

(** * The help screen *)

(** The range of [unsigned int], the type of the column counters and of
    the indices into a description. *)
Class UInt := { UINT_MAX : N }.

(** The new-line character. *)
Definition LF : ascii := "010"%char.

Definition nl : string := String LF "".

(** Columns at which help screen entries are shown. *)
Definition SHORT_START_COL : N := 2.
Definition LONG_START_COL : N := 6.
Definition DESC_START_COL : N := 28.
Definition PAGE_WRAP_COL : N := 78.

(** The hard-coded help and version entries. *)
Definition HELP_SHORT_OPT_STR : string := "h".
Definition HELP_LONG_OPT : string := "help".
Definition HELP_DESC : string := "Display this help screen and quit.".
Definition VER_SHORT_OPT_STR : string := "V".
Definition VER_LONG_OPT : string := "version".
Definition VER_DESC : string := "Display the program's version and quit.".

(** [strlen], as a count of characters written. *)
Definition strlen (s : string) : N := N.of_nat (String.length s).

(** The second loop of [find_word]: the text at the first white space or
    at the end of the string. *)
Fixpoint skip_word (s : string) : string :=
  match s with
  | String c r => if isspace c then s else skip_word r
  | EmptyString => s
  end.

(** [find_word]: [s] is the text at [*w_start] on entry; the result is the
    text at [*w_start] and the text at [*w_end] on return. *)
Definition find_word (s : string) : string * string :=
  let w := skip_spaces s in (w, skip_word w).

Section Screen.
Context `{PF : Platform} `{UI : UInt}.

(** Arithmetic on [unsigned int]. *)
Definition wrap (n : N) : N := (n mod (UINT_MAX + 1))%N.

(** The padding loop of [set_column], [k] rounds of it: the text written
    and the column reached.  It runs while [current_col < new_col], so
    the increment stays within the type. *)
Fixpoint pad_loop (k : nat) (current_col : N) : string * N :=
  match k with
  | O => ("", current_col)
  | S k' =>
      let '(t, c) := pad_loop k' (current_col + 1)%N in (String " " t, c)
  end.

(** [set_column]: the text written and the new value of [*column]. *)
Definition set_column (new_col column : N) (space_needed : bool)
    : string * N :=
  let break :=
    (new_col <? column)%N || (space_needed && (new_col =? column)%N) in
  let current_col := if break then 0%N else column in
  let '(pad, current_col') :=
    pad_loop (N.to_nat (new_col - current_col)) current_col in
  ((if break then nl else "") +:+ pad, current_col').

(** The do-while loop of [print_opt_desc], with [w] the text at
    [word_start] and [e] the text at [word_end]: the text written, the
    text at [word_start] when the loop is left, and the column.  The two
    indices are given by the text they point at, which is what they are
    as long as the description has fewer than [UINT_MAX] characters; the
    arithmetic on the column counter is written out.  Writes to stdout
    are taken to succeed. *)
Fixpoint line_loop (fuel : nat) (w e : string) (line_first_word : bool)
    (column : N) : option (string * string * N) :=
  match fuel with
  | O => None
  | S fuel' =>
      let sep := if line_first_word then "" else " " in
      let column := if line_first_word then column else wrap (column + 1) in
      let n := (String.length w - String.length e)%nat in
      let column := wrap (column + N.of_nat n) in
      let '(w', e') := find_word e in
      let n' := (String.length w' - String.length e')%nat in
      if negb (at_end w') &&
         (wrap (column + 1 + N.of_nat n') <? PAGE_WRAP_COL)%N
      then
        match line_loop fuel' w' e' false column with
        | Some (t, r, c) => Some (sep +:+ substring 0 n w +:+ t, r, c)
        | None => None
        end
      else Some (sep +:+ substring 0 n w, w', column)
  end.

(** The outer loop of [print_opt_desc], with [s] the text at
    [word_start]. *)
Fixpoint desc_loop (fuel : nat) (s : string) (column : N) : option string :=
  match fuel with
  | O => None
  | S fuel' =>
      if at_end s then Some ""
      else
        let '(pad, column) := set_column DESC_START_COL column true in
        let '(w, e) := find_word s in
        if at_end w then Some pad
        else
          match line_loop (String.length w) w e true column with
          | Some (t, r, column) =>
              match desc_loop fuel' r column with
              | Some u => Some (pad +:+ t +:+ u)
              | None => None
              end
          | None => None
          end
  end.

(** [print_opt_desc]: the text written, if the loops come to an end
    within as many rounds as the description has characters. *)
Definition print_opt_desc (desc : string) (column : N) : option string :=
  desc_loop (S (String.length desc)) desc column.

(** [print_option]: the text written. *)
Definition print_option
    (short_name long_name argument_template description : option string)
    : option string :=
  let column := 0%N in
  let '(t1, column) :=
    match short_name with
    | Some sn =>
        let '(pad, c) := set_column SHORT_START_COL column false in
        (pad +:+ String "-" (String (first_char sn) ""), wrap (c + 2))
    | None => ("", column)
    end in
  let '(t2, column) :=
    match long_name with
    | Some ln =>
        let '(comma, c) :=
          match short_name with
          | Some _ => (",", wrap (column + 1))
          | None => ("", column)
          end in
        let '(pad, c) := set_column LONG_START_COL c true in
        (comma +:+ pad +:+ "--" +:+ ln, wrap (c + (2 + strlen ln)))
    | None => ("", column)
    end in
  let '(t3, column) :=
    match argument_template with
    | Some tmpl =>
        ((match long_name with Some _ => "=" | None => " " end)
           +:+ "<" +:+ tmpl +:+ ">",
         wrap (wrap (column + 1) + (2 + strlen tmpl)))
    | None => ("", column)
    end in
  match description with
  | Some desc =>
      match print_opt_desc desc column with
      | Some t4 => Some (t1 +:+ t2 +:+ t3 +:+ t4 +:+ nl)
      | None => None
      end
  | None => Some (t1 +:+ t2 +:+ t3 +:+ nl)
  end.

(** [print_usage]: whether an empty line is written to stderr first, and
    the text written to stdout. *)
Definition print_usage (args_ctxt : dooshki_args) (is_error : bool)
    : bool * string :=
  (is_error,
   program_name args_ctxt +:+ " " +:+ version args_ctxt +:+ " - " +:+
   summary args_ctxt +:+ nl +:+
   "Usage:" +:+ nl +:+
   "    " +:+ program_name args_ctxt +:+ " " +:+ usage args_ctxt +:+ nl +:+
   nl +:+
   (if is_error
    then "See `" +:+ program_name args_ctxt +:+ " --" +:+ HELP_LONG_OPT +:+
         "' for more details." +:+ nl
    else "")).

(** The loop of [print_help] over the table. *)
Fixpoint print_options (tbl : list dooshki_opt) : option string :=
  match tbl with
  | [] => Some ""
  | d :: tbl' =>
      if is_last d then Some ""
      else
        match print_option (short_name d) (long_name d)
                (argument_template d) (description d) with
        | Some t =>
            match print_options tbl' with
            | Some u => Some (t +:+ u)
            | None => None
            end
        | None => None
        end
  end.

(** [print_help]: the text written to stdout. *)
Definition print_help (args_ctxt : dooshki_args) : option string :=
  match print_options (opt_desc args_ctxt),
        print_option (Some VER_SHORT_OPT_STR) (Some VER_LONG_OPT) None
          (Some VER_DESC),
        print_option (Some HELP_SHORT_OPT_STR) (Some HELP_LONG_OPT) None
          (Some HELP_DESC) with
  | Some body, Some v, Some h =>
      Some ((print_usage args_ctxt false).2 +:+
            prog_description args_ctxt +:+ nl +:+ "Options:" +:+ nl +:+
            body +:+ v +:+ h)
  | _, _, _ => None
  end.

(** [print_version]: the text written to stdout. *)
Definition print_version (args_ctxt : dooshki_args) : string :=
  program_name args_ctxt +:+ " " +:+ version args_ctxt +:+ nl.

(** The end of [dooshki_args_parse], after the list was deflated: whether
    an empty line is written to stderr, and the text written to stdout. *)
Definition final_output (args_ctxt : dooshki_args) (st : pstate)
    : option (bool * string) :=
  if show_help st then
    match print_help args_ctxt with
    | Some t => Some (errors_found st, t)
    | None => None
    end
  else if show_version st then
    Some (errors_found st, print_version args_ctxt)
  else if errors_found st then Some (print_usage args_ctxt true)
  else Some (false, "").

Definition dooshki_args_err_usage (args_ctxt : dooshki_args)
    : bool * string :=
  print_usage args_ctxt true.

(** A descriptor with its description text. *)
Definition described (text : string) (d : dooshki_opt) : dooshki_opt :=
  {| short_name := short_name d; long_name := long_name d;
     argument_template := argument_template d; type := type d;
     opt_storage := opt_storage d; opt_found := opt_found d;
     description := Some text; callback := callback d;
     callback_data := callback_data d |}.

End Screen.

(** ** Vocabulary for the screen *)

(** The characters of [s] up to the first white space. *)
Fixpoint word_at (s : string) : string :=
  match s with
  | String c r => if isspace c then "" else String c (word_at r)
  | EmptyString => ""
  end.

(** [s] begins inside a word. *)
Definition in_word (s : string) : bool :=
  negb (at_end s) && negb (isspace (first_char s)).

(** The words of a text: its maximal runs of characters that are not
    white space, in order. *)
Fixpoint word_list (s : string) : list string :=
  match s with
  | EmptyString => []
  | String c r =>
      if isspace c then word_list r
      else if in_word r then
        match word_list r with
        | x :: l => String c x :: l
        | [] => [String c ""]
        end
      else String c "" :: word_list r
  end.

(** Where the cursor stands after [text] is written from column [col]. *)
Fixpoint cursor (col : N) (text : string) : N :=
  match text with
  | EmptyString => col
  | String c r => cursor (if Ascii.eqb c LF then 0 else col + 1)%N r
  end.

(** The rightmost column the cursor gets to while [text] is written from
    column [col]. *)
Fixpoint reach (col : N) (text : string) : N :=
  match text with
  | EmptyString => col
  | String c r =>
      N.max col (reach (if Ascii.eqb c LF then 0 else col + 1)%N r)
  end.

Fixpoint spaces (n : nat) : string :=
  match n with
  | O => ""
  | S k => String " " (spaces k)
  end.

(** The text made of the given lines. *)
Definition unlines (l : list string) : string :=
  fold_right (fun x t => x +:+ String LF t) "" l.

(** ** The demo program's screen and report *)

(** The name [main] prints for a stored quality. *)
Definition quality_str (q : Z) : string :=
  match q with
  | 0%Z => "good"
  | 1%Z => "bad"
  | 2%Z => "ugly"
  | _ => "unknown"
  end.

(** A text in lower case. *)
Fixpoint lower (s : string) : string :=
  match s with
  | String c r => String (tolower c) (lower r)
  | EmptyString => ""
  end.

Definition not_space (c : ascii) : bool := negb (isspace c).

Definition not_newline (c : ascii) : bool := negb (Ascii.eqb c LF).

(** The first line of an option's entry in the help screen, up to the
    description: the names at their columns and the argument template. *)
Definition header_text (short_name long_name argument_template : option string)
    : string :=
  match short_name, long_name with
  | Some sn, Some ln =>
      "  -" +:+ String (first_char sn) "" +:+ ", --" +:+ ln
  | Some sn, None => "  -" +:+ String (first_char sn) ""
  | None, Some ln => "      --" +:+ ln
  | None, None => ""
  end +:+
  match argument_template with
  | Some tmpl =>
      (match long_name with Some _ => "=" | None => " " end)
        +:+ "<" +:+ tmpl +:+ ">"
  | None => ""
  end.

(** The texts of a list, one after the other. *)
Definition joined (l : list string) : string :=
  fold_right String.app "" l.

(** ** The demo program's help screen *)

Section DemoScreen.
Context `{PF : Platform}.

Definition PROG_DESCRIPTION : string :=
  unlines
    [ "This program serves as a simple example of Dooshki's command line argument";
      "parsing library.";
      "";
      "The library is designed to be easily integrated into any small project";
      "written in the C programming language.  It has a small code footprint,";
      "and works in any environment which supports ANSI C89.";
      "";
      "This program tests all of the supported command line option types, including";
      "a custom type (by the use of a callback function), and displays the collected";
      "information." ].

(** The description of the demo program's option [-m]. *)
Definition manual_description : string :=
  "Perform the requested action manually.  This option has an intentionally"
  +:+ " long description, as to show the line-wrapping support.".

(** [cli_options] with the description texts of the demo program. *)
Definition cli_options_described : list dooshki_opt :=
  [ described "Perform the requested action automatically." automatic_option;
    described manual_description manual_option;
    described "Label to display." label_option;
    rating_option;
    described "Projectile direction." direction_option;
    described "Projectile velocity." velocity_option;
    described "Quality of the projectiles to be used." quality_option;
    last_member ].

Definition cli_args_described : dooshki_args :=
  {| program_name := "dooshki_args_demo"; version := "0.1";
     usage := "[OPTIONS] [FILE1 [FILE2 [...]]]";
     summary := "Dooshki's demo for his CLI arguments library";
     prog_description := PROG_DESCRIPTION;
     opt_desc := cli_options_described |}.

End DemoScreen.

(** An [unsigned int] of 32 bits. *)
Definition uint32 : UInt := {| UINT_MAX := 4294967295 |}.

(** The description of [-m] as the help screen of the demo program shows
    it, after the first line of the entry. *)
Definition manual_folded : string :=
  spaces 24 +:+ "Perform the requested action manually. This" +:+ nl +:+
  spaces 28 +:+ "option has an intentionally long description, as" +:+ nl +:+
  spaces 28 +:+ "to show the line-wrapping support.".

(** * Properties *)

Section Properties.
Context `{PF : Platform}.

(** ** What each routine leaves alone *)

Lemma same_control_refl a : same_control a a.
Proof. by repeat split. Qed.

Lemma same_control_trans a b c :
  same_control a b -> same_control b c -> same_control a c.
Proof. unfold same_control. intros (?&?&?&?) (?&?&?&?). repeat split; congruence. Qed.

Lemma errors_grow_refl a : errors_grow a a.
Proof. split; auto. Qed.

Lemma errors_grow_trans a b c :
  errors_grow a b -> errors_grow b c -> errors_grow a c.
Proof.
  intros [H1 H2] [H3 H4]. split; [|auto].
  destruct H3 as [H3|H3]; [|by right].
  destruct H1 as [H1|H1]; [left; congruence | right; auto].
Qed.

Ltac unfold_conv :=
  unfold process_opt_arg, process_str_arg, process_uint_arg,
    process_int_arg, process_float_arg, run_callback, flag_failure,
    mark_found, poke, set_error, print_error, set_mem in *.

Lemma process_opt_arg_frame d l a st :
  let r := flag_failure (process_opt_arg d l a st) in
  argv r = argv st /\ same_control st r /\ errors_grow st r.
Proof.
  unfold same_control, errors_grow. unfold_conv.
  repeat (case_match; simpl in * ); simplify_eq; simpl; intuition.
Qed.

Lemma run_callback_frame d o p n st :
  let r := flag_failure (run_callback d o p n st) in
  argv r = argv st /\ same_control st r /\ errors_grow st r.
Proof.
  unfold same_control, errors_grow. unfold_conv.
  repeat (case_match; simpl in * ); simplify_eq; simpl; intuition.
Qed.

Lemma mark_found_frame d st :
  argv (mark_found d st) = argv st /\ same_control st (mark_found d st) /\
  stderr (mark_found d st) = stderr st /\
  errors_found (mark_found d st) = errors_found st.
Proof. unfold mark_found, same_control. case_match; simpl; intuition. Qed.

(** ** The search for an argument word *)

Lemma next_arg_spec (a : list (option string)) i n j :
  next_arg a i n = Some j ->
  i <= j < i + n /\
  (exists t, a !! j = Some (Some t) /\ t <> "--") /\
  (forall k, i <= k < j -> a !! k = Some None \/ a !! k = None).
Proof.
  revert i. induction n as [|n IH]; intros i; simpl; [done|].
  destruct (a !! i) as [[t|]|] eqn:E.
  - destruct (String.eqb_spec t "--"); [done|].
    intros [= <-]. split; [lia|]. split; [eauto|]. intros; lia.
  - intros H. destruct (IH _ H) as (Hr & Ht & Hk). split; [lia|].
    split; [done|]. intros k Hk'. destruct (decide (k = i)) as [->|]; [auto|].
    apply Hk; lia.
  - intros H. destruct (IH _ H) as (Hr & Ht & Hk). split; [lia|].
    split; [done|]. intros k Hk'. destruct (decide (k = i)) as [->|]; [auto|].
    apply Hk; lia.
Qed.

Lemma take_arg_spec i st t st' :
  take_arg i st = Some (t, st') ->
  exists j, i < j < argc st /\ argv st !! j = Some (Some t) /\ t <> "--" /\
    st' = set_argv (<[j := None]> (argv st)) st.
Proof.
  unfold take_arg. destruct (next_arg _ _ _) as [j|] eqn:E; [|done].
  apply next_arg_spec in E as (Hr & (t' & Ht & Hne) & _).
  rewrite Ht. intros [= <- <-]. exists j. repeat split; auto; lia.
Qed.

Lemma nulled_from_refl i a : nulled_from i a a.
Proof. split; [done|]. intros j; auto. Qed.

Lemma nulled_from_trans i a b c :
  nulled_from i a b -> nulled_from i b c -> nulled_from i a c.
Proof.
  intros [L1 H1] [L2 H2]. split; [congruence|]. intros j.
  destruct (H1 j) as [A1 B1], (H2 j) as [A2 B2]. split.
  - intros Hj. rewrite A2, A1; auto.
  - destruct B2 as [->|]; auto.
Qed.

Lemma nulled_from_weaken i i' a b :
  i' <= i -> nulled_from i a b -> nulled_from i' a b.
Proof.
  intros Hi [L H]. split; [done|]. intros j. destruct (H j) as [A B].
  split; [intros; apply A; lia | done].
Qed.

Lemma nulled_from_insert i j (a : list (option string)) :
  i <= j -> nulled_from i a (<[j := None]> a).
Proof.
  intros Hij. split; [by rewrite length_insert|]. intros k. split.
  - intros Hk. rewrite list_lookup_insert_ne; [done|lia].
  - destruct (decide (k = j)) as [->|Hne].
    + destruct (decide (j < length a)).
      * right. by rewrite list_lookup_insert_eq.
      * left. rewrite list_insert_ge; [done|lia].
    + left. by rewrite list_lookup_insert_ne.
Qed.

(** ** The built-in flags *)

Lemma flags_grow_refl a : flags_grow a a.
Proof. by intros H. Qed.

Lemma flags_grow_trans a b c :
  flags_grow a b -> flags_grow b c -> flags_grow a c.
Proof.
  intros H1 H2 Ha. destruct (H1 Ha) as (Hb & ? & ?).
  destruct (H2 Hb) as (Hc & ? & ?). auto.
Qed.

Lemma flags_grow_same a b :
  show_help b = show_help a -> show_version b = show_version a ->
  flags_grow a b.
Proof. unfold flags_grow, flags_excl. intros -> ->. auto. Qed.

(** ** One step of option processing *)

Lemma opt_step_refl i a : opt_step i a a.
Proof.
  unfold opt_step; split_and!;
    auto using errors_grow_refl, flags_grow_refl, nulled_from_refl.
Qed.

Lemma opt_step_trans i a b c :
  opt_step i a b -> opt_step i b c -> opt_step i a c.
Proof.
  intros (?&?&?&?) (?&?&?&?). unfold opt_step; split_and!.
  - eapply nulled_from_trans; eauto.
  - congruence.
  - eapply errors_grow_trans; eauto.
  - eapply flags_grow_trans; eauto.
Qed.

Lemma opt_step_weaken i i' a b :
  i' <= i -> opt_step i a b -> opt_step i' a b.
Proof.
  intros Hi (?&?&?&?). unfold opt_step; split_and!;
    eauto using nulled_from_weaken.
Qed.

(** A step that keeps [argv] and the control fields. *)
Lemma opt_step_plain i a b :
  argv b = argv a -> same_control a b -> errors_grow a b -> opt_step i a b.
Proof.
  intros Ha (?&?&?&?) ?. unfold opt_step; split_and!; auto.
  - rewrite Ha. apply nulled_from_refl.
  - by apply flags_grow_same.
Qed.

Lemma opt_step_error i m st :
  opt_step i st (set_error (print_error m st)).
Proof.
  apply opt_step_plain; [done | by repeat split |].
  split; simpl; auto.
Qed.

Lemma opt_step_poke i p v st : opt_step i st (poke p v st).
Proof.
  apply opt_step_plain; [done | by repeat split | by split; simpl; auto].
Qed.

Lemma opt_step_mark_found i d st : opt_step i st (mark_found d st).
Proof.
  destruct (mark_found_frame d st) as (?&?&?&?).
  apply opt_step_plain; auto. split; auto. congruence.
Qed.

Lemma opt_step_take_arg i st t st' :
  take_arg i st = Some (t, st') -> opt_step (S i) st st'.
Proof.
  intros (j & Hj & _ & _ & ->)%take_arg_spec.
  unfold opt_step; split_and!; simpl; auto.
  - apply nulled_from_insert. lia.
  - by split; simpl; auto.
  - by apply flags_grow_same.
Qed.

Lemma opt_step_process_opt_arg i d l a st :
  opt_step i st (flag_failure (process_opt_arg d l a st)).
Proof.
  destruct (process_opt_arg_frame d l a st) as (?&?&?).
  by apply opt_step_plain.
Qed.

Lemma opt_step_run_callback i d o p n st :
  opt_step i st (flag_failure (run_callback d o p n st)).
Proof.
  destruct (run_callback_frame d o p n st) as (?&?&?).
  by apply opt_step_plain.
Qed.

Lemma opt_step_valued i d l opt_argi m st :
  i <= S opt_argi ->
  opt_step i st
    match take_arg opt_argi st with
    | Some (a, st') => flag_failure (process_opt_arg d l a st')
    | None => set_error (print_error m st)
    end.
Proof.
  intros Hi. destruct (take_arg opt_argi st) as [[a st']|] eqn:E.
  - eapply opt_step_trans; [|apply opt_step_process_opt_arg].
    eapply opt_step_weaken; [|by eapply opt_step_take_arg]. done.
  - apply opt_step_error.
Qed.

Lemma opt_step_long_matched d opt_argi o st :
  opt_step (S opt_argi) st (long_matched d opt_argi o st).
Proof.
  unfold long_matched.
  eapply opt_step_trans; [apply (opt_step_mark_found _ d)|].
  destruct (type d), o;
    auto using opt_step_error, opt_step_poke, opt_step_run_callback,
      opt_step_process_opt_arg, opt_step_valued.
Qed.

Lemma opt_step_short_matched d opt_argi st :
  opt_step (S opt_argi) st (short_matched d opt_argi st).
Proof.
  unfold short_matched.
  eapply opt_step_trans; [apply (opt_step_mark_found _ d)|].
  destruct (type d);
    auto using opt_step_error, opt_step_poke, opt_step_run_callback,
      opt_step_process_opt_arg, opt_step_valued.
Qed.

Lemma opt_step_set_help i st :
  opt_step i st (if show_version st then st else set_help st).
Proof.
  destruct (show_version st) eqn:E; [apply opt_step_refl|].
  unfold opt_step; split_and!; simpl; auto using nulled_from_refl.
  { by split; simpl; auto. }
  unfold flags_grow, flags_excl; simpl. rewrite E.
  intros H; split_and!; auto with bool.
Qed.

Lemma opt_step_set_version i st :
  opt_step i st (if show_help st then st else set_version st).
Proof.
  destruct (show_help st) eqn:E; [apply opt_step_refl|].
  unfold opt_step; split_and!; simpl; auto using nulled_from_refl.
  { by split; simpl; auto. }
  unfold flags_grow, flags_excl; simpl. rewrite E.
  intros H; split_and!; auto with bool.
Qed.

Lemma opt_step_long_opt args opt_argi token st :
  opt_step (S opt_argi) st (long_opt args opt_argi token st).
Proof.
  unfold long_opt.
  destruct (String.eqb token "--help"); [apply opt_step_set_help|].
  destruct (String.eqb token "--version"); [apply opt_step_set_version|].
  destruct (long_search _ _ _);
    auto using opt_step_error, opt_step_long_matched.
Qed.

Lemma opt_step_short_char args opt_argi c st :
  opt_step (S opt_argi) st (short_char args opt_argi c st).
Proof.
  unfold short_char.
  destruct (Ascii.eqb c "h"); [apply opt_step_set_help|].
  destruct (Ascii.eqb c "V"); [apply opt_step_set_version|].
  destruct (short_search _ _);
    auto using opt_step_error, opt_step_short_matched.
Qed.

Lemma opt_step_short_loop args opt_argi chars st :
  opt_step (S opt_argi) st (short_loop args opt_argi chars st).
Proof.
  revert st. induction chars as [|c r IH]; intros st; simpl.
  - apply opt_step_refl.
  - eapply opt_step_trans; [apply opt_step_short_char | apply IH].
Qed.

Lemma opt_step_process_long_opt args i st :
  opt_step (S i) st (process_long_opt args i st).
Proof.
  unfold process_long_opt.
  repeat case_match; auto using opt_step_long_opt, opt_step_refl.
Qed.

Lemma opt_step_process_short_opts args i st :
  opt_step (S i) st (process_short_opts args i st).
Proof.
  unfold process_short_opts.
  repeat case_match; auto using opt_step_short_loop, opt_step_refl.
Qed.

(** ** The scanning loop *)

Lemma opt_step_scan_step args i st :
  opt_step i st (scan_step args i st).
Proof.
  unfold scan_step.
  destruct (argv st !! i) as [[token|]|] eqn:E; try apply opt_step_refl.
  destruct (Ascii.eqb (first_char token) "-"); [|apply opt_step_refl].
  set (st' := if Ascii.eqb (first_char (tail_from 1 token)) "-" then _
              else _).
  assert (opt_step (S i) st st') as Hs.
  { subst st'. repeat case_match;
      auto using opt_step_process_long_opt, opt_step_process_short_opts.
    unfold opt_step; split_and!; simpl; auto using nulled_from_refl.
    - by split; simpl; auto.
    - by apply flags_grow_same. }
  eapply opt_step_trans; [eapply opt_step_weaken; [|exact Hs]; lia|].
  unfold opt_step; split_and!; simpl; auto.
  - by apply nulled_from_insert.
  - by split; simpl; auto.
  - by apply flags_grow_same.
Qed.

Lemma opt_step_scan_loop args k i st :
  opt_step i st (scan_loop args k i st).
Proof.
  revert i st. induction k as [|k IH]; intros i st; simpl.
  - apply opt_step_refl.
  - destruct (stopper_reached st); [apply opt_step_refl|].
    eapply opt_step_trans; [apply opt_step_scan_step|].
    eapply opt_step_weaken; [|apply IH]. lia.
Qed.

Lemma scan_loop_add args n k i st :
  scan_loop args (n + k) i st =
  scan_loop args k (i + n) (scan_loop args n i st).
Proof.
  revert i st. induction n as [|n IH]; intros i st; simpl.
  - by rewrite Nat.add_0_r.
  - destruct (stopper_reached st) eqn:E.
    + destruct k; simpl; [done | by rewrite E].
    + rewrite IH. f_equal. lia.
Qed.

Lemma rounds_all args st : rounds args (argc st - 1) st = scan args st.
Proof. unfold rounds, scan. by rewrite Nat.min_id. Qed.

Lemma rounds_add args n k st :
  exists k' i, rounds args (n + k) st = scan_loop args k' i (rounds args n st).
Proof.
  unfold rounds.
  exists (Nat.min (n + k) (argc st - 1) - Nat.min n (argc st - 1)),
         (1 + Nat.min n (argc st - 1)).
  rewrite <- scan_loop_add. f_equal. lia.
Qed.

Lemma flags_excl_entry n a m : flags_excl (entry n a m).
Proof. done. Qed.

(** ** Compaction keeps everything but [argv] and [argc] *)

Lemma deflate_args_list_frame st :
  let r := deflate_args_list st in
  mem r = mem st /\ show_help r = show_help st /\
  show_version r = show_version st /\ errors_found r = errors_found st /\
  stderr r = stderr st /\ stopper_reached r = stopper_reached st.
Proof.
  unfold deflate_args_list. destruct (deflate_loop _ _ _). by simpl.
Qed.

(** ** Claims about the outcome and the built-in flags *)

(** C5. One outcome per call, taken from the flags as the full scan
    leaves them: help if the help flag is set, whatever the version flag
    and the errors; else version; else parse error if [errors_found] is
    set; else ok.  Whenever the scan wrote an error line, [errors_found]
    is set.  The scanning loop goes on to the next entry whatever
    [errors_found] is: only the marker ends it early. *)
Theorem outcome_after_full_scan args n a m :
  let s := scan args (entry n a m) in
  (dooshki_args_parse args (entry n a m)).1 =
    (if show_help s then DOOSHKI_ARGS_HELP_SHOWN
     else if show_version s then DOOSHKI_ARGS_VER_SHOWN
     else if errors_found s then DOOSHKI_ARGS_PARSE_ERROR
     else DOOSHKI_ARGS_PARSE_OK)
  /\ (stderr s = [] \/ errors_found s = true)
  /\ (forall k i st,
        scan_loop args (S k) i (set_error st) =
        if stopper_reached st then set_error st
        else scan_loop args k (S i) (scan_step args i (set_error st))).
Proof.
  intros s. split; [|split; [|done]].
  - unfold dooshki_args_parse, outcome; simpl. fold s.
    destruct (deflate_args_list_frame s) as (_ & -> & -> & -> & _). done.
  - destruct (opt_step_scan_loop args (n - 1) 1 (entry n a m))
      as (_ & _ & [H _] & _). exact H.
Qed.

(** At every point of a parse call (after any number of rounds of the
    scanning loop, and after any run of characters of a cluster
    processed from there) the help flag and the version flag are not both
    set, and a flag that is set stays set, so that the other one stays
    clear.  The triggers set their flag exactly when the other one is
    clear. *)
Lemma flags_never_both args n a m r k :
  let s := rounds args r (entry n a m) in
  let s' := rounds args (r + k) (entry n a m) in
  show_help s && show_version s = false
  /\ (show_help s = false \/
      (show_help s' = true /\ show_version s' = false))
  /\ (show_version s = false \/
      (show_version s' = true /\ show_help s' = false))
  /\ (forall i chars,
        let c := short_loop args i chars s in
        show_help c && show_version c = false
        /\ (show_help s = false \/ show_help c = true)
        /\ (show_version s = false \/ show_version c = true))
  /\ (forall i st,
        show_help (long_opt args i "--help" st) =
          show_help st || negb (show_version st)
        /\ show_version (long_opt args i "--help" st) = show_version st
        /\ show_version (long_opt args i "--version" st) =
          show_version st || negb (show_help st)
        /\ show_help (long_opt args i "--version" st) = show_help st
        /\ show_help (short_char args i "h" st) =
          show_help st || negb (show_version st)
        /\ show_version (short_char args i "h" st) = show_version st
        /\ show_version (short_char args i "V" st) =
          show_version st || negb (show_help st)
        /\ show_help (short_char args i "V" st) = show_help st).
Proof.
  intros s s'.
  assert (flags_excl s) as Hs.
  { destruct (opt_step_scan_loop args (Nat.min r (argc (entry n a m) - 1)) 1
                (entry n a m)) as (_ & _ & _ & H).
    by destruct (H (flags_excl_entry n a m)). }
  assert (flags_grow s s') as Hg.
  { destruct (rounds_add args r k (entry n a m)) as (k' & i & E).
    subst s s'. rewrite E.
    eapply flags_grow_trans; [apply flags_grow_refl|].
    by destruct (opt_step_scan_loop args k' i
                   (rounds args r (entry n a m))) as (_ & _ & _ & H). }
  destruct (Hg Hs) as (He' & Hh & Hv). unfold flags_excl in *.
  split_and!.
  - exact Hs.
  - destruct (show_help s); [right|by left].
    rewrite Hh in He' |- *; auto.
  - destruct (show_version s); [right|by left].
    rewrite Hv in He' |- *; auto. by destruct (show_help s').
  - intros i chars.
    destruct (opt_step_short_loop args i chars s) as (_ & _ & _ & H).
    destruct (H Hs) as (Hc & Hch & Hcv). split_and!.
    + exact Hc.
    + destruct (show_help s); [right; auto | by left].
    + destruct (show_version s); [right; auto | by left].
  - intros i st. unfold long_opt, short_char; simpl.
    destruct (show_help st) eqn:E1, (show_version st) eqn:E2; simpl;
      by split_and!.
Qed.

(** ** Unsigned conversion *)

Lemma chars_all_app P a b :
  chars_all P (a +:+ b) = chars_all P a && chars_all P b.
Proof.
  induction a as [|c a IH]; simpl; [done|]. by rewrite IH, andb_assoc.
Qed.

Lemma chars_all_false_not_end P s : chars_all P s = false -> at_end s = false.
Proof. by destruct s. Qed.

Lemma skip_spaces_odd s :
  chars_all numeral_char s = false ->
  chars_all numeral_char (skip_spaces s) = false.
Proof.
  induction s as [|c r IH]; simpl; [done|].
  destruct (isspace c) eqn:E; [|done].
  unfold numeral_char at 1. rewrite E, orb_true_r. simpl. exact IH.
Qed.

Lemma read_sign_odd s :
  chars_all numeral_char s = false ->
  chars_all numeral_char (read_sign s).2 = false.
Proof.
  destruct s as [|c r]; simpl; [done|]. intros H.
  destruct (Ascii.eqb c "-") eqn:E1; simpl.
  { unfold numeral_char in H at 1. by rewrite E1, !orb_true_r in H. }
  destruct (Ascii.eqb c "+") eqn:E2; simpl; [|done].
  unfold numeral_char in H at 1. by rewrite E2, !orb_true_r in H.
Qed.

Lemma read_digits_odd s acc :
  chars_all numeral_char s = false ->
  chars_all numeral_char (read_digits s acc).2 = false.
Proof.
  revert acc. induction s as [|c r IH]; intros acc; simpl; [done|].
  destruct (isdigit c) eqn:E; [|done].
  unfold numeral_char at 1. rewrite E. simpl. apply IH.
Qed.

(** A text with a character no numeral is written with is never
    converted to its end. *)
Lemma strtoul_rest_odd s :
  chars_all numeral_char s = false -> at_end (strtoul s).1.2 = false.
Proof.
  intros H. unfold strtoul.
  pose proof (read_sign_odd _ (skip_spaces_odd _ H)) as H1.
  destruct (read_sign (skip_spaces s)) as [neg body]. simpl in H1.
  destruct (starts_with_digit body).
  - pose proof (read_digits_odd body 0 H1) as H2.
    destruct (read_digits body 0) as [v rest]. simpl in H2.
    destruct (ULONG_MAX <? v)%Z; simpl; by eapply chars_all_false_not_end.
  - simpl. by eapply chars_all_false_not_end.
Qed.

(** Nothing is converted when the text does not start like a numeral. *)
Lemma strtoul_none s :
  numeral_char (first_char s) = false -> (strtoul s).1.1 = 0%Z.
Proof.
  destruct s as [|c r]; [done|]. simpl. unfold numeral_char, strtoul.
  intros H. apply orb_false_elim in H as [H Hm].
  apply orb_false_elim in H as [H Hp].
  apply orb_false_elim in H as [Hd Hs]. simpl.
  rewrite Hs. simpl. rewrite Hm, Hp. simpl. by rewrite Hd.
Qed.

Lemma process_uint_arg_invalid d p n a st :
  at_end (strtoul a).1.2 = false \/ first_char a = "-"%char ->
  process_uint_arg d p n a st =
    (false, print_error (MsgNotUInt a p n)
              (poke (opt_storage d) (CULong (strtoul a).1.1) st)).
Proof.
  intros H. unfold process_uint_arg.
  destruct (strtoul a) as [[v rest] e]. simpl in *.
  destruct H as [-> | ->]; [done|]. by rewrite orb_true_r.
Qed.

(** Reading a text of digits only: all of it is read. *)
Lemma read_digits_all s acc :
  chars_all isdigit s = true -> (read_digits s acc).2 = "".
Proof.
  revert acc. induction s as [|c r IH]; intros acc; simpl; [done|].
  intros [-> H]%andb_true_iff. by apply IH.
Qed.

(** The parts of the unsigned conversion that reject: a leading minus
    sign, and text left over after the numeral. *)
Lemma uint_leading_minus d p n r st :
  (process_uint_arg d p n (String "-" r) st).1 = false /\
  stderr (process_uint_arg d p n (String "-" r) st).2 =
    stderr st ++ [MsgNotUInt (String "-" r) p n].
Proof. rewrite process_uint_arg_invalid; [done | by right]. Qed.

Lemma uint_trailing_text d p n a st :
  chars_all numeral_char a = false ->
  (process_uint_arg d p n a st).1 = false /\
  stderr (process_uint_arg d p n a st).2 = stderr st ++ [MsgNotUInt a p n].
Proof.
  intros H. rewrite process_uint_arg_invalid; [done|].
  left. by apply strtoul_rest_odd.
Qed.

(** A numeral above [ULONG_MAX] is reported as too large. *)
Lemma uint_too_large d p n a st :
  chars_all isdigit a = true -> at_end a = false ->
  (ULONG_MAX < (read_digits a 0).1)%Z ->
  process_uint_arg d p n a st =
    (false, print_error (MsgTooLarge a p n)
              (poke (opt_storage d) (CULong ULONG_MAX) st)).
Proof.
  intros Hd He Hbig. unfold process_uint_arg, strtoul.
  destruct a as [|c r]; [done|]. simpl in Hd.
  apply andb_true_iff in Hd as [Hc Hr].
  assert (Ascii.eqb c "-" = false) as Hm.
  { destruct (Ascii.eqb_spec c "-") as [->|]; done. }
  assert (Ascii.eqb c "+" = false) as Hp.
  { destruct (Ascii.eqb_spec c "+") as [->|]; done. }
  assert (isspace c = false) as Hs.
  { unfold isspace, isdigit in *.
    apply andb_true_iff in Hc as [H1%Nat.leb_le H2%Nat.leb_le].
    apply orb_false_iff. split; [apply Nat.eqb_neq; lia|].
    apply andb_false_iff. right. apply Nat.leb_gt. lia. }
  simpl. rewrite Hs. simpl. rewrite Hm, Hp. simpl. rewrite Hc.
  pose proof (read_digits_all r (10 * 0 + digit_val c) Hr) as Hrest.
  simpl in Hbig. rewrite Hc in Hbig.
  destruct (read_digits r (10 * 0 + digit_val c)) as [v rest].
  simpl in *. subst rest.
  destruct (Z.ltb_spec ULONG_MAX v); [|lia]. simpl.
  by rewrite Z.eqb_refl.
Qed.

(** ** Splitting a long option *)

Lemma name_len_split name value :
  chars_all not_equals_sign name = true ->
  name_len (name +:+ String "=" value) = String.length name.
Proof.
  induction name as [|c r IH]; simpl; [done|].
  unfold not_equals_sign at 1. intros [Hc Hr]%andb_true_iff.
  apply negb_true_iff in Hc. rewrite Hc. by rewrite IH.
Qed.

Lemma inline_arg_split name value :
  chars_all not_equals_sign name = true ->
  inline_arg (name +:+ String "=" value) = Some value.
Proof.
  induction name as [|c r IH]; simpl; [done|].
  unfold not_equals_sign at 1. intros [Hc Hr]%andb_true_iff.
  apply negb_true_iff in Hc. rewrite Hc. by rewrite IH.
Qed.

Lemma name_len_plain name :
  chars_all not_equals_sign name = true ->
  name_len name = String.length name /\ inline_arg name = None.
Proof.
  induction name as [|c r IH]; simpl; [done|].
  unfold not_equals_sign at 1. intros [Hc Hr]%andb_true_iff.
  apply negb_true_iff in Hc. rewrite Hc.
  destruct (IH Hr) as [-> ->]. done.
Qed.

Lemma with_equals_not_builtin name value b :
  chars_all not_equals_sign b = true ->
  String.eqb ("--" +:+ name +:+ String "=" value) b = false.
Proof.
  intros Hb. destruct (String.eqb_spec ("--" +:+ name +:+ String "=" value) b)
    as [E|]; [|done].
  rewrite <- E in Hb. change ("--" +:+ name +:+ String "=" value)
    with (String "-" (String "-" (name +:+ String "=" value))) in Hb.
  simpl in Hb. rewrite chars_all_app in Hb. simpl in Hb.
  by rewrite andb_false_r in Hb.
Qed.

(** ** Claims about single tokens *)

(** C3 (amended). A long option [--name=value] of the unsigned kind whose
    value text has a character no numeral is written with (as [abc])
    writes exactly one invalid-number line and sets [errors_found]; its
    destination is not left alone: it receives what [strtoul] returned,
    which is 0 when the text does not even start like a numeral. *)
Theorem uint_non_numeric_overwrites args i name value d st :
  chars_all not_equals_sign name = true ->
  long_search (opt_desc args) (name +:+ String "=" value)
    (String.length name) = Some d ->
  type d = DOOSHKI_OPT_UINT ->
  chars_all numeral_char value = false ->
  let s := long_opt args i ("--" +:+ name +:+ String "=" value) st in
  stderr s =
    stderr st ++ [MsgNotUInt value "--" (default "" (long_name d))]
  /\ errors_found s = true
  /\ mem s = <[opt_storage d := CULong (strtoul value).1.1]>
               (mem (mark_found d st))
  /\ argv s = argv st
  /\ (numeral_char (first_char value) = true \/
      mem s !! opt_storage d = Some (CULong 0)).
Proof.
  intros Hname Hfind Hty Hodd s. subst s. unfold long_opt.
  rewrite !with_equals_not_builtin by done.
  change (tail_from 2 ("--" +:+ name +:+ String "=" value))
    with (name +:+ String "=" value).
  rewrite name_len_split, inline_arg_split, Hfind by done.
  unfold long_matched. rewrite Hty. unfold process_opt_arg. rewrite Hty.
  rewrite process_uint_arg_invalid by (left; by apply strtoul_rest_odd).
  simpl. destruct (mark_found_frame d st) as (Ha & _ & He & _).
  rewrite He, Ha. split_and!; try done.
  destruct (numeral_char (first_char value)) eqn:E; [by left|right].
  rewrite strtoul_none by done. apply lookup_insert_eq.
Qed.

(** C8 (the code at the failing input). A lone [-] raises no error and
    writes nothing, but it does not stay: the scanning loop takes it for
    an empty cluster and overwrites it with NULL. *)
Theorem lone_dash_dropped args prog m :
  let r := dooshki_args_parse args (command_line [prog; "-"] m) in
  remaining r.2 = [Some prog] /\ argc r.2 = 1 /\
  r.1 = DOOSHKI_ARGS_PARSE_OK /\ stderr r.2 = [] /\ mem r.2 = m.
Proof. by simpl. Qed.

(** C9 (the code at the failing input). The empty value text is taken
    for the number 0: nothing is converted, [strtoul] leaves its end
    pointer on the terminator, and neither test of [process_uint_arg]
    fires. *)
Theorem uint_empty_text_accepted d p n st :
  process_uint_arg d p n "" st =
    (true, poke (opt_storage d) (CULong 0) st).
Proof.
  unfold process_uint_arg, strtoul. simpl. by rewrite andb_false_r.
Qed.

(** ** Matching a long name *)

Lemma prefix_cons c r e l :
  String.prefix (String c r) (String e l) =
  if Ascii.eqb c e then String.prefix r l else false.
Proof.
  change (String.prefix (String c r) (String e l))
    with (if ascii_dec c e then String.prefix r l else false).
  destruct (ascii_dec c e) as [->|Hne].
  - by rewrite Ascii.eqb_refl.
  - by destruct (Ascii.eqb_spec c e).
Qed.

Lemma strncmp_eq_prefix name rest l :
  strncmp_eq (name +:+ rest) l (String.length name) = String.prefix name l.
Proof.
  revert l. induction name as [|c r IH]; intros l.
  - by destruct l.
  - destruct l as [|e l']; [done|]. rewrite prefix_cons. simpl.
    by rewrite IH.
Qed.

Lemma long_search_find tbl name rest :
  long_search tbl (name +:+ rest) (String.length name) =
  List.find (long_name_begins name) (entries tbl).
Proof.
  induction tbl as [|d tbl IH]; simpl; [done|].
  destruct (is_last d); [done|]. simpl. unfold long_name_begins at 1.
  destruct (long_name d) as [l|]; [|done].
  rewrite strncmp_eq_prefix. by destruct (String.prefix name l).
Qed.

Lemma prefix_append a b : String.prefix a (a +:+ b) = true.
Proof.
  induction a as [|c a IH]; [by destruct b|].
  change (String c a +:+ b) with (String c (a +:+ b)).
  by rewrite prefix_cons, Ascii.eqb_refl.
Qed.

(** The shape of [long_opt] on a token [--name] or [--name=value]. *)
Lemma long_option_shape name value st i args :
  chars_all not_equals_sign name = true ->
  long_opt args i (long_token name value) st =
    (if String.eqb (long_token name value) "--help" then
       if show_version st then st else set_help st
     else if String.eqb (long_token name value) "--version" then
       if show_help st then st else set_version st
     else
       match List.find (long_name_begins name) (entries (opt_desc args)) with
       | Some d => long_matched d i value st
       | None =>
           set_error (print_error (MsgUnrecLong (long_token name value)) st)
       end).
Proof.
  intros Hname. unfold long_opt.
  destruct (String.eqb (long_token name value) "--help"); [done|].
  destruct (String.eqb (long_token name value) "--version"); [done|].
  change (tail_from 2 (long_token name value))
    with (name +:+ match value with
                   | Some v => String "=" v
                   | None => ""
                   end).
  assert (name_len (name +:+ match value with
                             | Some v => String "=" v
                             | None => ""
                             end) = String.length name
          /\ inline_arg (name +:+ match value with
                                  | Some v => String "=" v
                                  | None => ""
                                  end) = value) as [-> ->].
  { destruct value as [v|].
    - by rewrite name_len_split, inline_arg_split.
    - replace (name +:+ "") with name; [by apply name_len_plain|].
      clear. induction name as [|c r IH]; [done|].
      change (String c r +:+ "") with (String c (r +:+ "")).
      by rewrite <- IH. }
  by rewrite long_search_find.
Qed.

(** C4. Once the exact comparisons with [--help] and [--version] have
    failed, a token [--name] or [--name=value] is handled by the first
    descriptor, in table order, whose long name is present and begins with
    the characters of the candidate name; there is none exactly when the
    option is reported as unrecognized.  A candidate that is only the
    beginning of a long name matches in the same way. *)
Theorem long_option_prefix_match args i name value st :
  chars_all not_equals_sign name = true ->
  long_opt args i (long_token name value) st =
    (if String.eqb (long_token name value) "--help" then
       if show_version st then st else set_help st
     else if String.eqb (long_token name value) "--version" then
       if show_help st then st else set_version st
     else
       match List.find (long_name_begins name) (entries (opt_desc args)) with
       | Some d => long_matched d i value st
       | None =>
           set_error (print_error (MsgUnrecLong (long_token name value)) st)
       end)
  /\ forall d more,
       long_name d = Some (name +:+ more) -> long_name_begins name d = true.
Proof.
  intros Hname. split; [by apply long_option_shape|].
  intros d more Hd. unfold long_name_begins. rewrite Hd.
  apply prefix_append.
Qed.

(** ** Compaction *)

Lemma kept_S a p k :
  kept a p (S k) =
  match a !! p with
  | Some (Some t) => t :: kept a (S p) k
  | _ => kept a (S p) k
  end.
Proof.
  unfold kept. destruct (a !! p) as [x|] eqn:E.
  - rewrite (drop_S _ _ _ E). simpl. by destruct x.
  - apply lookup_ge_None in E.
    rewrite !drop_ge by lia. by rewrite !take_nil.
Qed.

Lemma kept_none a p k :
  (forall q, p <= q < p + k -> null_at a q) -> kept a p k = [].
Proof.
  revert p. induction k as [|k IH]; intros p H; [done|].
  rewrite kept_S.
  destruct (H p ltac:(lia)) as [-> | ->]; apply IH; intros; apply H; lia.
Qed.

Lemma kept_ext a b p k :
  (forall q, p <= q < p + k -> a !! q = b !! q) -> kept a p k = kept b p k.
Proof.
  revert p. induction k as [|k IH]; intros p H; [done|].
  rewrite !kept_S, (H p) by lia. rewrite (IH (S p)); [done|].
  intros; apply H; lia.
Qed.

Lemma kept_skip a p k q :
  p <= q <= p + k -> (forall q', p <= q' < q -> null_at a q') ->
  kept a p k = kept a q (p + k - q).
Proof.
  revert p. induction k as [|k IH]; intros p Hq H.
  - replace q with p by lia. by replace (p + 0 - p) with 0 by lia.
  - destruct (decide (q = p)) as [->|Hne].
    { by replace (p + S k - p) with (S k) by lia. }
    rewrite kept_S.
    replace (p + S k - q) with (S p + k - q) by lia.
    destruct (H p ltac:(lia)) as [-> | ->]; apply IH; try lia;
      intros; apply H; lia.
Qed.

Lemma pull_spec a fill p n :
  ((forall q, p <= q < p + n -> null_at a q) /\ pull a fill p n = a) \/
  exists q t, p <= q < p + n /\ a !! q = Some (Some t) /\
    (forall q', p <= q' < q -> null_at a q') /\
    pull a fill p n = <[q := None]> (<[fill := Some t]> a).
Proof.
  revert p. induction n as [|n IH]; intros p; simpl.
  { left. split; [intros; lia | done]. }
  destruct (a !! p) as [[t|]|] eqn:E.
  - right. exists p, t. split_and!; [lia | lia | done | intros; lia | done].
  - destruct (IH (S p)) as [[H ->] | (q & t & Hq & Ht & Hn & ->)].
    + left. split; [|done]. intros q Hq.
      destruct (decide (q = p)) as [->|]; [by left | apply H; lia].
    + right. exists q, t. split_and!; [lia | lia | done | | done].
      intros q' Hq'.
      destruct (decide (q' = p)) as [->|]; [by left | apply Hn; lia].
  - destruct (IH (S p)) as [[H ->] | (q & t & Hq & Ht & Hn & ->)].
    + left. split; [|done]. intros q Hq.
      destruct (decide (q = p)) as [->|]; [by right | apply H; lia].
    + right. exists q, t. split_and!; [lia | lia | done | | done].
      intros q' Hq'.
      destruct (decide (q' = p)) as [->|]; [by right | apply Hn; lia].
Qed.

(** The outer loop packs the strings of its range, in order, right after
    the entries below [fill], and returns their count. *)
Lemma deflate_loop_spec k fill a :
  fill + k <= length a ->
  (deflate_loop k fill a).2 = fill + length (kept a fill k) /\
  take (deflate_loop k fill a).2 (deflate_loop k fill a).1 =
    take fill a ++ (Some <$> kept a fill k).
Proof.
  revert fill a. induction k as [|k IH]; intros fill a Hlen.
  { simpl. rewrite Nat.add_0_r, app_nil_r. done. }
  destruct (lookup_lt_is_Some_2 a fill ltac:(lia)) as [x Hx].
  rewrite kept_S. simpl deflate_loop. rewrite Hx.
  destruct x as [t|].
  - rewrite Hx. destruct (IH (S fill) a ltac:(lia)) as [-> ->].
    rewrite (take_S_r _ _ _ Hx), <- app_assoc. simpl. split; [lia|done].
  - destruct (pull_spec a fill (S fill) k)
      as [[Hn ->] | (q & t & Hq & Ht & Hn & ->)].
    + rewrite Hx. simpl. rewrite (kept_none a (S fill) k Hn). simpl.
      rewrite Nat.add_0_r, app_nil_r. done.
    + set (a1 := <[q := None]> (<[fill := Some t]> a)).
      assert (a1 !! fill = Some (Some t)) as H1.
      { subst a1. rewrite list_lookup_insert_ne by lia.
        apply list_lookup_insert_eq. lia. }
      rewrite H1.
      assert (length a1 = length a) as Hl1.
      { subst a1. by rewrite !length_insert. }
      destruct (IH (S fill) a1 ltac:(lia)) as [-> ->].
      assert (kept a (S fill) k = t :: kept a1 (S fill) k) as ->.
      { rewrite (kept_skip a (S fill) k q) by (try lia; done).
        replace (S fill + k - q) with (S (fill + k - q)) by lia.
        rewrite kept_S, Ht. f_equal.
        rewrite (kept_skip a1 (S fill) k (S q)); [ | lia | ].
        - replace (S fill + k - S q) with (fill + k - q) by lia.
          apply kept_ext. intros q' Hq'. subst a1.
          rewrite !list_lookup_insert_ne by lia. done.
        - intros q' Hq'. unfold null_at. subst a1.
          destruct (decide (q' = q)) as [->|Hne].
          + left. apply list_lookup_insert_eq. rewrite length_insert.
            apply lookup_lt_Some in Ht. done.
          + rewrite !list_lookup_insert_ne by lia. apply Hn. lia. }
      rewrite (take_S_r _ _ _ H1), <- app_assoc. simpl.
      split; [lia|]. f_equal. subst a1.
      rewrite take_insert_ge by lia. by rewrite take_insert_ge by lia.
Qed.

(** Overwriting entries with NULL leaves the strings of the rest, in
    order. *)
Lemma nulled_sublist (a b : list (option string)) :
  length b = length a ->
  (forall j, b !! j = a !! j \/ b !! j = Some None) ->
  omap id b `sublist_of` omap id a.
Proof.
  revert b. induction a as [|x a IH]; intros [|y b] Hl H; try done.
  assert (omap id b `sublist_of` omap id a) as Ht.
  { apply IH; [simpl in Hl; lia|]. intros j. apply (H (S j)). }
  destruct (H 0) as [E|E]; simpl in E; simplify_eq.
  - destruct x; simpl; [by apply sublist_skip | done].
  - destruct x; simpl; [by apply sublist_cons | done].
Qed.

Lemma omap_id_Some (l : list string) : omap id (Some <$> l) = l.
Proof. induction l as [|x l IH]; [done|]. cbn. by f_equal. Qed.

Lemma scan_frame args n a m :
  let s := scan args (entry n a m) in
  nulled_from 1 a (argv s) /\ argc s = n.
Proof.
  destruct (opt_step_scan_loop args (n - 1) 1 (entry n a m))
    as (H & Hc & _). done.
Qed.


(** ** The same work over another command line *)


Lemma recmd_recmd a n a' n' st : recmd a n (recmd a' n' st) = recmd a n st.
Proof. done. Qed.

Lemma entry_recmd n a m : entry n a m = recmd a n (entry 0 [] m).
Proof. done. Qed.

Lemma blind_compose f g : blind f -> blind g -> blind (fun st => g (f st)).
Proof.
  intros Hf Hg a n st. destruct (Hf a n st) as [-> E1].
  destruct (Hg a n (f st)) as [-> E2]. split; [done | congruence].
Qed.

Lemma blind_id : blind (fun st => st).
Proof. by intros a n st. Qed.

Lemma blind_poke p v : blind (poke p v).
Proof. by intros a n st. Qed.

Lemma blind_mark_found d : blind (mark_found d).
Proof. intros a n st. unfold mark_found. by destruct (opt_found d). Qed.

Lemma blind_error m : blind (fun st => set_error (print_error m st)).
Proof. by intros a n st. Qed.

Lemma blind_set_help :
  blind (fun st => if show_version st then st else set_help st).
Proof. intros a n st. simpl. by destruct (show_version st). Qed.

Lemma blind_set_version :
  blind (fun st => if show_help st then st else set_version st).
Proof. intros a n st. simpl. by destruct (show_help st). Qed.

Lemma blind_process_opt_arg d l x :
  blind (fun st => flag_failure (process_opt_arg d l x st)).
Proof.
  intros a n st. unfold_conv. unfold recmd, set_argc, set_argv. simpl.
  repeat (case_match; simpl in * ); simplify_eq; done.
Qed.

Lemma blind_run_callback d o p x :
  blind (fun st => flag_failure (run_callback d o p x st)).
Proof.
  intros a n st. unfold_conv. unfold recmd, set_argc, set_argv. simpl.
  repeat (case_match; simpl in * ); simplify_eq; done.
Qed.

Lemma take_arg_recmd i a n st :
  take_arg i (recmd a n st) =
  match pick a i n with
  | Some (t, j) => Some (t, recmd (<[j := None]> a) n st)
  | None => None
  end.
Proof.
  unfold take_arg, pick. simpl.
  destruct (next_arg a (S i) (n - S i)) as [j|]; [|done].
  by destruct (a !! j) as [[t|]|].
Qed.

Lemma valued_recmd d l msg i a n st :
  valued d l msg i (recmd a n st) =
  match pick a i n with
  | Some (t, j) =>
      recmd (<[j := None]> a) n (flag_failure (process_opt_arg d l t st))
  | None => recmd a n (set_error (print_error msg st))
  end.
Proof.
  unfold valued. rewrite take_arg_recmd.
  destruct (pick a i n) as [[t j]|]; [|done].
  by destruct (blind_process_opt_arg d l t (<[j := None]> a) n st).
Qed.

Lemma short_matched_valued d i st :
  takes_argument (type d) = true ->
  short_matched d i st =
  valued d false (MsgMissingShort (default "" (short_name d))) i
    (mark_found d st).
Proof. unfold short_matched, valued. by destruct (type d). Qed.

Lemma long_matched_valued d i st :
  takes_argument (type d) = true ->
  long_matched d i None st =
  valued d true (MsgMissingLong (default "" (long_name d))) i
    (mark_found d st).
Proof. unfold long_matched, valued. by destruct (type d). Qed.

(** Without an argument word to fetch, the routines are blind. *)
Lemma blind_short_plain d i :
  takes_argument (type d) = false -> blind (short_matched d i).
Proof.
  intros H a n st. unfold short_matched.
  destruct (blind_mark_found d a n st) as [-> E].
  destruct (type d); try done.
  destruct (blind_run_callback d None "-" (default "" (short_name d))
              a n (mark_found d st)) as [-> ->]. done.
Qed.

Lemma blind_long_plain d i o :
  takes_argument (type d) = false \/ is_Some o ->
  blind (long_matched d i o).
Proof.
  intros H a n st. unfold long_matched.
  destruct (blind_mark_found d a n st) as [-> E].
  destruct o as [x|].
  - destruct (blind_process_opt_arg d true x a n (mark_found d st))
      as [E1 E2].
    destruct (type d); simpl; rewrite ?E1, ?E2; done.
  - destruct H as [H|[? ?]]; [|done].
    destruct (type d); try done.
    destruct (blind_run_callback d None "--" (default "" (long_name d))
                a n (mark_found d st)) as [-> ->]. done.
Qed.

(** ** Scanning up to the end-of-options marker *)

Lemma only_nulled_refl a : only_nulled a a.
Proof. intros j; auto. Qed.

Lemma only_nulled_trans a b c :
  only_nulled a b -> only_nulled b c -> only_nulled a c.
Proof.
  intros H1 H2 j. destruct (H2 j) as [->|]; auto.
Qed.

Lemma only_nulled_insert (a : list (option string)) j :
  only_nulled a (<[j := None]> a).
Proof.
  intros i. destruct (decide (i = j)) as [->|Hne].
  - destruct (decide (j < length a)).
    + right. by rewrite list_lookup_insert_eq.
    + left. rewrite list_insert_ge; [done|lia].
  - left. by rewrite list_lookup_insert_ne.
Qed.

Lemma tail_step_blind k e f : blind f -> tail_step k e f.
Proof.
  intros Hf a c Ha. exists a, (f c).
  destruct (Hf a (S k) c) as [-> E].
  destruct (Hf (a ++ e) (S k + length e) c) as [-> _].
  split_and!; auto using only_nulled_refl.
Qed.

Lemma tail_step_compose k e f g :
  tail_step k e f -> tail_step k e g -> tail_step k e (fun st => g (f st)).
Proof.
  intros Hf Hg a c Ha.
  destruct (Hf a c Ha) as (a1 & c1 & -> & -> & Ha1 & Hn1 & Hs1).
  destruct (Hg a1 c1 Ha1) as (a2 & c2 & -> & -> & Ha2 & Hn2 & Hs2).
  exists a2, c2. split_and!; eauto using only_nulled_trans; congruence.
Qed.

Lemma tail_step_ext k e f g :
  (forall st, f st = g st) -> tail_step k e g -> tail_step k e f.
Proof.
  intros E Hg a c Ha. rewrite !E. by apply Hg.
Qed.

Lemma next_arg_tail k (a e : list (option string)) n i :
  tail_ok k a -> i + n = k ->
  next_arg (a ++ e) i (S n + length e) = next_arg a i (S n) /\
  forall j, next_arg a i (S n) = Some j -> j < k.
Proof.
  intros [Hl Hk]. revert i. induction n as [|n IH]; intros i Hi.
  - replace i with k by lia. simpl.
    rewrite lookup_app_l by lia. rewrite Hk. simpl. done.
  - assert (i < length a) as Hlt by lia.
    change (next_arg (a ++ e) i (S (S n) + length e))
      with (match (a ++ e) !! i with
            | Some (Some t) => if String.eqb t "--" then None else Some i
            | _ => next_arg (a ++ e) (S i) (S n + length e)
            end).
    change (next_arg a i (S (S n)))
      with (match a !! i with
            | Some (Some t) => if String.eqb t "--" then None else Some i
            | _ => next_arg a (S i) (S n)
            end).
    rewrite lookup_app_l by done.
    destruct (IH (S i) ltac:(lia)) as [-> Hj].
    split; [done|]. intros j.
    destruct (a !! i) as [[t|]|]; try apply Hj.
    destruct (String.eqb t "--"); [done|]. intros [= <-]. lia.
Qed.

Lemma pick_tail k (a e : list (option string)) i :
  tail_ok k a -> i < k ->
  pick (a ++ e) i (S k + length e) = pick a i (S k) /\
  forall t j, pick a i (S k) = Some (t, j) -> j < k.
Proof.
  intros Ha Hi. unfold pick.
  replace (S k + length e - S i) with (S (k - S i) + length e) by lia.
  replace (S k - S i) with (S (k - S i)) by lia.
  destruct (next_arg_tail k a e (k - S i) (S i) Ha ltac:(lia)) as [-> Hj].
  destruct (next_arg a (S i) (S (k - S i))) as [j|]; [|done].
  specialize (Hj j eq_refl). destruct Ha as [Hl Hk].
  rewrite lookup_app_l by lia. split; [done|].
  intros t j'. destruct (a !! j) as [[t'|]|]; try done. by intros [= <- <-].
Qed.

Lemma tail_ok_insert k a j :
  tail_ok k a -> j < k -> tail_ok k (<[j := None]> a).
Proof.
  intros [Hl Hk] Hj. split; [by rewrite length_insert|].
  rewrite list_lookup_insert_ne by lia. done.
Qed.

Lemma tail_step_valued k e d l msg i :
  i < k -> tail_step k e (valued d l msg i).
Proof.
  intros Hi a c Ha. rewrite !valued_recmd.
  destruct (pick_tail k a e i Ha Hi) as [-> Hj].
  destruct (pick a i (S k)) as [[t j]|].
  - specialize (Hj t j eq_refl).
    exists (<[j := None]> a), (flag_failure (process_opt_arg d l t c)).
    destruct (blind_process_opt_arg d l t a (S k) c) as [_ Hs].
    split_and!; auto using tail_ok_insert, only_nulled_insert.
    rewrite insert_app_l; [done|]. destruct Ha. lia.
  - exists a, (set_error (print_error msg c)).
    split_and!; auto using only_nulled_refl.
Qed.

Lemma tail_step_short_matched k e d i :
  i < k -> tail_step k e (short_matched d i).
Proof.
  intros Hi. destruct (takes_argument (type d)) eqn:E.
  - eapply tail_step_ext; [intros st; by apply short_matched_valued|].
    apply (tail_step_compose _ _ (mark_found d)
             (valued d false _ i)).
    + apply tail_step_blind, blind_mark_found.
    + by apply tail_step_valued.
  - by apply tail_step_blind, blind_short_plain.
Qed.

Lemma tail_step_long_matched k e d i o :
  i < k -> tail_step k e (long_matched d i o).
Proof.
  intros Hi. destruct o as [x|].
  { apply tail_step_blind, blind_long_plain. right. by eexists. }
  destruct (takes_argument (type d)) eqn:E.
  - eapply tail_step_ext; [intros st; by apply long_matched_valued|].
    apply (tail_step_compose _ _ (mark_found d)
             (valued d true _ i)).
    + apply tail_step_blind, blind_mark_found.
    + by apply tail_step_valued.
  - apply tail_step_blind, blind_long_plain. by left.
Qed.

Lemma tail_step_long_opt k e args i token :
  i < k -> tail_step k e (long_opt args i token).
Proof.
  intros Hi. unfold long_opt.
  destruct (String.eqb token "--help").
  { apply tail_step_blind, blind_set_help. }
  destruct (String.eqb token "--version").
  { apply tail_step_blind, blind_set_version. }
  destruct (long_search _ _ _).
  - by apply tail_step_long_matched.
  - apply tail_step_blind, blind_error.
Qed.

Lemma tail_step_short_char k e args i ch :
  i < k -> tail_step k e (short_char args i ch).
Proof.
  intros Hi. unfold short_char.
  destruct (Ascii.eqb ch "h").
  { apply tail_step_blind, blind_set_help. }
  destruct (Ascii.eqb ch "V").
  { apply tail_step_blind, blind_set_version. }
  destruct (short_search _ _).
  - by apply tail_step_short_matched.
  - apply tail_step_blind, blind_error.
Qed.

Lemma tail_step_short_loop k e args i chars :
  i < k -> tail_step k e (short_loop args i chars).
Proof.
  intros Hi. induction chars as [|ch r IH]; simpl.
  - apply tail_step_blind, blind_id.
  - apply (tail_step_compose _ _ (short_char args i ch)
             (short_loop args i r)); [by apply tail_step_short_char | done].
Qed.

(** The three character tests of the scanning loop single out the
    marker. *)
Lemma marker_tests token :
  Ascii.eqb (first_char token) "-" = true ->
  Ascii.eqb (first_char (tail_from 1 token)) "-" = true ->
  at_end (tail_from 2 token) = true -> token = "--".
Proof.
  destruct token as [|c1 [|c2 [|c3 r]]]; simpl; try done.
  by intros ->%Ascii.eqb_eq ->%Ascii.eqb_eq _.
Qed.

Lemma scan_step_unfold args i st :
  scan_step args i st =
  match argv st !! i with
  | Some (Some token) =>
      if Ascii.eqb (first_char token) "-" then
        set_argv (<[i := None]> (argv (dash_token args i token st)))
          (dash_token args i token st)
      else st
  | _ => st
  end.
Proof.
  unfold scan_step, dash_token, process_long_opt, process_short_opts.
  destruct (argv st !! i) as [[token|]|]; done.
Qed.

Lemma tail_step_dash_token k e args i token :
  i < k -> token <> "--" ->
  Ascii.eqb (first_char token) "-" = true ->
  tail_step k e (dash_token args i token).
Proof.
  intros Hi Hne H1. unfold dash_token.
  destruct (Ascii.eqb (first_char (tail_from 1 token)) "-") eqn:H2.
  - destruct (at_end (tail_from 2 token)) eqn:H3.
    + by destruct Hne; apply marker_tests.
    + by apply tail_step_long_opt.
  - by apply tail_step_short_loop.
Qed.

Lemma scan_step_tail k e args i a c :
  tail_ok k a -> i < k -> a !! i <> Some (Some "--") ->
  exists a' c',
    scan_step args i (recmd a (S k) c) = recmd a' (S k) c' /\
    scan_step args i (recmd (a ++ e) (S k + length e) c) =
      recmd (a' ++ e) (S k + length e) c' /\
    tail_ok k a' /\ only_nulled a a' /\
    stopper_reached c' = stopper_reached c.
Proof.
  intros Ha Hi Hne. rewrite !scan_step_unfold.
  change (argv (recmd a (S k) c)) with a.
  change (argv (recmd (a ++ e) (S k + length e) c)) with (a ++ e).
  rewrite lookup_app_l by (destruct Ha; lia).
  assert (exists a' c',
            recmd a (S k) c = recmd a' (S k) c' /\
            recmd (a ++ e) (S k + length e) c =
              recmd (a' ++ e) (S k + length e) c' /\
            tail_ok k a' /\ only_nulled a a' /\
            stopper_reached c' = stopper_reached c) as Hsame.
  { exists a. exists c. split_and!; auto using only_nulled_refl. }
  destruct (a !! i) as [[token|]|] eqn:E; try exact Hsame.
  destruct (Ascii.eqb (first_char token) "-") eqn:H1; [|exact Hsame].
  clear Hsame.
  assert (token <> "--") as Hm by congruence.
  destruct (tail_step_dash_token k e args i token Hi Hm H1 a c Ha)
    as (a1 & c1 & -> & -> & Ha1 & Hn1 & Hs1).
  exists (<[i := None]> a1). exists c1.
  change (argv (recmd a1 (S k) c1)) with a1.
  change (argv (recmd (a1 ++ e) (S k + length e) c1)) with (a1 ++ e).
  split_and!; auto using tail_ok_insert.
  - rewrite insert_app_l; [done|]. destruct Ha1. lia.
  - eapply only_nulled_trans; [exact Hn1 | apply only_nulled_insert].
Qed.

Lemma scan_step_marker args k a n c :
  a !! k = Some (Some "--") ->
  scan_step args k (recmd a n c) = recmd (<[k := None]> a) n (set_stopper c).
Proof. intros H. rewrite scan_step_unfold. simpl. by rewrite H. Qed.

Lemma scan_loop_stopped args n i st :
  stopper_reached st = true -> scan_loop args n i st = st.
Proof. intros H. destruct n; simpl; [done | by rewrite H]. Qed.

(** The scanning loop stops at the marker, overwrites it, and does the
    same whatever follows it. *)
Lemma scan_loop_tail k e args n i a c :
  i + n = k -> tail_ok k a -> stopper_reached c = false ->
  (forall j, i <= j < k -> a !! j <> Some (Some "--")) ->
  exists a' c',
    scan_loop args (S n) i (recmd a (S k) c) = recmd a' (S k) c' /\
    scan_loop args (S n + length e) i (recmd (a ++ e) (S k + length e) c) =
      recmd (a' ++ e) (S k + length e) c' /\
    length a' = S k /\ a' !! k = Some None /\ only_nulled a a' /\
    stopper_reached c' = true.
Proof.
  revert i a c. induction n as [|n IH]; intros i a c Hi Ha Hs Hno.
  - replace i with k by lia. destruct Ha as [Hl Hk].
    exists (<[k := None]> a), (set_stopper c).
    change (scan_loop args 1 k (recmd a (S k) c))
      with (if stopper_reached c then recmd a (S k) c
            else scan_step args k (recmd a (S k) c)).
    change (scan_loop args (1 + length e) k
              (recmd (a ++ e) (S k + length e) c))
      with (if stopper_reached c then recmd (a ++ e) (S k + length e) c
            else scan_loop args (length e) (S k)
                   (scan_step args k (recmd (a ++ e) (S k + length e) c))).
    rewrite Hs, !scan_step_marker by (by rewrite ?lookup_app_l by lia).
    rewrite scan_loop_stopped by done.
    split_and!; auto using only_nulled_insert.
    + rewrite insert_app_l; [done|lia].
    + by rewrite length_insert.
    + apply list_lookup_insert_eq. lia.
  - change (scan_loop args (S (S n)) i (recmd a (S k) c))
      with (if stopper_reached c then recmd a (S k) c
            else scan_loop args (S n) (S i)
                   (scan_step args i (recmd a (S k) c))).
    change (scan_loop args (S (S n) + length e) i
              (recmd (a ++ e) (S k + length e) c))
      with (if stopper_reached c then recmd (a ++ e) (S k + length e) c
            else scan_loop args (S n + length e) (S i)
                   (scan_step args i (recmd (a ++ e) (S k + length e) c))).
    rewrite Hs.
    destruct (scan_step_tail k e args i a c Ha ltac:(lia)
                (Hno i ltac:(lia)))
      as (a1 & c1 & -> & -> & Ha1 & Hn1 & Hs1).
    destruct (IH (S i) a1 c1 ltac:(lia) Ha1 ltac:(congruence))
      as (a2 & c2 & -> & -> & Hl2 & Hk2 & Hn2 & Hs2).
    { intros j Hj. destruct (Hn1 j) as [-> | ->]; [apply Hno; lia | done]. }
    exists a2, c2. split_and!; eauto using only_nulled_trans.
Qed.

Lemma deflate_remaining st :
  1 + (argc st - 1) <= length (argv st) ->
  remaining (deflate_args_list st) =
    take 1 (argv st) ++ (Some <$> kept (argv st) 1 (argc st - 1)).
Proof.
  intros H. destruct (deflate_loop_spec _ _ _ H) as [_ Ht].
  unfold deflate_args_list, remaining.
  by destruct (deflate_loop (argc st - 1) 1 (argv st)).
Qed.

Lemma deflate_recmd a n c :
  let r := deflate_args_list (recmd a n c) in
  mem r = mem c /\ stderr r = stderr c /\ show_help r = show_help c /\
  show_version r = show_version c /\ errors_found r = errors_found c /\
  stopper_reached r = stopper_reached c /\ outcome r = outcome c.
Proof.
  unfold deflate_args_list, outcome. simpl.
  by destruct (deflate_loop (n - 1) 1 a).
Qed.

(** C1 (amended). When the command line has a first [--] token, the scan
    stops there.  The tokens after it are the tail of what the caller gets
    back, unchanged and in order; in front of them stands the program
    name and what is left of the tokens before the marker.  The marker
    itself is overwritten like an option and is not given back.  Storage,
    flags, error lines and outcome are those of the command line cut off
    after the marker: what follows it is never taken for an option. *)
Theorem end_marker_stops_scan args prog pre post m :
  "--" ∉ pre ->
  let full :=
    dooshki_args_parse args (command_line (prog :: pre ++ "--" :: post) m) in
  let cut :=
    dooshki_args_parse args (command_line (prog :: pre ++ ["--"]) m) in
  stopper_reached full.2 = true
  /\ (exists left_over,
        left_over `sublist_of` pre /\
        remaining full.2 = Some <$> (prog :: left_over ++ post))
  /\ full.1 = cut.1 /\ mem full.2 = mem cut.2
  /\ stderr full.2 = stderr cut.2
  /\ show_help full.2 = show_help cut.2
  /\ show_version full.2 = show_version cut.2
  /\ errors_found full.2 = errors_found cut.2.
Proof.
  intros Hpre full cut.
  set (k := S (length pre)).
  set (a := Some <$> (prog :: pre ++ ["--"])).
  set (e := Some <$> post).
  assert (tail_ok k a) as Ha.
  { split.
    - subst a k. rewrite length_fmap. simpl. rewrite length_app. simpl. lia.
    - subst a k. rewrite list_lookup_fmap. simpl.
      rewrite lookup_app_r by done. by rewrite Nat.sub_diag. }
  assert (forall j, 1 <= j < k -> a !! j <> Some (Some "--")) as Hno.
  { intros j Hj E. subst a k. rewrite list_lookup_fmap in E.
    destruct j as [|j]; [lia|]. simpl in E.
    rewrite lookup_app_l in E by lia.
    destruct (pre !! j) as [t|] eqn:Et; simplify_eq/=.
    apply Hpre. by eapply list_elem_of_lookup_2. }
  destruct (scan_loop_tail k e args (length pre) 1 a (entry 0 [] m)
              eq_refl Ha eq_refl Hno)
    as (a' & c' & Ecut & Efull & Hl & Hk & Hn & Hs).
  assert (length (prog :: pre ++ ["--"]) = S k) as Lcut.
  { subst k. rewrite length_cons, length_app. simpl. lia. }
  assert (length (prog :: pre ++ "--" :: post) = S k + length e) as Lfull.
  { subst k e. rewrite length_cons, length_app, length_fmap. simpl. lia. }
  assert (scan args (command_line (prog :: pre ++ ["--"]) m) =
          recmd a' (S k) c') as Scut.
  { rewrite <- Ecut. unfold scan, command_line. cbn [argc entry].
    rewrite Lcut. replace (S k - 1) with (S (length pre)) by (subst k; lia).
    done. }
  assert (scan args (command_line (prog :: pre ++ "--" :: post) m) =
          recmd (a' ++ e) (S k + length e) c') as Sfull.
  { rewrite <- Efull. unfold scan, command_line. cbn [argc entry].
    rewrite Lfull.
    replace (S k + length e - 1) with (S (length pre) + length e)
      by (subst k; lia).
    replace (Some <$> prog :: pre ++ "--" :: post) with (a ++ e); [done|].
    subst a e. rewrite <- fmap_app. f_equal.
    simpl. by rewrite <- app_assoc. }
  assert (nulled_from 1 a a') as Hfrom.
  { destruct (opt_step_scan_loop args (S (length pre)) 1
                (recmd a (S k) (entry 0 [] m))) as (H & _).
    by rewrite Ecut in H. }
  destruct (deflate_recmd (a' ++ e) (S k + length e) c')
    as (Fm & Fe & Fh & Fv & Fr & Fs & Fo).
  destruct (deflate_recmd a' (S k) c')
    as (Cm & Ce & Ch & Cv & Cr & Cs & Co).
  subst full cut. unfold dooshki_args_parse. simpl.
  rewrite Sfull, Scut.
  split_and!; try congruence.
  exists (omap id (drop 1 (take k a'))). split.
  - replace pre with (omap id (drop 1 (take k a))).
    2:{ subst a k. rewrite fmap_cons, fmap_app.
        change (take (S (length pre))
                  (Some prog :: (Some <$> pre) ++ (Some <$> ["--"])))
          with (Some prog ::
                  take (length pre) ((Some <$> pre) ++ (Some <$> ["--"]))).
        rewrite take_app_length' by (by rewrite length_fmap).
        simpl. rewrite drop_0. apply omap_id_Some. }
    destruct Hfrom as [_ Hfrom].
    apply nulled_sublist.
    + rewrite !length_drop, !length_take. destruct Ha. lia.
    + intros j. rewrite !lookup_drop.
      destruct (decide (1 + j < k)).
      * rewrite !lookup_take_lt by done. apply Hfrom.
      * left. by rewrite !lookup_take_ge by lia.
  - set (mid := drop 1 (take k a')).
    assert (a' = Some prog :: mid ++ [None]) as Ea.
    { rewrite <- (take_drop k a') at 1.
      assert (drop k a' = [None]) as ->.
      { apply list_eq. intros [|j].
        - by rewrite lookup_drop, Nat.add_0_r.
        - rewrite lookup_drop. simpl. apply lookup_ge_None. lia. }
      assert (take k a' !! 0 = Some (Some prog)) as H0.
      { rewrite lookup_take_lt by (subst k; lia).
        destruct Hfrom as [_ Hfrom]. destruct (Hfrom 0) as [H _].
        by rewrite H by lia. }
      subst mid. destruct (take k a') as [|x l]; simplify_eq/=.
      by rewrite drop_0. }
    assert (length mid = length pre) as Hm.
    { rewrite Ea in Hl. rewrite length_cons, length_app in Hl.
      simpl in Hl. subst k. lia. }
    rewrite deflate_remaining
      by (cbn [argv argc recmd set_argc set_argv]; rewrite length_app; lia).
    cbn [argv argc recmd set_argc set_argv]. unfold kept.
    rewrite Ea. cbn [app take drop]. rewrite ?drop_0, ?take_0.
    assert (take (S k + length e - 1) ((mid ++ [None]) ++ e) =
            (mid ++ [None]) ++ e) as ->.
    { apply take_ge. rewrite !length_app. simpl. subst k. lia. }
    rewrite !omap_app. subst e. rewrite omap_id_Some. simpl.
    by rewrite app_nil_r.
Qed.

(** ** The found flag *)

Lemma short_search_find tbl c :
  short_search tbl c = List.find (short_name_is c) (entries tbl).
Proof.
  induction tbl as [|d tbl IH]; simpl; [done|].
  destruct (is_last d); [done|]. simpl. unfold short_name_is at 1.
  destruct (short_name d) as [s|]; [|done].
  by destruct (Ascii.eqb c (first_char s)).
Qed.

Lemma find_elem_of (f : dooshki_opt -> bool) l d :
  List.find f l = Some d -> d ∈ l.
Proof.
  induction l as [|x l IH]; simpl; [done|].
  destruct (f x); [intros [= ->]; left | intros H; right; auto].
Qed.

Lemma flag_set_poke p q v st :
  q <> p -> flag_set p st -> flag_set p (poke q v st).
Proof. unfold flag_set. simpl. intros H. by rewrite lookup_insert_ne. Qed.

Lemma flag_set_mark_found p d st :
  flag_set p st -> flag_set p (mark_found d st).
Proof.
  unfold mark_found, flag_set. destruct (opt_found d) as [q|]; [|done].
  simpl. destruct (decide (q = p)) as [->|Hne].
  - by rewrite lookup_insert_eq.
  - by rewrite lookup_insert_ne.
Qed.

Lemma flag_set_marked p d st :
  opt_found d = Some p -> flag_set p (mark_found d st).
Proof.
  unfold mark_found, flag_set. intros ->. simpl. apply lookup_insert_eq.
Qed.

Lemma flag_set_run_callback p d o x y st :
  keeps_flag p d -> flag_set p st ->
  flag_set p (flag_failure (run_callback d o x y st)).
Proof.
  intros [_ Hcb] Hp. specialize (Hcb o x y (mem st) Hp).
  unfold flag_set, flag_failure, run_callback in *.
  destruct (callback d o _ x y _ (mem st)) as [[] m']; done.
Qed.

Lemma flag_set_process_opt_arg p d l x st :
  keeps_flag p d -> flag_set p st ->
  flag_set p (flag_failure (process_opt_arg d l x st)).
Proof.
  intros Hk Hp. unfold process_opt_arg.
  destruct (type d); try done;
    try (by apply flag_set_run_callback);
    unfold flag_set in *; destruct Hk as [Hne _];
    unfold_conv; repeat (case_match; simpl in * ); simplify_eq;
    by rewrite lookup_insert_ne.
Qed.

Lemma flag_set_valued p d l msg i st :
  keeps_flag p d -> flag_set p st -> flag_set p (valued d l msg i st).
Proof.
  intros Hk Hp. unfold valued.
  destruct (take_arg i st) as [[t st']|] eqn:E; [|done].
  apply take_arg_spec in E as (j & _ & _ & _ & ->).
  by apply flag_set_process_opt_arg.
Qed.

Lemma flag_set_short_tail p d i st :
  keeps_flag p d -> flag_set p (mark_found d st) ->
  flag_set p (short_matched d i st).
Proof.
  intros Hk Hp. destruct (takes_argument (type d)) eqn:E.
  - rewrite short_matched_valued by done. by apply flag_set_valued.
  - unfold short_matched. destruct Hk as [Hne Hcb].
    destruct (type d); try done;
      try (by apply flag_set_poke).
    by apply flag_set_run_callback.
Qed.

Lemma flag_set_long_tail p d i o st :
  keeps_flag p d -> flag_set p (mark_found d st) ->
  flag_set p (long_matched d i o st).
Proof.
  intros Hk Hp. destruct o as [x|].
  - unfold long_matched.
    destruct (type d); try done; by apply flag_set_process_opt_arg.
  - destruct (takes_argument (type d)) eqn:E.
    + rewrite long_matched_valued by done. by apply flag_set_valued.
    + unfold long_matched. destruct Hk as [Hne Hcb].
      destruct (type d); try done;
        try (by apply flag_set_poke).
      by apply flag_set_run_callback.
Qed.

Section Flag.
Variable p : ptr.
Variable args : dooshki_args.
Hypothesis apart : Forall (keeps_flag p) (entries (opt_desc args)).

Lemma apart_long text n d :
  long_search (opt_desc args) text n = Some d -> keeps_flag p d.
Proof.
  intros H. eapply Forall_forall; [exact apart|].
  clear apart. induction (opt_desc args) as [|x l IH]; simpl in *; [done|].
  destruct (is_last x); [done|].
  destruct (long_name x) as [s|].
  - destruct (strncmp_eq text s n); [simplify_eq; left | right; auto].
  - right; auto.
Qed.

Lemma apart_short c d :
  short_search (opt_desc args) c = Some d -> keeps_flag p d.
Proof.
  rewrite short_search_find. intros H%find_elem_of.
  eapply Forall_forall; [exact apart | exact H].
Qed.

Lemma flag_set_long_opt i token st :
  flag_set p st -> flag_set p (long_opt args i token st).
Proof.
  intros Hp. unfold long_opt.
  destruct (String.eqb token "--help"); [by destruct (show_version st)|].
  destruct (String.eqb token "--version"); [by destruct (show_help st)|].
  destruct (long_search _ _ _) as [d|] eqn:E; [|done].
  apply flag_set_long_tail; [by eapply apart_long|].
  by apply flag_set_mark_found.
Qed.

Lemma flag_set_short_char i c st :
  flag_set p st -> flag_set p (short_char args i c st).
Proof.
  intros Hp. unfold short_char.
  destruct (Ascii.eqb c "h"); [by destruct (show_version st)|].
  destruct (Ascii.eqb c "V"); [by destruct (show_help st)|].
  destruct (short_search _ _) as [d|] eqn:E; [|done].
  apply flag_set_short_tail; [by eapply apart_short|].
  by apply flag_set_mark_found.
Qed.

Lemma flag_set_short_loop i chars st :
  flag_set p st -> flag_set p (short_loop args i chars st).
Proof.
  revert st. induction chars as [|c r IH]; intros st Hp; simpl; [done|].
  by apply IH, flag_set_short_char.
Qed.

Lemma flag_set_dash_token i token st :
  flag_set p st -> flag_set p (dash_token args i token st).
Proof.
  intros Hp. unfold dash_token.
  destruct (Ascii.eqb _ _); [destruct (at_end _); [done|]|].
  - by apply flag_set_long_opt.
  - by apply flag_set_short_loop.
Qed.

Lemma flag_set_scan_step i st :
  flag_set p st -> flag_set p (scan_step args i st).
Proof.
  intros Hp. rewrite scan_step_unfold.
  destruct (argv st !! i) as [[token|]|]; try done.
  destruct (Ascii.eqb _ _); [|done].
  by apply (flag_set_dash_token i token).
Qed.

Lemma flag_set_scan_loop k i st :
  flag_set p st -> flag_set p (scan_loop args k i st).
Proof.
  revert i st. induction k as [|k IH]; intros i st Hp; simpl; [done|].
  destruct (stopper_reached st); [done|].
  by apply IH, flag_set_scan_step.
Qed.

(** The round that meets the occurrence sets the flag, whatever the
    handling of the value then does. *)
Lemma flag_set_occurrence i token d st :
  occurs_in args token d -> opt_found d = Some p ->
  argv st !! i = Some (Some token) ->
  flag_set p (scan_step args i st).
Proof.
  intros Ho Hf Ht. rewrite scan_step_unfold, Ht.
  destruct Ho as [name value d Hname Hm Hh Hv Hfind
                 | before c after d Hc Hh Hv Hfind].
  - change (first_char (long_token name value)) with "-"%char.
    change (Ascii.eqb "-" "-") with true. cbv iota.
    unfold flag_set. cbn [mem set_argv]. fold (flag_set p
      (dash_token args i (long_token name value) st)).
    unfold dash_token.
    change (first_char (tail_from 1 (long_token name value)))
      with "-"%char.
    change (Ascii.eqb "-" "-") with true. cbv iota.
    destruct (at_end (tail_from 2 (long_token name value))) eqn:E.
    { destruct Hm. by apply marker_tests. }
    rewrite (long_option_shape name value st i args Hname).
    destruct (String.eqb_spec (long_token name value) "--help"); [done|].
    destruct (String.eqb_spec (long_token name value) "--version");
      [done|].
    rewrite Hfind.
    apply flag_set_long_tail; [|by apply flag_set_marked].
    eapply Forall_forall; [exact apart | by eapply find_elem_of].
  - change (first_char ("-" +:+ before +:+ String c after)) with "-"%char.
    change (Ascii.eqb "-" "-") with true. cbv iota.
    unfold flag_set. cbn [mem set_argv]. fold (flag_set p
      (dash_token args i ("-" +:+ before +:+ String c after) st)).
    unfold dash_token.
    change (tail_from 1 ("-" +:+ before +:+ String c after))
      with (before +:+ String c after).
    destruct (Ascii.eqb_spec (first_char (before +:+ String c after)) "-")
      as [|_]; [done|].
    clear Hc Ht. revert st.
    induction before as [|b r IH]; intros st.
    + change ("" +:+ String c after) with (String c after).
      cbn [short_loop]. apply flag_set_short_loop.
      unfold short_char.
      destruct (Ascii.eqb_spec c "h"); [done|].
      destruct (Ascii.eqb_spec c "V"); [done|].
      rewrite short_search_find, Hfind.
      apply flag_set_short_tail; [|by apply flag_set_marked].
      eapply Forall_forall; [exact apart | by eapply find_elem_of].
    + change (String b r +:+ String c after)
        with (String b (r +:+ String c after)).
      cbn [short_loop]. apply IH.
Qed.

End Flag.

(** C10. When the scanning loop meets a token that matches a descriptor
    with a found flag, the flag is written before the value is handled:
    it holds 1 right after that round and at the end of the parse,
    whether or not the occurrence registers an error (unexpected or
    missing argument, failed conversion), as long as no descriptor uses
    the flag's cell as its destination and no callback clears it. *)
Theorem found_flag_set_before_value args n a m r token d p :
  let s := rounds args r (entry n a m) in
  S r < n ->
  stopper_reached s = false ->
  argv s !! S r = Some (Some token) ->
  occurs_in args token d ->
  opt_found d = Some p ->
  Forall (keeps_flag p) (entries (opt_desc args)) ->
  mem (scan_step args (S r) s) !! p = Some (CChar 1) /\
  mem (dooshki_args_parse args (entry n a m)).2 !! p = Some (CChar 1).
Proof.
  intros s Hr Hs Ht Ho Hf Hk.
  assert (flag_set p (scan_step args (S r) s)) as H1.
  { by eapply flag_set_occurrence. }
  split; [exact H1|].
  unfold dooshki_args_parse. cbn [snd].
  destruct (deflate_args_list_frame (scan args (entry n a m))) as [-> _].
  assert (scan args (entry n a m) =
          scan_loop args (n - 2 - r) (S (S r)) (scan_step args (S r) s))
    as ->; [|by apply flag_set_scan_loop].
  unfold scan. cbn [argc entry].
  replace (n - 1) with (r + S (n - 2 - r)) by lia.
  rewrite scan_loop_add.
  assert (scan_loop args r 1 (entry n a m) = s) as ->.
  { subst s. unfold rounds. cbn [argc entry]. f_equal. lia. }
  replace (1 + r) with (S r) by lia.
  cbn [scan_loop]. by rewrite Hs.
Qed.

(** ** A cluster and its options given one by one *)

Lemma scan_loop_S args k i st :
  scan_loop args (S k) i st =
  if stopper_reached st then st
  else scan_loop args k (S i) (scan_step args i st).
Proof. done. Qed.

Lemma scan_step_skip args i a n c :
  a !! i = Some None -> scan_step args i (recmd a n c) = recmd a n c.
Proof. intros H. rewrite scan_step_unfold. cbn [argv recmd set_argc set_argv]. by rewrite H. Qed.

Lemma scan_step_cluster args i a n c chars :
  a !! i = Some (Some (String "-" chars)) ->
  first_char chars <> "-"%char ->
  scan_step args i (recmd a n c) =
  set_argv
    (<[i := None]> (argv (short_loop args i chars (recmd a n c))))
    (short_loop args i chars (recmd a n c)).
Proof.
  intros H Hc. rewrite scan_step_unfold.
  cbn [argv recmd set_argc set_argv]. rewrite H.
  change (first_char (String "-" chars)) with "-"%char.
  change (Ascii.eqb "-" "-") with true. cbv iota. unfold dash_token.
  change (tail_from 1 (String "-" chars)) with chars.
  by destruct (Ascii.eqb_spec (first_char chars) "-").
Qed.

(** A short option that takes an argument word, over the array [a]. *)
Lemma short_char_valued args i c d a n st :
  c <> "h"%char -> c <> "V"%char ->
  List.find (short_name_is c) (entries (opt_desc args)) = Some d ->
  takes_argument (type d) = true ->
  short_char args i c (recmd a n st) =
  match pick a i n with
  | Some (t, j) =>
      recmd (<[j := None]> a) n
        (flag_failure (process_opt_arg d false t (mark_found d st)))
  | None =>
      recmd a n
        (set_error
           (print_error (MsgMissingShort (default "" (short_name d)))
              (mark_found d st)))
  end.
Proof.
  intros Hh Hv Hfind Hty. unfold short_char.
  destruct (Ascii.eqb_spec c "h"); [done|].
  destruct (Ascii.eqb_spec c "V"); [done|].
  rewrite short_search_find, Hfind, short_matched_valued by done.
  destruct (blind_mark_found d a n st) as [-> _].
  apply valued_recmd.
Qed.

Lemma stopper_with_word d word c :
  stopper_reached (with_word d word c) = stopper_reached c.
Proof.
  unfold with_word.
  destruct (blind_process_opt_arg d false word [] 0 (mark_found d c))
    as [_ ->].
  by destruct (blind_mark_found d [] 0 c) as [_ ->].
Qed.

Lemma stopper_without_word d c :
  stopper_reached (without_word d c) = stopper_reached c.
Proof.
  unfold without_word. cbn [stopper_reached set_error print_error].
  by destruct (blind_mark_found d [] 0 c) as [_ ->].
Qed.

Lemma short_char_word args i c d a n st :
  c <> "h"%char -> c <> "V"%char ->
  List.find (short_name_is c) (entries (opt_desc args)) = Some d ->
  takes_argument (type d) = true ->
  short_char args i c (recmd a n st) =
  match pick a i n with
  | Some (t, j) => recmd (<[j := None]> a) n (with_word d t st)
  | None => recmd a n (without_word d st)
  end.
Proof. apply short_char_valued. Qed.

Section Cluster.
Variable args : dooshki_args.
Variables prog A B : string.
Variables f d : ascii.
Variables df dd : dooshki_opt.
Variable m : store.
Hypothesis f_dash : f <> "-"%char.
Hypothesis d_dash : d <> "-"%char.
Hypothesis f_help : f <> "h"%char.
Hypothesis f_ver : f <> "V"%char.
Hypothesis d_help : d <> "h"%char.
Hypothesis d_ver : d <> "V"%char.
Hypothesis f_opt :
  List.find (short_name_is f) (entries (opt_desc args)) = Some df.
Hypothesis f_word : takes_argument (type df) = true.
Hypothesis d_opt :
  List.find (short_name_is d) (entries (opt_desc args)) = Some dd.
Hypothesis d_word : takes_argument (type dd) = true.
Hypothesis A_word : A <> "--".

Lemma cluster_scan :
  scan args
    (command_line [prog; String "-" (String f (String d "")); A; B] m) =
  recmd [Some prog; None; None; None] 4
    (two_words df dd A B (entry 0 [] m)).
Proof.
  pose proof A_word as HA. apply String.eqb_neq in HA.
  set (c0 := entry 0 [] m).
  set (tok := String "-" (String f (String d ""))).
  assert (short_loop args 1 (String f (String d ""))
            (recmd [Some prog; Some tok; Some A; Some B] 4 c0) =
          if String.eqb B "--" then
            recmd [Some prog; Some tok; None; Some B] 4
              (without_word dd (with_word df A c0))
          else
            recmd [Some prog; Some tok; None; None] 4
              (with_word dd B (with_word df A c0))) as Hloop.
  { cbn [short_loop].
    rewrite (short_char_word args 1 f df) by done.
    unfold pick. simpl. rewrite HA. simpl.
    rewrite (short_char_word args 1 d dd) by done.
    unfold pick. simpl. by destruct (String.eqb B "--"). }
  unfold scan, command_line. cbn [argc entry length].
  change (entry 4 (Some <$> [prog; tok; A; B]) m)
    with (recmd [Some prog; Some tok; Some A; Some B] 4 c0).
  change (4 - 1) with 3.
  rewrite scan_loop_S. change (stopper_reached (recmd _ 4 c0)) with false.
  cbv iota.
  rewrite (scan_step_cluster args 1 _ 4 _ (String f (String d "")))
    by done.
  rewrite Hloop. unfold two_words.
  destruct (String.eqb_spec B "--") as [->|HB].
  - change (set_argv _ (recmd _ 4 ?c))
      with (recmd [Some prog; None; None; Some "--"] 4 c).
    rewrite scan_loop_S.
    change (stopper_reached (recmd _ 4 ?c)) with (stopper_reached c).
    rewrite stopper_without_word, stopper_with_word.
    change (stopper_reached c0) with false. cbv iota.
    rewrite scan_step_skip by done. rewrite scan_loop_S.
    change (stopper_reached (recmd _ 4 ?c)) with (stopper_reached c).
    rewrite stopper_without_word, stopper_with_word.
    change (stopper_reached c0) with false. cbv iota.
    rewrite scan_step_marker by done. done.
  - change (set_argv _ (recmd _ 4 ?c))
      with (recmd [Some prog; None; None; None] 4 c).
    rewrite scan_loop_S.
    change (stopper_reached (recmd _ 4 ?c)) with (stopper_reached c).
    rewrite !stopper_with_word.
    change (stopper_reached c0) with false. cbv iota.
    rewrite scan_step_skip by done. rewrite scan_loop_S.
    change (stopper_reached (recmd _ 4 ?c)) with (stopper_reached c).
    rewrite !stopper_with_word.
    change (stopper_reached c0) with false. cbv iota.
    rewrite scan_step_skip by done. done.
Qed.

Lemma separate_scan :
  scan args
    (command_line
       [prog; String "-" (String f ""); A; String "-" (String d ""); B] m) =
  recmd [Some prog; None; None; None; None] 5
    (two_words df dd A B (entry 0 [] m)).
Proof.
  pose proof A_word as HA. apply String.eqb_neq in HA.
  set (c0 := entry 0 [] m).
  set (tf := String "-" (String f "")).
  set (td := String "-" (String d "")).
  assert (short_loop args 1 (String f "")
            (recmd [Some prog; Some tf; Some A; Some td; Some B] 5 c0) =
          recmd [Some prog; Some tf; None; Some td; Some B] 5
            (with_word df A c0)) as H1.
  { cbn [short_loop].
    rewrite (short_char_word args 1 f df) by done.
    unfold pick. simpl. by rewrite HA. }
  assert (forall c1,
            short_loop args 3 (String d "")
              (recmd [Some prog; None; None; Some td; Some B] 5 c1) =
            if String.eqb B "--" then
              recmd [Some prog; None; None; Some td; Some B] 5
                (without_word dd c1)
            else
              recmd [Some prog; None; None; Some td; None] 5
                (with_word dd B c1)) as H2.
  { intros c1. cbn [short_loop].
    rewrite (short_char_word args 3 d dd) by done.
    unfold pick. simpl. by destruct (String.eqb B "--"). }
  unfold scan, command_line. cbn [argc entry length].
  change (entry 5 (Some <$> [prog; tf; A; td; B]) m)
    with (recmd [Some prog; Some tf; Some A; Some td; Some B] 5 c0).
  change (5 - 1) with 4.
  rewrite scan_loop_S. change (stopper_reached (recmd _ 5 c0)) with false.
  cbv iota.
  rewrite (scan_step_cluster args 1 _ 5 _ (String f "")) by done.
  rewrite H1.
  change (set_argv _ (recmd _ 5 ?c))
    with (recmd [Some prog; None; None; Some td; Some B] 5 c).
  rewrite scan_loop_S.
  change (stopper_reached (recmd _ 5 ?c)) with (stopper_reached c).
  rewrite stopper_with_word. change (stopper_reached c0) with false.
  cbv iota. rewrite scan_step_skip by done. rewrite scan_loop_S.
  change (stopper_reached (recmd _ 5 ?c)) with (stopper_reached c).
  rewrite stopper_with_word. change (stopper_reached c0) with false.
  cbv iota.
  rewrite (scan_step_cluster args 3 _ 5 _ (String d "")) by done.
  rewrite H2. unfold two_words.
  destruct (String.eqb_spec B "--") as [->|HB].
  - change (set_argv _ (recmd _ 5 ?c))
      with (recmd [Some prog; None; None; None; Some "--"] 5 c).
    rewrite scan_loop_S.
    change (stopper_reached (recmd _ 5 ?c)) with (stopper_reached c).
    rewrite stopper_without_word, stopper_with_word.
    change (stopper_reached c0) with false. cbv iota.
    rewrite scan_step_marker by done. done.
  - change (set_argv _ (recmd _ 5 ?c))
      with (recmd [Some prog; None; None; None; None] 5 c).
    rewrite scan_loop_S.
    change (stopper_reached (recmd _ 5 ?c)) with (stopper_reached c).
    rewrite !stopper_with_word.
    change (stopper_reached c0) with false. cbv iota.
    rewrite scan_step_skip by done. done.
Qed.

(** C6. With [-f] and [-d] two short options of the table that take a
    value, and [A] a word (not the marker), the cluster [-fd A B] and the
    separate [-f A -d B] leave the same storage, the same error lines,
    flags and outcome, and consume the same words: in both, only the
    program name is given back.  In the cluster, [-f] takes [A] and
    then [-d] takes [B], the next word still there. *)
Theorem cluster_same_as_separate :
  let r1 :=
    dooshki_args_parse args
      (command_line [prog; String "-" (String f (String d "")); A; B] m) in
  let r2 :=
    dooshki_args_parse args
      (command_line
         [prog; String "-" (String f ""); A; String "-" (String d ""); B]
         m) in
  r1.1 = r2.1 /\ mem r1.2 = mem r2.2 /\ stderr r1.2 = stderr r2.2
  /\ show_help r1.2 = show_help r2.2
  /\ show_version r1.2 = show_version r2.2
  /\ errors_found r1.2 = errors_found r2.2
  /\ remaining r1.2 = [Some prog] /\ remaining r2.2 = [Some prog]
  /\ (B = "--" \/
      mem r1.2 = mem (with_word dd B (with_word df A (entry 0 [] m)))).
Proof.
  intros r1 r2. subst r1 r2. unfold dooshki_args_parse. cbn [fst snd].
  rewrite cluster_scan, separate_scan.
  set (c := two_words df dd A B (entry 0 [] m)).
  destruct (deflate_recmd [Some prog; None; None; None] 4 c)
    as (-> & -> & -> & -> & -> & _ & ->).
  destruct (deflate_recmd [Some prog; None; None; None; None] 5 c)
    as (-> & -> & -> & -> & -> & _ & ->).
  split_and!; try done.
  subst c. unfold two_words.
  destruct (String.eqb_spec B "--"); [by left | by right].
Qed.

End Cluster.
(** ** Operands *)

Lemma scan_step_operand args i st t :
  argv st !! i = Some (Some t) -> first_char t <> "-"%char ->
  scan_step args i st = st.
Proof.
  intros Ht Hc. rewrite scan_step_unfold, Ht.
  by destruct (Ascii.eqb_spec (first_char t) "-").
Qed.

Lemma scan_loop_operands args k i st :
  (forall j, i <= j < i + k ->
     exists t, argv st !! j = Some (Some t) /\ first_char t <> "-"%char) ->
  scan_loop args k i st = st.
Proof.
  revert i. induction k as [|k IH]; intros i H; simpl; [done|].
  destruct (stopper_reached st); [done|].
  destruct (H i ltac:(lia)) as (t & Ht & Hc).
  rewrite (scan_step_operand args i st t Ht Hc).
  apply IH. intros j Hj. apply H. lia.
Qed.

(** Without a NULL in its range the compaction changes nothing. *)
Lemma deflate_loop_full k fill (a : list (option string)) :
  (forall j, fill <= j < fill + k -> exists t, a !! j = Some (Some t)) ->
  deflate_loop k fill a = (a, fill + k).
Proof.
  revert fill. induction k as [|k IH]; intros fill H; simpl.
  { by rewrite Nat.add_0_r. }
  destruct (H fill ltac:(lia)) as [t Ht]. rewrite Ht, Ht.
  rewrite IH; [f_equal; lia|]. intros j Hj. apply H. lia.
Qed.

(** X1. A command line whose words after the program name do not start
    with a dash comes back as it went in: the outcome is ok, and [argv],
    [argc], the storage and stderr are untouched. *)
Theorem operands_pass_through args prog ops m :
  Forall (fun t => first_char t <> "-"%char) ops ->
  dooshki_args_parse args (command_line (prog :: ops) m) =
    (DOOSHKI_ARGS_PARSE_OK, command_line (prog :: ops) m).
Proof.
  intros Hops. unfold dooshki_args_parse.
  assert (forall j, 1 <= j < 1 + (length (prog :: ops) - 1) ->
            exists t, (Some <$> prog :: ops) !! j = Some (Some t) /\
                      first_char t <> "-"%char) as Hall.
  { intros [|j] Hj; [lia|]. simpl in Hj.
    destruct (lookup_lt_is_Some_2 ops j ltac:(lia)) as [t Ht].
    exists t. rewrite list_lookup_fmap. simpl. rewrite Ht. split; [done|].
    eapply Forall_lookup_1 in Hops; eauto. }
  assert (scan args (command_line (prog :: ops) m) =
          command_line (prog :: ops) m) as ->.
  { unfold scan. apply scan_loop_operands. exact Hall. }
  unfold deflate_args_list. cbn [argc argv command_line entry].
  rewrite deflate_loop_full.
  - simpl. by rewrite Nat.sub_0_r.
  - intros j Hj. destruct (Hall j Hj) as (t & Ht & _). eauto.
Qed.

(** ** The count and the array *)

Lemma pull_length a fill p n : length (pull a fill p n) = length a.
Proof.
  revert p. induction n as [|n IH]; intros p; simpl; [done|].
  destruct (a !! p) as [[t|]|]; rewrite ?length_insert; auto.
Qed.

Lemma deflate_loop_bounds k fill a :
  length (deflate_loop k fill a).1 = length a /\
  fill <= (deflate_loop k fill a).2 <= fill + k.
Proof.
  revert fill a. induction k as [|k IH]; intros fill a; simpl.
  { split; [done | lia]. }
  set (a1 := match a !! fill with
             | Some (Some _) => a
             | _ => pull a fill (S fill) k
             end).
  assert (length a1 = length a) as Hl.
  { subst a1. destruct (a !! fill) as [[t|]|]; auto using pull_length. }
  destruct (a1 !! fill) as [[t|]|]; simpl; try (split; [done | lia]).
  destruct (IH (S fill) a1) as [-> ?]. split; [done | lia].
Qed.

(** X2. The parse never changes the length of the array, and the count it
    leaves is at least 1 and at most the count it got, or 1 if that was
    less: called with [argc = 0] it scans nothing and still sets [argc]
    to 1. *)
Theorem argc_after_parse args n a m :
  let r := (dooshki_args_parse args (entry n a m)).2 in
  length (argv r) = length a /\ 1 <= argc r <= Nat.max 1 n.
Proof.
  intros r. subst r. unfold dooshki_args_parse, deflate_args_list.
  cbn [snd].
  destruct (scan_frame args n a m) as [[Hl _] Hc].
  set (s := scan args (entry n a m)) in *.
  pose proof (deflate_loop_bounds (argc s - 1) 1 (argv s)) as [H1 H2].
  destruct (deflate_loop (argc s - 1) 1 (argv s)) as [a' n'].
  cbn [fst snd] in H1, H2. cbn [argv argc set_argc set_argv].
  split; [congruence | lia].
Qed.

(** ** The argument word an option takes *)

Lemma next_arg_some (a : list (option string)) i n j :
  next_arg a i n = Some j <->
  exists t, next_word a i n j t /\ t <> "--".
Proof.
  split.
  - intros H. apply next_arg_spec in H as (Hr & (t & Ht & Hne) & Hk).
    exists t. split; [|done]. unfold next_word. split_and!; try done; lia.
  - intros (t & (Hr & Ht & Hk) & Hne). revert i Hr Hk.
    induction n as [|n IH]; intros i Hr Hk; [lia|]. simpl.
    destruct (decide (j = i)) as [->|Hji].
    + rewrite Ht. by destruct (String.eqb_spec t "--").
    + destruct (Hk i ltac:(lia)) as [-> | ->];
        apply IH; try lia; intros; apply Hk; lia.
Qed.

Lemma next_arg_none (a : list (option string)) i n :
  next_arg a i n = None <->
  (forall k, i <= k < i + n -> null_at a k) \/
  exists j, next_word a i n j "--".
Proof.
  revert i. induction n as [|n IH]; intros i; simpl.
  { split; [|done]. intros _. left. intros; lia. }
  destruct (a !! i) as [[t|]|] eqn:E.
  - destruct (String.eqb_spec t "--") as [->|Hne].
    + split; [|done]. intros _. right. exists i.
      repeat split; [lia | lia | done | intros; lia].
    + split; [done|]. intros [H | (j & Hr & Hj & Hk)].
      * destruct (H i ltac:(lia)) as [H'|H']; congruence.
      * destruct (decide (j = i)) as [->|]; [congruence|].
        destruct (Hk i ltac:(lia)) as [H'|H']; congruence.
  - rewrite IH. split.
    + intros [H | (j & Hr & Hj & Hk)].
      * left. intros k Hk.
        destruct (decide (k = i)) as [->|]; [by left | apply H; lia].
      * right. exists j. repeat split; [lia | lia | done |].
        intros k Hk'.
        destruct (decide (k = i)) as [->|]; [by left | apply Hk; lia].
    + intros [H | (j & Hr & Hj & Hk)].
      * left. intros k Hk. apply H. lia.
      * right. exists j. destruct (decide (j = i)) as [->|]; [congruence|].
        repeat split; [lia | lia | done | intros; apply Hk; lia].
  - rewrite IH. split.
    + intros [H | (j & Hr & Hj & Hk)].
      * left. intros k Hk.
        destruct (decide (k = i)) as [->|]; [by right | apply H; lia].
      * right. exists j. repeat split; [lia | lia | done |].
        intros k Hk'.
        destruct (decide (k = i)) as [->|]; [by right | apply Hk; lia].
    + intros [H | (j & Hr & Hj & Hk)].
      * left. intros k Hk. apply H. lia.
      * right. exists j. destruct (decide (j = i)) as [->|]; [congruence|].
        repeat split; [lia | lia | done | intros; apply Hk; lia].
Qed.

Lemma take_arg_some i st t st' :
  take_arg i st = Some (t, st') <->
  exists j, next_word (argv st) (S i) (argc st - S i) j t /\ t <> "--" /\
            st' = set_argv (<[j := None]> (argv st)) st.
Proof.
  unfold take_arg. split.
  - destruct (next_arg _ _ _) as [j|] eqn:E; [|done].
    apply next_arg_some in E as (t' & Hw & Hne).
    destruct Hw as (Hr & Ht & Hk). rewrite Ht. intros [= <- <-].
    exists j. split; [|done]. unfold next_word. split_and!; try done; lia.
  - intros (j & Hw & Hne & ->).
    assert (next_arg (argv st) (S i) (argc st - S i) = Some j) as ->.
    { apply next_arg_some. eauto. }
    destruct Hw as (_ & -> & _). done.
Qed.

Lemma take_arg_none i st :
  take_arg i st = None <->
  (forall k, S i <= k < S i + (argc st - S i) -> null_at (argv st) k) \/
  exists j, next_word (argv st) (S i) (argc st - S i) j "--".
Proof.
  rewrite <- next_arg_none. unfold take_arg.
  destruct (next_arg _ _ _) as [j|] eqn:E; [|done].
  apply next_arg_some in E as (t & (_ & -> & _) & _). done.
Qed.

(** X3. The argument word of an option at [opt_argi] is the first entry
    after it, below [argc], that is not NULL, and taking it overwrites
    just that entry; there is none exactly when all those entries are
    NULL or the first one that is not is the marker, which stays. *)
Theorem argument_word_is_next_remaining i st :
  (forall t st',
     take_arg i st = Some (t, st') <->
     exists j, next_word (argv st) (S i) (argc st - S i) j t /\
               t <> "--" /\
               st' = set_argv (<[j := None]> (argv st)) st)
  /\ (take_arg i st = None <->
      (forall k, S i <= k < S i + (argc st - S i) -> null_at (argv st) k)
      \/ exists j, next_word (argv st) (S i) (argc st - S i) j "--").
Proof. split; [intros; apply take_arg_some | apply take_arg_none]. Qed.

(** X4. An option that takes an argument and finds no word to take (all
    later entries are NULL, or the marker comes first) sets its found
    flag, reports the missing argument and sets [errors_found]; its
    destination is not written and no entry is overwritten. *)
Theorem missing_argument_writes_nothing d i st :
  takes_argument (type d) = true ->
  ((forall k, S i <= k < S i + (argc st - S i) -> null_at (argv st) k) \/
   exists j, next_word (argv st) (S i) (argc st - S i) j "--") ->
  long_matched d i None st =
    set_error (print_error (MsgMissingLong (default "" (long_name d)))
                 (mark_found d st))
  /\ short_matched d i st =
    set_error (print_error (MsgMissingShort (default "" (short_name d)))
                 (mark_found d st)).
Proof.
  intros Hty Hno.
  assert (take_arg i (mark_found d st) = None) as E.
  { apply take_arg_none.
    destruct (mark_found_frame d st) as (-> & (-> & _) & _). exact Hno. }
  rewrite long_matched_valued, short_matched_valued by done.
  unfold valued. by rewrite E.
Qed.

(** ** Options the table does not know, and values not expected *)

Lemma long_token_tests name value :
  first_char (long_token name value) = "-"%char /\
  first_char (tail_from 1 (long_token name value)) = "-"%char /\
  tail_from 2 (long_token name value) =
    name +:+ match value with
             | Some v => String "=" v
             | None => ""
             end.
Proof. done. Qed.

Lemma scan_step_long args i token st :
  argv st !! i = Some (Some token) ->
  first_char token = "-"%char ->
  first_char (tail_from 1 token) = "-"%char ->
  token <> "--" ->
  scan_step args i st =
  set_argv (<[i := None]> (argv (long_opt args i token st)))
    (long_opt args i token st).
Proof.
  intros Ht H1 H2 Hm. rewrite scan_step_unfold, Ht, H1.
  change (Ascii.eqb "-" "-") with true. cbv iota.
  unfold dash_token. rewrite H2.
  change (Ascii.eqb "-" "-") with true. cbv iota.
  destruct (at_end (tail_from 2 token)) eqn:E; [|done].
  destruct Hm. apply marker_tests; [by rewrite H1 | by rewrite H2 | done].
Qed.

Lemma long_token_with_value_marker name v : long_token name (Some v) <> "--".
Proof.
  unfold long_token.
  change ("--" +:+ name +:+ String "=" v)
    with (String "-" (String "-" (name +:+ String "=" v))).
  intros [= H]. by destruct name.
Qed.

(** X5. A long option whose name begins no long name of the table is
    reported once as unrecognized; [errors_found] is set, the entry is
    overwritten, and nothing else changes: no storage is written, no
    other entry is touched, and the scan is not stopped. *)
Theorem unknown_long_option_reported args i name value st :
  chars_all not_equals_sign name = true ->
  long_token name value <> "--" ->
  long_token name value <> "--help" ->
  long_token name value <> "--version" ->
  List.find (long_name_begins name) (entries (opt_desc args)) = None ->
  argv st !! i = Some (Some (long_token name value)) ->
  scan_step args i st =
    set_argv (<[i := None]> (argv st))
      (set_error (print_error (MsgUnrecLong (long_token name value)) st)).
Proof.
  intros Hname Hm Hh Hv Hfind Ht.
  rewrite (scan_step_long args i _ st Ht) by done.
  rewrite (long_option_shape name value st i args Hname), Hfind.
  destruct (String.eqb_spec (long_token name value) "--help"); [done|].
  by destruct (String.eqb_spec (long_token name value) "--version").
Qed.

(** X6. A cluster character that is no short name of the table is
    reported once as unrecognized and sets [errors_found]; nothing else
    changes, and the rest of the cluster is processed as if it came
    first. *)
Theorem unknown_short_option_reported args i c rest st :
  c <> "h"%char -> c <> "V"%char ->
  List.find (short_name_is c) (entries (opt_desc args)) = None ->
  short_char args i c st = set_error (print_error (MsgUnrecShort c) st) /\
  short_loop args i (String c rest) st =
    short_loop args i rest (set_error (print_error (MsgUnrecShort c) st)).
Proof.
  intros Hh Hv Hfind.
  assert (short_char args i c st =
          set_error (print_error (MsgUnrecShort c) st)) as E.
  { unfold short_char.
    destruct (Ascii.eqb_spec c "h"); [done|].
    destruct (Ascii.eqb_spec c "V"); [done|].
    by rewrite short_search_find, Hfind. }
  split; [exact E|]. cbn [short_loop]. by rewrite E.
Qed.

(** X7. A value attached with [=] to a long option of a kind without
    argument (bool, negbool, callback without argument) is reported once
    as not expected; the found flag is set, but the destination is not
    written and the callback is not called. *)
Theorem inline_value_not_expected args i name v d st :
  chars_all not_equals_sign name = true ->
  List.find (long_name_begins name) (entries (opt_desc args)) = Some d ->
  takes_argument (type d) = false ->
  argv st !! i = Some (Some (long_token name (Some v))) ->
  scan_step args i st =
    set_argv (<[i := None]> (argv st))
      (set_error
         (print_error (MsgNotExpected v (default "" (long_name d)))
            (mark_found d st))).
Proof.
  intros Hname Hfind Hty Ht.
  destruct (mark_found_frame d st) as (Ha & _).
  rewrite (scan_step_long args i _ st Ht)
    by (try done; apply long_token_with_value_marker).
  rewrite (long_option_shape name (Some v) st i args Hname), Hfind.
  assert (String.eqb (long_token name (Some v)) "--help" = false) as ->
    by (by apply with_equals_not_builtin).
  assert (String.eqb (long_token name (Some v)) "--version" = false) as ->
    by (by apply with_equals_not_builtin).
  unfold long_matched. destruct (type d); try done;
    cbn [argv set_error print_error]; by rewrite Ha.
Qed.

(** ** What the parse never writes *)

Lemma search_in_entries tbl text n d :
  long_search tbl text n = Some d -> d ∈ entries tbl.
Proof.
  induction tbl as [|x l IH]; simpl; [done|].
  destruct (is_last x); [done|].
  destruct (long_name x) as [s|].
  - destruct (strncmp_eq text s n); [intros [= ->]; left | right; auto].
  - right; auto.
Qed.

Lemma cell_mark_found p d st :
  opt_found d <> Some p -> mem (mark_found d st) !! p = mem st !! p.
Proof.
  unfold mark_found. destruct (opt_found d) as [q|]; [|done].
  intros H. simpl. rewrite lookup_insert_ne; [done | congruence].
Qed.

Lemma cell_run_callback p d o x y st :
  leaves_cell p d ->
  mem (flag_failure (run_callback d o x y st)) !! p = mem st !! p.
Proof.
  intros (_ & _ & Hcb). specialize (Hcb o x y (mem st)).
  unfold flag_failure, run_callback.
  destruct (callback d o _ x y _ (mem st)) as [[] m']; done.
Qed.

Lemma cell_process_opt_arg p d l x st :
  leaves_cell p d ->
  mem (flag_failure (process_opt_arg d l x st)) !! p = mem st !! p.
Proof.
  intros Hk. unfold process_opt_arg.
  destruct (type d); try done;
    try (by apply cell_run_callback);
    destruct Hk as (Hne & _);
    unfold process_str_arg, process_int_arg, process_uint_arg,
      process_float_arg, flag_failure, poke, set_error, print_error,
      set_mem;
    repeat (case_match; simpl in * ); simplify_eq;
    by rewrite lookup_insert_ne.
Qed.

Lemma cell_valued p d l msg i st :
  leaves_cell p d -> mem (valued d l msg i st) !! p = mem st !! p.
Proof.
  intros Hk. unfold valued.
  destruct (take_arg i st) as [[t st']|] eqn:E; [|done].
  apply take_arg_spec in E as (j & _ & _ & _ & ->).
  by rewrite cell_process_opt_arg.
Qed.

Lemma cell_short_matched p d i st :
  leaves_cell p d -> mem (short_matched d i st) !! p = mem st !! p.
Proof.
  intros Hk. pose proof Hk as (Hs & Hf & _).
  rewrite <- (cell_mark_found p d st Hf).
  destruct (takes_argument (type d)) eqn:E.
  - rewrite short_matched_valued by done. by apply cell_valued.
  - unfold short_matched.
    destruct (type d); try done;
      try (simpl; by rewrite lookup_insert_ne).
    by apply cell_run_callback.
Qed.

Lemma cell_long_matched p d i o st :
  leaves_cell p d -> mem (long_matched d i o st) !! p = mem st !! p.
Proof.
  intros Hk. pose proof Hk as (Hs & Hf & _).
  rewrite <- (cell_mark_found p d st Hf).
  destruct o as [x|].
  - unfold long_matched.
    destruct (type d); try done; by apply cell_process_opt_arg.
  - destruct (takes_argument (type d)) eqn:E.
    + rewrite long_matched_valued by done. by apply cell_valued.
    + unfold long_matched.
      destruct (type d); try done;
        try (simpl; by rewrite lookup_insert_ne).
      by apply cell_run_callback.
Qed.

Section Untouched.
Variable p : ptr.
Variable args : dooshki_args.
Hypothesis apart : Forall (leaves_cell p) (entries (opt_desc args)).

Lemma cell_long_opt i token st :
  mem (long_opt args i token st) !! p = mem st !! p.
Proof.
  unfold long_opt.
  destruct (String.eqb token "--help"); [by destruct (show_version st)|].
  destruct (String.eqb token "--version"); [by destruct (show_help st)|].
  destruct (long_search _ _ _) as [d|] eqn:E; [|done].
  apply cell_long_matched.
  eapply Forall_forall; [exact apart | by eapply search_in_entries].
Qed.

Lemma cell_short_char i c st :
  mem (short_char args i c st) !! p = mem st !! p.
Proof.
  unfold short_char.
  destruct (Ascii.eqb c "h"); [by destruct (show_version st)|].
  destruct (Ascii.eqb c "V"); [by destruct (show_help st)|].
  destruct (short_search _ _) as [d|] eqn:E; [|done].
  apply cell_short_matched. rewrite short_search_find in E.
  eapply Forall_forall; [exact apart | by eapply find_elem_of].
Qed.

Lemma cell_short_loop i chars st :
  mem (short_loop args i chars st) !! p = mem st !! p.
Proof.
  revert st. induction chars as [|c r IH]; intros st; simpl; [done|].
  by rewrite IH, cell_short_char.
Qed.

Lemma cell_scan_step i st :
  mem (scan_step args i st) !! p = mem st !! p.
Proof.
  rewrite scan_step_unfold.
  destruct (argv st !! i) as [[token|]|]; try done.
  destruct (Ascii.eqb _ _); [|done]. cbn [mem set_argv].
  unfold dash_token.
  destruct (Ascii.eqb _ _); [destruct (at_end _); [done|]|].
  - apply cell_long_opt.
  - apply cell_short_loop.
Qed.

Lemma cell_scan_loop k i st :
  mem (scan_loop args k i st) !! p = mem st !! p.
Proof.
  revert i st. induction k as [|k IH]; intros i st; simpl; [done|].
  destruct (stopper_reached st); [done|].
  by rewrite IH, cell_scan_step.
Qed.

(** X8. The parse writes the caller's storage only through the
    descriptors it looks at: a cell that is no destination and no found
    flag of an entry before the closing member, and that no callback of
    those entries changes, holds after the parse what it held before. *)
Theorem parse_writes_only_destinations n a m :
  mem (dooshki_args_parse args (entry n a m)).2 !! p = m !! p.
Proof.
  unfold dooshki_args_parse. cbn [snd].
  destruct (deflate_args_list_frame (scan args (entry n a m))) as [-> _].
  unfold scan. by rewrite cell_scan_loop.
Qed.

End Untouched.

(** ** The two ways to give a long option its value *)

Lemma long_opt_inline args i name W d a n st :
  chars_all not_equals_sign name = true ->
  List.find (long_name_begins name) (entries (opt_desc args)) = Some d ->
  takes_argument (type d) = true ->
  long_opt args i (long_token name (Some W)) (recmd a n st) =
  recmd a n (with_long_word d W st).
Proof.
  intros Hname Hfind Hty.
  rewrite (long_option_shape name (Some W) _ i args Hname), Hfind.
  assert (String.eqb (long_token name (Some W)) "--help" = false) as ->
    by (by apply with_equals_not_builtin).
  assert (String.eqb (long_token name (Some W)) "--version" = false) as ->
    by (by apply with_equals_not_builtin).
  unfold long_matched, with_long_word.
  destruct (blind_mark_found d a n st) as [-> _].
  destruct (blind_process_opt_arg d true W a n (mark_found d st))
    as [E _].
  by destruct (type d).
Qed.

Lemma long_opt_word args i name d a n st :
  chars_all not_equals_sign name = true ->
  name <> "help" -> name <> "version" ->
  List.find (long_name_begins name) (entries (opt_desc args)) = Some d ->
  takes_argument (type d) = true ->
  long_opt args i (long_token name None) (recmd a n st) =
  match pick a i n with
  | Some (t, j) => recmd (<[j := None]> a) n (with_long_word d t st)
  | None =>
      recmd a n
        (set_error
           (print_error (MsgMissingLong (default "" (long_name d)))
              (mark_found d st)))
  end.
Proof.
  intros Hname Hh Hv Hfind Hty.
  rewrite (long_option_shape name None _ i args Hname), Hfind.
  assert (String.eqb (long_token name None) "--help" = false) as ->.
  { apply String.eqb_neq. intros [= E]. apply Hh.
    revert E. clear. revert name.
    assert (forall s, s +:+ "" = s) as Happ.
    { induction s as [|c s IH]; [done|].
      change (String c s +:+ "") with (String c (s +:+ "")).
      by rewrite IH. }
    intros name. by rewrite Happ. }
  assert (String.eqb (long_token name None) "--version" = false) as ->.
  { apply String.eqb_neq. intros [= E]. apply Hv.
    revert E. clear. revert name.
    assert (forall s, s +:+ "" = s) as Happ.
    { induction s as [|c s IH]; [done|].
      change (String c s +:+ "") with (String c (s +:+ "")).
      by rewrite IH. }
    intros name. by rewrite Happ. }
  rewrite long_matched_valued by done.
  destruct (blind_mark_found d a n st) as [-> _].
  apply valued_recmd.
Qed.

Lemma stopper_with_long_word d word c :
  stopper_reached (with_long_word d word c) = stopper_reached c.
Proof.
  unfold with_long_word.
  destruct (blind_process_opt_arg d true word [] 0 (mark_found d c))
    as [_ ->].
  by destruct (blind_mark_found d [] 0 c) as [_ ->].
Qed.

Section LongForms.
Variable args : dooshki_args.
Variables prog name W : string.
Variable d : dooshki_opt.
Variable m : store.
Hypothesis name_plain : chars_all not_equals_sign name = true.
Hypothesis name_given : name <> "".
Hypothesis name_help : name <> "help".
Hypothesis name_version : name <> "version".
Hypothesis name_opt :
  List.find (long_name_begins name) (entries (opt_desc args)) = Some d.
Hypothesis name_word : takes_argument (type d) = true.
Hypothesis W_word : W <> "--".

Lemma long_token_plain_marker : long_token name None <> "--".
Proof.
  unfold long_token.
  change ("--" +:+ name +:+ "") with (String "-" (String "-" (name +:+ ""))).
  intros [= H]. apply name_given. by destruct name.
Qed.

Lemma separate_value_scan :
  scan args (command_line [prog; long_token name None; W] m) =
  recmd [Some prog; None; None] 3 (with_long_word d W (entry 0 [] m)).
Proof.
  pose proof W_word as HW. apply String.eqb_neq in HW.
  set (c0 := entry 0 [] m).
  set (tok := long_token name None).
  unfold scan, command_line. cbn [argc entry length].
  change (entry 3 (Some <$> [prog; tok; W]) m)
    with (recmd [Some prog; Some tok; Some W] 3 c0).
  change (3 - 1) with 2.
  rewrite scan_loop_S. change (stopper_reached (recmd _ 3 c0)) with false.
  cbv iota.
  rewrite (scan_step_long args 1 tok)
    by (try done; apply long_token_plain_marker).
  subst tok. rewrite (long_opt_word args 1 name d) by done.
  unfold pick. simpl next_arg. rewrite HW.
  change ([Some prog; Some (long_token name None); Some W] !! 2)
    with (Some (Some W)). cbv iota beta.
  change (set_argv _ (recmd _ 3 ?c)) with (recmd [Some prog; None; None] 3 c).
  rewrite scan_loop_S.
  change (stopper_reached (recmd _ 3 ?c)) with (stopper_reached c).
  rewrite stopper_with_long_word. change (stopper_reached c0) with false.
  cbv iota. rewrite scan_step_skip by done. done.
Qed.

Lemma inline_value_scan :
  scan args (command_line [prog; long_token name (Some W)] m) =
  recmd [Some prog; None] 2 (with_long_word d W (entry 0 [] m)).
Proof.
  set (c0 := entry 0 [] m).
  set (tok := long_token name (Some W)).
  unfold scan, command_line. cbn [argc entry length].
  change (entry 2 (Some <$> [prog; tok]) m)
    with (recmd [Some prog; Some tok] 2 c0).
  change (2 - 1) with 1.
  rewrite scan_loop_S. change (stopper_reached (recmd _ 2 c0)) with false.
  cbv iota.
  rewrite (scan_step_long args 1 tok)
    by (try done; apply long_token_with_value_marker).
  subst tok. rewrite (long_opt_inline args 1 name W d) by done.
  done.
Qed.

(** X9. For a long option of the table that takes a value, [--name W]
    and [--name=W] come to the same: the same storage, error lines,
    flags and outcome, and only the program name given back.  The word
    after [--name] is taken as the value whatever it looks like, an
    option included, as long as it is not the marker. *)
Theorem long_forms_agree :
  let r1 :=
    dooshki_args_parse args
      (command_line [prog; long_token name None; W] m) in
  let r2 :=
    dooshki_args_parse args
      (command_line [prog; long_token name (Some W)] m) in
  r1.1 = r2.1 /\ mem r1.2 = mem r2.2 /\ stderr r1.2 = stderr r2.2
  /\ show_help r1.2 = show_help r2.2
  /\ show_version r1.2 = show_version r2.2
  /\ errors_found r1.2 = errors_found r2.2
  /\ remaining r1.2 = [Some prog] /\ remaining r2.2 = [Some prog]
  /\ mem r1.2 = mem (with_long_word d W (entry 0 [] m)).
Proof.
  intros r1 r2. subst r1 r2. unfold dooshki_args_parse. cbn [fst snd].
  rewrite separate_value_scan, inline_value_scan.
  set (c := with_long_word d W (entry 0 [] m)).
  destruct (deflate_recmd [Some prog; None; None] 3 c)
    as (-> & -> & -> & -> & -> & _ & ->).
  destruct (deflate_recmd [Some prog; None] 2 c)
    as (-> & -> & -> & -> & -> & _ & ->).
  by split_and!.
Qed.

End LongForms.

(** ** Numerals in range and out of range *)

Lemma read_digits_value s acc :
  chars_all isdigit s = true ->
  read_digits s acc =
    (fold_left (fun a c => (10 * a + digit_val c)%Z)
       (list_ascii_of_string s) acc, "").
Proof.
  revert acc. induction s as [|c r IH]; intros acc; simpl; [done|].
  intros [-> H]%andb_true_iff. by apply IH.
Qed.

Lemma digit_not_sign_or_space c :
  isdigit c = true ->
  isspace c = false /\ Ascii.eqb c "-" = false /\ Ascii.eqb c "+" = false.
Proof.
  intros Hc. split_and!.
  - unfold isspace, isdigit in *.
    apply andb_true_iff in Hc as [H1%Nat.leb_le H2%Nat.leb_le].
    apply orb_false_iff. split; [apply Nat.eqb_neq; lia|].
    apply andb_false_iff. right. apply Nat.leb_gt. lia.
  - by destruct (Ascii.eqb_spec c "-") as [->|].
  - by destruct (Ascii.eqb_spec c "+") as [->|].
Qed.

Lemma strtoul_digits s :
  chars_all isdigit s = true -> at_end s = false ->
  strtoul s =
    if (ULONG_MAX <? numeral_value s)%Z then (ULONG_MAX, "", true)
    else (numeral_value s, "", false).
Proof.
  intros Hd He. unfold strtoul, numeral_value.
  destruct s as [|c r]; [done|]. pose proof Hd as Hd'. simpl in Hd'.
  apply andb_true_iff in Hd' as [Hc Hr].
  destruct (digit_not_sign_or_space c Hc) as (Hs & Hm & Hp).
  cbn [skip_spaces]. rewrite Hs. cbn [read_sign]. rewrite Hm, Hp.
  cbn [starts_with_digit]. rewrite Hc.
  by rewrite (read_digits_value (String c r) 0 Hd).
Qed.

Lemma strtol_digits s :
  chars_all isdigit s = true -> at_end s = false ->
  strtol s =
    if (LONG_MAX <? numeral_value s)%Z then (LONG_MAX, "", true)
    else (numeral_value s, "", false).
Proof.
  intros Hd He. unfold strtol, numeral_value.
  destruct s as [|c r]; [done|]. pose proof Hd as Hd'. simpl in Hd'.
  apply andb_true_iff in Hd' as [Hc Hr].
  destruct (digit_not_sign_or_space c Hc) as (Hs & Hm & Hp).
  cbn [skip_spaces]. rewrite Hs. cbn [read_sign]. rewrite Hm, Hp.
  cbn [starts_with_digit]. rewrite Hc.
  by rewrite (read_digits_value (String c r) 0 Hd).
Qed.

Lemma strtol_minus_digits s :
  chars_all isdigit s = true -> at_end s = false ->
  strtol (String "-" s) =
    if (- numeral_value s <? LONG_MIN)%Z then (LONG_MIN, "", true)
    else ((- numeral_value s)%Z, "", false).
Proof.
  intros Hd He. unfold strtol, numeral_value.
  change (skip_spaces (String "-" s)) with (String "-" s).
  change (read_sign (String "-" s)) with (true, s).
  destruct s as [|c r]; [done|]. pose proof Hd as Hd'. simpl in Hd'.
  apply andb_true_iff in Hd' as [Hc Hr].
  cbn [starts_with_digit]. rewrite Hc.
  by rewrite (read_digits_value (String c r) 0 Hd).
Qed.

Lemma strtoul_space_minus_digits s :
  chars_all isdigit s = true -> at_end s = false ->
  strtoul (String " " (String "-" s)) =
    if (ULONG_MAX <? numeral_value s)%Z then (ULONG_MAX, "", true)
    else (((ULONG_MAX + 1 - numeral_value s) mod (ULONG_MAX + 1))%Z,
          "", false).
Proof.
  intros Hd He. unfold strtoul, numeral_value.
  change (skip_spaces (String " " (String "-" s))) with (String "-" s).
  change (read_sign (String "-" s)) with (true, s).
  destruct s as [|c r]; [done|]. pose proof Hd as Hd'. simpl in Hd'.
  apply andb_true_iff in Hd' as [Hc Hr].
  cbn [starts_with_digit]. rewrite Hc.
  by rewrite (read_digits_value (String c r) 0 Hd).
Qed.

(** X10. Given a text of decimal digits that denotes a number up to
    [ULONG_MAX], that bound included, the unsigned conversion succeeds
    without a message and stores exactly that number. *)
Theorem uint_in_range_stored d p n s st :
  chars_all isdigit s = true -> at_end s = false ->
  (numeral_value s <= ULONG_MAX)%Z ->
  process_uint_arg d p n s st =
    (true, poke (opt_storage d) (CULong (numeral_value s)) st).
Proof.
  intros Hd He Hv. unfold process_uint_arg.
  rewrite (strtoul_digits s Hd He).
  destruct (Z.ltb_spec ULONG_MAX (numeral_value s)); [lia|].
  destruct s as [|c r]; [done|]. simpl in Hd.
  apply andb_true_iff in Hd as [Hc _].
  destruct (digit_not_sign_or_space c Hc) as (_ & Hm & _).
  cbn [at_end first_char negb orb]. rewrite Hm. by rewrite andb_false_r.
Qed.

(** X11. The signed conversion accepts a text of digits, or a minus sign
    and digits, whose number lies between [LONG_MIN] and [LONG_MAX], both
    bounds included: it succeeds without a message and stores exactly
    that number. *)
Theorem int_in_range_stored d p n s st :
  chars_all isdigit s = true -> at_end s = false ->
  ((numeral_value s <= LONG_MAX)%Z ->
   process_int_arg d p n s st =
     (true, poke (opt_storage d) (CLong (numeral_value s)) st))
  /\ ((LONG_MIN <= - numeral_value s)%Z ->
      process_int_arg d p n (String "-" s) st =
        (true, poke (opt_storage d) (CLong (- numeral_value s)) st)).
Proof.
  intros Hd He. split; intros Hv; unfold process_int_arg.
  - rewrite (strtol_digits s Hd He).
    destruct (Z.ltb_spec LONG_MAX (numeral_value s)); [lia|].
    cbn [at_end negb]. by rewrite !andb_false_r.
  - rewrite (strtol_minus_digits s Hd He).
    destruct (Z.ltb_spec (- numeral_value s) LONG_MIN); [lia|].
    cbn [at_end negb]. by rewrite !andb_false_r.
Qed.

(** X12. Out of range, the signed conversion fails with its own message
    on each side: a number above [LONG_MAX] is reported as too large and
    [LONG_MAX] is left in the destination; a number below [LONG_MIN] is
    reported as too small and [LONG_MIN] is left there. *)
Theorem int_out_of_range_reported d p n s st :
  chars_all isdigit s = true -> at_end s = false ->
  LONG_MIN <> LONG_MAX ->
  ((LONG_MAX < numeral_value s)%Z ->
   process_int_arg d p n s st =
     (false, print_error (MsgTooLarge s p n)
               (poke (opt_storage d) (CLong LONG_MAX) st)))
  /\ ((- numeral_value s < LONG_MIN)%Z ->
      process_int_arg d p n (String "-" s) st =
        (false, print_error (MsgTooSmall (String "-" s) p n)
                  (poke (opt_storage d) (CLong LONG_MIN) st))).
Proof.
  intros Hd He Hlim. split; intros Hv; unfold process_int_arg.
  - rewrite (strtol_digits s Hd He).
    destruct (Z.ltb_spec LONG_MAX (numeral_value s)); [|lia].
    cbn [at_end negb]. by rewrite Z.eqb_refl.
  - rewrite (strtol_minus_digits s Hd He).
    destruct (Z.ltb_spec (- numeral_value s) LONG_MIN); [|lia].
    cbn [at_end negb].
    destruct (Z.eqb_spec LONG_MIN LONG_MAX); [done|].
    cbn [andb]. by rewrite Z.eqb_refl.
Qed.

(** X13. The unsigned conversion looks for a minus sign in the first
    character only: with white space in front of the sign the text is
    accepted without a message, and the destination receives the number
    negated modulo [ULONG_MAX + 1]. *)
Theorem uint_space_minus_accepted d p n s st :
  chars_all isdigit s = true -> at_end s = false ->
  (numeral_value s <= ULONG_MAX)%Z ->
  process_uint_arg d p n (String " " (String "-" s)) st =
    (true,
     poke (opt_storage d)
       (CULong ((ULONG_MAX + 1 - numeral_value s) mod (ULONG_MAX + 1))) st).
Proof.
  intros Hd He Hv. unfold process_uint_arg.
  rewrite (strtoul_space_minus_digits s Hd He).
  destruct (Z.ltb_spec ULONG_MAX (numeral_value s)); [lia|].
  cbn [at_end first_char negb orb].
  change (Ascii.eqb " " "-") with false. by rewrite andb_false_r.
Qed.

Lemma strtol_rest_odd s :
  chars_all numeral_char s = false -> at_end (strtol s).1.2 = false.
Proof.
  intros H. unfold strtol.
  pose proof (read_sign_odd _ (skip_spaces_odd _ H)) as H1.
  destruct (read_sign (skip_spaces s)) as [neg body]. simpl in H1.
  destruct (starts_with_digit body).
  - pose proof (read_digits_odd body 0 H1) as H2.
    destruct (read_digits body 0) as [v rest]. simpl in H2.
    destruct neg;
      [destruct (- v <? LONG_MIN)%Z | destruct (LONG_MAX <? v)%Z];
      simpl; by eapply chars_all_false_not_end.
  - simpl. by eapply chars_all_false_not_end.
Qed.

(** X14. Given a text with a character no numeral is written with, the
    signed conversion fails with exactly the not-an-integer message, and
    the destination holds what [strtol] returned for the text. *)
Theorem int_non_numeric_reported d p n a st :
  chars_all numeral_char a = false ->
  process_int_arg d p n a st =
    (false, print_error (MsgNotInt a p n)
              (poke (opt_storage d) (CLong (strtol a).1.1) st)).
Proof.
  intros H. pose proof (strtol_rest_odd a H) as Hr.
  unfold process_int_arg. destruct (strtol a) as [[v rest] e].
  simpl in *. by rewrite Hr.
Qed.

(** ** Texts *)

Lemma append_cons c (a b : string) : String c a +:+ b = String c (a +:+ b).
Proof. reflexivity. Qed.

Lemma append_assoc (a b c : string) : (a +:+ b) +:+ c = a +:+ (b +:+ c).
Proof.
  induction a as [|x a IH]; [done|]. rewrite !append_cons. by f_equal.
Qed.

Lemma append_nil_r (a : string) : a +:+ "" = a.
Proof.
  induction a as [|x a IH]; [done|]. rewrite !append_cons. by f_equal.
Qed.

Lemma length_append (a b : string) :
  String.length (a +:+ b) = String.length a + String.length b.
Proof.
  induction a as [|x a IH]; [done|]. rewrite !append_cons. simpl.
  by f_equal.
Qed.

Lemma strlen_append (a b : string) :
  strlen (a +:+ b) = (strlen a + strlen b)%N.
Proof. unfold strlen. rewrite length_append. lia. Qed.

Lemma cursor_append col a b :
  cursor col (a +:+ b) = cursor (cursor col a) b.
Proof.
  revert col. induction a as [|x a IH]; intros col; [done|].
  rewrite append_cons. cbn [cursor]. apply IH.
Qed.

Lemma reach_append col a b :
  reach col (a +:+ b) = N.max (reach col a) (reach (cursor col a) b).
Proof.
  revert col. induction a as [|x a IH]; intros col.
  - change ("" +:+ b) with b. cbn [cursor reach].
    assert (col <= reach col b)%N; [|lia].
    destruct b; simpl; lia.
  - rewrite append_cons. cbn [cursor reach]. rewrite IH. lia.
Qed.

Lemma reach_ge col a : (col <= reach col a)%N.
Proof. destruct a; simpl; lia. Qed.

Lemma cursor_le_reach col a : (cursor col a <= reach col a)%N.
Proof.
  revert col. induction a as [|x a IH]; intros col; simpl; [lia|].
  etrans; [apply IH|]. lia.
Qed.

Lemma space_is_newline_or_not c : Ascii.eqb c LF = true -> isspace c = true.
Proof. by intros ->%Ascii.eqb_eq. Qed.

Lemma not_space_not_newline x :
  chars_all not_space x = true -> chars_all not_newline x = true.
Proof.
  induction x as [|c x IH]; [done|]. cbn [chars_all].
  intros [Hc Hx]%andb_true_iff. rewrite (IH Hx), andb_true_r.
  unfold not_newline. destruct (Ascii.eqb c LF) eqn:E; [|done].
  apply space_is_newline_or_not in E. unfold not_space in Hc.
  by rewrite E in Hc.
Qed.

Lemma cursor_line col x :
  chars_all not_newline x = true ->
  cursor col x = (col + strlen x)%N /\ reach col x = (col + strlen x)%N.
Proof.
  revert col. induction x as [|c x IH]; intros col.
  - unfold strlen. simpl. lia.
  - cbn [chars_all cursor reach]. intros [Hc Hx]%andb_true_iff.
    unfold not_newline in Hc. apply negb_true_iff in Hc. rewrite Hc.
    destruct (IH (col + 1)%N Hx) as [-> ->].
    unfold strlen. simpl String.length. lia.
Qed.

Lemma cursor_word col x :
  chars_all not_space x = true ->
  cursor col x = (col + strlen x)%N /\ reach col x = (col + strlen x)%N.
Proof. intros H. by apply cursor_line, not_space_not_newline. Qed.

Lemma cursor_spaces col k :
  cursor col (spaces k) = (col + N.of_nat k)%N
  /\ reach col (spaces k) = (col + N.of_nat k)%N.
Proof.
  revert col. induction k as [|k IH]; intros col.
  - simpl. lia.
  - cbn [spaces cursor reach]. change (Ascii.eqb " " LF) with false.
    cbv iota. destruct (IH (col + 1)%N) as [-> ->]. lia.
Qed.

Lemma chars_all_spaces k : chars_all isspace (spaces k) = true.
Proof. induction k as [|k IH]; [done|]. simpl. exact IH. Qed.

(** ** Moving to a column *)

Lemma pad_loop_spec k c : pad_loop k c = (spaces k, (c + N.of_nat k)%N).
Proof.
  revert c. induction k as [|k IH]; intros c.
  - simpl. f_equal. lia.
  - cbn [pad_loop spaces]. rewrite IH. f_equal. lia.
Qed.

Lemma set_column_unfold new_col column space_needed :
  set_column new_col column space_needed =
    if (new_col <? column)%N || (space_needed && (new_col =? column)%N)
    then (nl +:+ spaces (N.to_nat new_col), new_col)
    else (spaces (N.to_nat (new_col - column)), new_col).
Proof.
  unfold set_column.
  destruct (N.ltb_spec new_col column) as [Hlt|Hge]; cbn [orb].
  - rewrite pad_loop_spec. f_equal; [|lia]. by rewrite N.sub_0_r.
  - destruct (space_needed && (new_col =? column)%N).
    + rewrite pad_loop_spec. f_equal; [|lia]. by rewrite N.sub_0_r.
    + rewrite pad_loop_spec. f_equal. lia.
Qed.

Lemma set_column_spec new_col column space_needed :
  let r := set_column new_col column space_needed in
  r.2 = new_col
  /\ cursor column r.1 = new_col
  /\ reach column r.1 = N.max column new_col
  /\ chars_all isspace r.1 = true
  /\ (space_needed = true -> at_end r.1 = false).
Proof.
  intros r. subst r. rewrite set_column_unfold.
  destruct (N.ltb_spec new_col column) as [Hlt|Hge]; cbn [orb].
  - cbn [fst snd]. change (nl +:+ ?x) with (String LF x).
    cbn [cursor reach chars_all at_end]. rewrite Ascii.eqb_refl.
    destruct (cursor_spaces 0 (N.to_nat new_col)) as [-> ->].
    rewrite chars_all_spaces. split_and!; try done; lia.
  - destruct space_needed; cbn [andb].
    + destruct (N.eqb_spec new_col column) as [->|Hne]; cbn [fst snd].
      * change (nl +:+ ?x) with (String LF x).
        cbn [cursor reach chars_all at_end]. rewrite Ascii.eqb_refl.
        destruct (cursor_spaces 0 (N.to_nat column)) as [-> ->].
        rewrite chars_all_spaces. split_and!; try done; lia.
      * destruct (cursor_spaces column (N.to_nat (new_col - column)))
          as [-> ->].
        rewrite chars_all_spaces. split_and!; try done; try lia.
        intros _. destruct (N.to_nat (new_col - column)) eqn:E; [lia|done].
    + cbn [fst snd].
      destruct (cursor_spaces column (N.to_nat (new_col - column)))
        as [-> ->].
      rewrite chars_all_spaces. split_and!; try done; lia.
Qed.

(** X15. [set_column] always arrives: the counter and the cursor on the
    screen both end at the requested column, only white space is
    written, the cursor never gets beyond the larger of the two columns,
    and when a space is needed at least one character is written. *)
Theorem set_column_arrives new_col column space_needed :
  let r := set_column new_col column space_needed in
  r.2 = new_col
  /\ cursor column r.1 = new_col
  /\ reach column r.1 = N.max column new_col
  /\ chars_all isspace r.1 = true
  /\ (space_needed = true -> at_end r.1 = false).
Proof. apply set_column_spec. Qed.

(** ** Words *)

Lemma skip_spaces_length s : String.length (skip_spaces s) <= String.length s.
Proof.
  induction s as [|c r IH]; simpl; [done|].
  destruct (isspace c); simpl; lia.
Qed.

Lemma skip_spaces_in_word s :
  in_word (skip_spaces s) = negb (at_end (skip_spaces s)).
Proof.
  induction s as [|c r IH]; simpl; [done|].
  destruct (isspace c) eqn:E; [done|]. unfold in_word. simpl. by rewrite E.
Qed.

Lemma skip_spaces_split s :
  exists sp, s = sp +:+ skip_spaces s /\ chars_all isspace sp = true.
Proof.
  induction s as [|c r (sp & IH1 & IH2)]; simpl; [by exists ""|].
  destruct (isspace c) eqn:E; [|by exists ""].
  exists (String c sp). rewrite append_cons. cbn [chars_all].
  rewrite E, IH2. split; [|done]. by f_equal.
Qed.

Lemma in_word_cons c r : in_word (String c r) = negb (isspace c).
Proof. done. Qed.

Lemma word_at_split w :
  w = word_at w +:+ skip_word w
  /\ chars_all not_space (word_at w) = true
  /\ in_word (skip_word w) = false
  /\ String.length w = String.length (word_at w) + String.length (skip_word w).
Proof.
  induction w as [|c r (IH1 & IH2 & IH3 & IH4)]; simpl; [done|].
  destruct (isspace c) eqn:E.
  - simpl. rewrite in_word_cons, E. done.
  - rewrite append_cons. cbn [chars_all String.length].
    unfold not_space at 1. rewrite E, IH2, IH3. simpl.
    split_and!; try done; [by f_equal | lia].
Qed.

Lemma word_at_in_word w : in_word w = true -> at_end (word_at w) = false.
Proof.
  destruct w as [|c r]; [done|]. rewrite in_word_cons. simpl.
  by destruct (isspace c).
Qed.

Lemma substring_word w :
  substring 0 (String.length w - String.length (skip_word w)) w = word_at w.
Proof.
  induction w as [|c r IH]; [done|].
  cbn [skip_word word_at]. destruct (isspace c).
  - by rewrite Nat.sub_diag.
  - destruct (word_at_split r) as (_ & _ & _ & Hl).
    replace (String.length (String c r) - String.length (skip_word r))
      with (S (String.length r - String.length (skip_word r)))
      by (simpl; lia).
    cbn [substring]. by rewrite IH.
Qed.

(** X16. [find_word] keeps its contract: it skips white space only; the
    text at the start index is at the end of the string or at a
    character that is no white space; the word between the two indices
    holds no white space; the text at the end index is at the end of the
    string or at a white space; and when no word is found the two
    indices are equal. *)
Theorem find_word_contract s :
  let w := (find_word s).1 in
  let e := (find_word s).2 in
  exists sp word,
    s = sp +:+ w /\ chars_all isspace sp = true
    /\ w = word +:+ e /\ chars_all not_space word = true
    /\ in_word w = negb (at_end w)
    /\ in_word e = false
    /\ at_end word = at_end w
    /\ (at_end w = true -> e = w).
Proof.
  intros w e. subst w e. unfold find_word. cbn [fst snd].
  destruct (skip_spaces_split s) as (sp & Hs & Hsp).
  destruct (word_at_split (skip_spaces s)) as (Hw & Hn & He & _).
  exists sp, (word_at (skip_spaces s)).
  split_and!; try done.
  - apply skip_spaces_in_word.
  - pose proof (skip_spaces_in_word s) as Hi.
    destruct (skip_spaces s) as [|c r]; [done|].
    rewrite in_word_cons in Hi. simpl in *. by destruct (isspace c).
  - by destruct (skip_spaces s).
Qed.

Lemma word_list_spaces sp t :
  chars_all isspace sp = true -> word_list (sp +:+ t) = word_list t.
Proof.
  induction sp as [|c r IH]; simpl; [done|].
  intros [-> H]%andb_true_iff. by apply IH.
Qed.

Lemma word_list_skip_spaces s : word_list (skip_spaces s) = word_list s.
Proof.
  destruct (skip_spaces_split s) as (sp & Hs & Hsp).
  rewrite Hs at 2. by rewrite word_list_spaces.
Qed.

Lemma in_word_append x t :
  at_end x = false -> in_word (x +:+ t) = in_word x.
Proof. by destruct x. Qed.

Lemma word_list_word x t :
  at_end x = false -> chars_all not_space x = true -> in_word t = false ->
  word_list (x +:+ t) = x :: word_list t.
Proof.
  induction x as [|c r IH]; [done|]. intros _ H Ht.
  cbn [chars_all] in H. apply andb_true_iff in H as [Hc Hr].
  unfold not_space in Hc. apply negb_true_iff in Hc.
  change (String c r +:+ t) with (String c (r +:+ t)).
  cbn [word_list]. rewrite Hc.
  destruct r as [|c' r'].
  - change ("" +:+ t) with t. by rewrite Ht.
  - rewrite in_word_append by done. rewrite in_word_cons.
    cbn [chars_all] in Hr. apply andb_true_iff in Hr as [Hc' Hr'].
    unfold not_space in Hc'. rewrite Hc'.
    rewrite IH; try done.
    cbn [chars_all]. unfold not_space at 1. by rewrite Hc', Hr'.
Qed.

Lemma word_list_in_word w :
  in_word w = true ->
  word_list w = word_at w :: word_list (skip_word w).
Proof.
  intros Hw. destruct (word_at_split w) as (Hs & Hn & He & _).
  rewrite Hs at 1. apply word_list_word; try done.
  by apply word_at_in_word.
Qed.

Lemma skip_word_shorter w :
  in_word w = true -> String.length (skip_word w) < String.length w.
Proof.
  intros Hw. destruct (word_at_split w) as (_ & _ & _ & Hl).
  pose proof (word_at_in_word w Hw).
  destruct (word_at w); [done|]. simpl in Hl. lia.
Qed.

Lemma word_list_append t u :
  in_word u = false -> word_list (t +:+ u) = word_list t ++ word_list u.
Proof.
  intros Hu. induction t as [|x t IHt]; [done|].
  rewrite append_cons. cbn [word_list].
  destruct (isspace x); [done|].
  destruct t as [|y t'].
  - change ("" +:+ u) with u. by rewrite Hu.
  - rewrite in_word_append by done. rewrite IHt.
    destruct (in_word (String y t')) eqn:E; [|done].
    rewrite (word_list_in_word _ E). done.
Qed.

(** ** The demo program's callback *)

Lemma streq_ci_lower a b : streq_ci a b = true <-> lower a = lower b.
Proof.
  revert b. induction a as [|x a IH]; intros [|y b]; simpl; try done.
  rewrite andb_true_iff, IH, Ascii.eqb_eq. split.
  - by intros [-> ->].
  - intros H. by injection H.
Qed.

(** X17. [streq_ci] is equality up to the case of the letters A to Z:
    it returns 1 exactly when the two texts are the same once put in
    lower case; in particular the texts then have the same length. *)
Theorem streq_ci_same_lower a b :
  (streq_ci a b = true <-> lower a = lower b)
  /\ (streq_ci a b = true -> String.length a = String.length b).
Proof.
  split; [apply streq_ci_lower|].
  intros H%streq_ci_lower. revert b H.
  induction a as [|x a IH]; intros [|y b] H; simpl in *; try done.
  injection H as _ H. f_equal. by apply IH.
Qed.

(** X18. [quality_arg_decode] accepts exactly the texts that read good,
    bad or ugly in lower case; an accepted text writes only the
    destination, with the quality that [main] prints back as that text
    in lower case; a rejected text leaves the store as it is. *)
Theorem quality_decode_round_trip text storage pre name data (m : store) :
  let r := quality_arg_decode (Some text) storage pre name data m in
  (r.1 = true <-> lower text ∈ ["good"; "bad"; "ugly"])
  /\ (r.1 = true ->
      exists q, r.2 = <[storage := CUser q]> m
                /\ quality_str q = lower text)
  /\ (r.1 = false -> r.2 = m).
Proof.
  intros r. subst r. unfold quality_arg_decode.
  change (default "" (Some text)) with text.
  destruct (streq_ci text "good") eqn:E1;
    [|destruct (streq_ci text "bad") eqn:E2;
      [|destruct (streq_ci text "ugly") eqn:E3]]; cbn [fst snd].
  - apply streq_ci_lower in E1. change (lower "good") with "good" in E1.
    rewrite E1. split_and!; [|by exists 0%Z|done].
    split; [intros _; set_solver|done].
  - apply streq_ci_lower in E2. change (lower "bad") with "bad" in E2.
    rewrite E2. split_and!; [|by exists 1%Z|done].
    split; [intros _; set_solver|done].
  - apply streq_ci_lower in E3. change (lower "ugly") with "ugly" in E3.
    rewrite E3. split_and!; [|by exists 2%Z|done].
    split; [intros _; set_solver|done].
  - split_and!; [|done|done]. split; [done|].
    intros H. exfalso.
    assert (forall t, streq_ci text t = false -> lower text <> lower t) as Hn.
    { intros t Ht Hl. apply streq_ci_lower in Hl. congruence. }
    apply Hn in E1, E2, E3.
    change (lower "good") with "good" in E1.
    change (lower "bad") with "bad" in E2.
    change (lower "ugly") with "ugly" in E3.
    repeat (apply elem_of_cons in H as [H|H]; [done|]).
    by apply elem_of_nil in H.
Qed.

(** ** Which tokens stay *)





































(** ** Which round sets a flag *)

Lemma flags_take_arg i st t st' :
  take_arg i st = Some (t, st') -> flags st' = flags st.
Proof. intros H. apply take_arg_spec in H as (j & _ & _ & _ & ->). done. Qed.

Lemma flags_converted d l a st :
  flags (flag_failure (process_opt_arg d l a st)) = flags st.
Proof.
  destruct (process_opt_arg_frame d l a st) as (_ & (_ & _ & Hh & Hv) & _).
  unfold flags. cbn zeta in Hh, Hv. by rewrite Hh, Hv.
Qed.

Lemma flags_called d o p n st :
  flags (flag_failure (run_callback d o p n st)) = flags st.
Proof.
  destruct (run_callback_frame d o p n st) as (_ & (_ & _ & Hh & Hv) & _).
  unfold flags. cbn zeta in Hh, Hv. by rewrite Hh, Hv.
Qed.

Lemma flags_mark_found d st : flags (mark_found d st) = flags st.
Proof.
  destruct (mark_found_frame d st) as (_ & (_ & _ & Hh & Hv) & _).
  unfold flags. by rewrite Hh, Hv.
Qed.

Lemma flags_valued d l msg i st : flags (valued d l msg i st) = flags st.
Proof.
  unfold valued. destruct (take_arg i st) as [[a st']|] eqn:E; [|done].
  rewrite flags_converted. by eapply flags_take_arg.
Qed.

Lemma flags_long_matched d i o st :
  flags (long_matched d i o st) = flags st.
Proof.
  destruct (takes_argument (type d)) eqn:Ht.
  - destruct o as [v|].
    + unfold long_matched. destruct (type d); try done;
        by rewrite flags_converted, flags_mark_found.
    + rewrite long_matched_valued by done.
      by rewrite flags_valued, flags_mark_found.
  - unfold long_matched.
    destruct (type d); try done; destruct o; try done;
      try (by rewrite <- (flags_mark_found d st));
      by rewrite flags_called, flags_mark_found.
Qed.

Lemma flags_short_matched d i st :
  flags (short_matched d i st) = flags st.
Proof.
  destruct (takes_argument (type d)) eqn:Ht.
  - rewrite short_matched_valued by done.
    by rewrite flags_valued, flags_mark_found.
  - unfold short_matched.
    destruct (type d); try done;
      try (by rewrite <- (flags_mark_found d st));
      by rewrite flags_called, flags_mark_found.
Qed.

Lemma flags_after_excl st t :
  flags_excl st ->
  forall st', flags st' = flags_after (flags st) t -> flags_excl st'.
Proof.
  unfold flags_excl, flags, flags_after. intros H st'. cbn [fst snd].
  destruct (show_help st), (show_version st), t as [[|]|]; try done;
    cbn [orb]; by intros [= -> ->].
Qed.

Lemma flags_after_set f t : f.1 || f.2 = true -> flags_after f t = f.
Proof. unfold flags_after. by intros ->. Qed.

Lemma short_char_flags args i c st :
  flags_excl st ->
  flags (short_char args i c st) =
    flags_after (flags st) (cluster_trigger (String c "")).
Proof.
  unfold flags_excl. intros He. unfold short_char. cbn [cluster_trigger].
  destruct (Ascii.eqb c "h").
  { unfold flags, flags_after. cbn [fst snd].
    destruct (show_help st) eqn:Eh, (show_version st) eqn:Ev; try done;
      simpl; by rewrite ?Eh, ?Ev. }
  destruct (Ascii.eqb c "V").
  { unfold flags, flags_after. cbn [fst snd].
    destruct (show_help st) eqn:Eh, (show_version st) eqn:Ev; try done;
      simpl; by rewrite ?Eh, ?Ev. }
  assert (flags_after (flags st) None = flags st) as ->.
  { unfold flags, flags_after. cbn [fst snd].
    by destruct (show_help st), (show_version st). }
  destruct (short_search _ _); [apply flags_short_matched|done].
Qed.

Lemma flags_after_step (f : bool * bool) c cs :
  flags_after (flags_after f (cluster_trigger (String c "")))
    (cluster_trigger cs) =
  flags_after f (cluster_trigger (String c cs)).
Proof.
  unfold flags_after. cbn [cluster_trigger].
  destruct f as [[|] [|]]; cbn [fst snd orb]; try done;
    destruct (Ascii.eqb c "h"); cbn [fst snd orb]; try done;
    destruct (Ascii.eqb c "V"); cbn [fst snd orb]; try done.
Qed.

Lemma short_loop_flags args i chars : forall st,
  flags_excl st ->
  flags (short_loop args i chars st) =
    flags_after (flags st) (cluster_trigger chars).
Proof.
  induction chars as [|c cs IH]; intros st He.
  - cbn [short_loop cluster_trigger]. unfold flags, flags_after.
    cbn [fst snd]. by destruct (show_help st), (show_version st).
  - cbn [short_loop]. pose proof (short_char_flags args i c st He) as Hc.
    rewrite IH by (by eapply flags_after_excl). rewrite Hc.
    apply flags_after_step.
Qed.

Lemma long_opt_flags args i token st :
  first_char token = "-"%char ->
  first_char (tail_from 1 token) = "-"%char ->
  flags (long_opt args i token st) =
    flags_after (flags st)
      (if String.eqb token "--help" then Some Help
       else if String.eqb token "--version" then Some Version
       else None)
  \/ show_help st && show_version st = true.
Proof.
  intros H1 H2. unfold long_opt.
  destruct (show_help st) eqn:Eh, (show_version st) eqn:Ev;
    [by right| | |]; left.
  all: destruct (String.eqb token "--help");
    [unfold flags, flags_after; simpl; by rewrite ?Eh, ?Ev|].
  all: destruct (String.eqb token "--version");
    [unfold flags, flags_after; simpl; by rewrite ?Eh, ?Ev|].
  all: assert (flags_after (flags st) None = flags st) as ->
    by (unfold flags, flags_after; cbn [fst snd]; by rewrite Eh, Ev).
  all: destruct (long_search _ _ _); [apply flags_long_matched|done].
Qed.

(** A round of the scanning loop changes the flags as the trigger it
    meets says. *)
Lemma scan_step_flags args i st e :
  flags_excl st -> argv st !! i = Some e ->
  flags (scan_step args i st) = flags_after (flags st) (trigger e).
Proof.
  intros He Hi. rewrite scan_step_unfold, Hi.
  assert (flags_after (flags st) None = flags st) as Hnone.
  { unfold flags, flags_after. cbn [fst snd].
    by destruct (show_help st), (show_version st). }
  unfold trigger. destruct e as [token|]; [|by rewrite Hnone].
  destruct (Ascii.eqb (first_char token) "-") eqn:E1; cbn [negb];
    [|by rewrite Hnone].
  apply Ascii.eqb_eq in E1.
  change (flags (set_argv ?a ?s)) with (flags s).
  unfold dash_token.
  destruct (Ascii.eqb (first_char (tail_from 1 token)) "-") eqn:E2.
  - apply Ascii.eqb_eq in E2.
    destruct (at_end (tail_from 2 token)) eqn:E3.
    + assert (token = "--") as ->
        by (apply marker_tests; by rewrite ?E1, ?E2, ?Ascii.eqb_refl).
      change (String.eqb "--" "--help") with false.
      change (String.eqb "--" "--version") with false. cbv iota.
      by rewrite Hnone.
    + destruct (long_opt_flags args i token st E1 E2) as [->|Hb].
      * by destruct (String.eqb token "--help"),
             (String.eqb token "--version").
      * unfold flags_excl in He. congruence.
  - rewrite short_loop_flags by done.
    destruct (String.eqb_spec token "--help") as [->|_]; [done|].
    by destruct (String.eqb_spec token "--version") as [->|_].
Qed.

Lemma rounds_S args r n a m :
  S r <= n - 1 ->
  stopper_reached (rounds args r (entry n a m)) = false ->
  rounds args (S r) (entry n a m) =
  scan_step args (S r) (rounds args r (entry n a m)).
Proof.
  intros Hr Hs. unfold rounds in *. cbn [argc entry] in *.
  rewrite Nat.min_l in Hs by lia. rewrite Nat.min_l by lia.
  rewrite Nat.min_l by lia.
  replace (S r) with (r + 1) at 1 by lia.
  rewrite scan_loop_add, scan_loop_S, Hs. cbn [scan_loop]. done.
Qed.

(** C7. At every point of a parse call the help flag and the version
    flag are not both set, and a flag that is set stays set while the
    other stays clear.  A round of the scanning loop changes the flags
    exactly as the entry it meets says: with both flags clear, [--help]
    or a cluster whose first built-in character is [h] sets the help
    flag, [--version] or a cluster whose first built-in character is
    [V] sets the version flag, and any other entry sets none; with a
    flag set, no entry changes anything.  So the trigger the scan meets
    first decides the flags of every later state. *)
Theorem help_version_first_wins args n a m r k :
  let s := rounds args r (entry n a m) in
  let s' := rounds args (r + k) (entry n a m) in
  show_help s && show_version s = false
  /\ (show_help s = false \/
      (show_help s' = true /\ show_version s' = false))
  /\ (show_version s = false \/
      (show_version s' = true /\ show_help s' = false))
  /\ (forall i chars,
        let c := short_loop args i chars s in
        show_help c && show_version c = false
        /\ (show_help s = false \/ show_help c = true)
        /\ (show_version s = false \/ show_version c = true))
  /\ (forall i st,
        show_help (long_opt args i "--help" st) =
          show_help st || negb (show_version st)
        /\ show_version (long_opt args i "--help" st) = show_version st
        /\ show_version (long_opt args i "--version" st) =
          show_version st || negb (show_help st)
        /\ show_help (long_opt args i "--version" st) = show_help st
        /\ show_help (short_char args i "h" st) =
          show_help st || negb (show_version st)
        /\ show_version (short_char args i "h" st) = show_version st
        /\ show_version (short_char args i "V" st) =
          show_version st || negb (show_help st)
        /\ show_help (short_char args i "V" st) = show_help st)
  /\ (forall e,
        S r <= n - 1 -> stopper_reached s = false ->
        argv s !! S r = Some e ->
        flags (rounds args (S r) (entry n a m)) =
          flags_after (flags s) (trigger e))
  /\ (forall e,
        1 <= k -> S r <= n - 1 -> stopper_reached s = false ->
        argv s !! S r = Some e ->
        flags s = (false, false) ->
        match trigger e with
        | Some Help => flags s' = (true, false)
        | Some Version => flags s' = (false, true)
        | None => True
        end).
Proof.
  intros s s'.
  destruct (flags_never_both args n a m r k)
    as (H1 & H2 & H3 & H4 & H5).
  split_and!; try done.
  - intros e Hr Hs He. rewrite rounds_S by done.
    by apply scan_step_flags.
  - intros e Hk Hr Hs He Hf.
    pose proof (scan_step_flags args (S r) (rounds args r (entry n a m)) e
                  H1 He) as Hstep.
    rewrite <- rounds_S in Hstep by done. fold s in Hstep.
    rewrite Hf in Hstep.
    destruct (flags_never_both args n a m (S r) (k - 1))
      as (_ & G2 & G3 & _).
    cbn zeta in G2, G3.
    replace (S r + (k - 1)) with (r + k) in G2, G3 by lia. fold s' in G2, G3.
    unfold flags in Hstep |- *. unfold flags_after in Hstep.
    cbn [fst snd orb] in Hstep.
    destruct (trigger e) as [[|]|]; [| |done].
    + injection Hstep as Eh Ev. rewrite Eh in G2.
      destruct G2 as [|[-> ->]]; done.
    + injection Hstep as Eh Ev. rewrite Ev in G3.
      destruct G3 as [|[-> ->]]; done.
Qed.

End Properties.

(** * Properties of the help screen *)

Section ScreenProperties.
Context `{PF : Platform} `{UI : UInt}.

(** ** Folding a description *)

Lemma find_word_unfold s :
  find_word s = (skip_spaces s, skip_word (skip_spaces s)).
Proof. done. Qed.

Lemma line_loop_S k w e first column :
  line_loop (S k) w e first column =
    let sep := if first then "" else " " in
    let column1 := if first then column else wrap (column + 1) in
    let n := String.length w - String.length e in
    let column2 := wrap (column1 + N.of_nat n) in
    let w' := skip_spaces e in
    let e' := skip_word w' in
    let n' := String.length w' - String.length e' in
    if negb (at_end w') &&
       (wrap (column2 + 1 + N.of_nat n') <? PAGE_WRAP_COL)%N
    then
      match line_loop k w' e' false column2 with
      | Some (t, r, c) => Some (sep +:+ substring 0 n w +:+ t, r, c)
      | None => None
      end
    else Some (sep +:+ substring 0 n w, w', column2).
Proof. done. Qed.

Lemma in_word_not_end w : in_word w = true -> at_end w = false.
Proof. by destruct w. Qed.

Lemma sep_word_list (first : bool) x t :
  at_end x = false -> chars_all not_space x = true -> in_word t = false ->
  word_list ((if first then "" else " ") +:+ x +:+ t) = x :: word_list t.
Proof.
  intros. destruct first.
  - change ("" +:+ ?y) with y. by apply word_list_word.
  - rewrite append_cons. cbn [word_list]. change (isspace " ") with true.
    cbv iota. change ("" +:+ ?y) with y. by apply word_list_word.
Qed.

Lemma sep_first_char (first : bool) x :
  first = false -> first_char ((if first then "" else " ") +:+ x) = " "%char.
Proof. by intros ->. Qed.

(** The do-while loop comes to an end within as many rounds as the text
    has characters, and writes the words it passes. *)
Lemma line_loop_words k : forall w first column,
  String.length w <= k -> in_word w = true ->
  exists t r c,
    line_loop k w (skip_word w) first column = Some (t, r, c)
    /\ String.length r < String.length w
    /\ in_word r = negb (at_end r)
    /\ word_list w = word_list t ++ word_list r
    /\ (first = false -> first_char t = " "%char).
Proof.
  induction k as [|k IH]; intros w first column Hk Hw.
  { pose proof (in_word_not_end w Hw). destruct w; [done|]. simpl in Hk. lia. }
  rewrite line_loop_S. cbv zeta. rewrite substring_word.
  pose proof (skip_word_shorter w Hw) as Hsh.
  pose proof (skip_spaces_length (skip_word w)) as Hsl.
  destruct (word_at_split w) as (_ & Hns & _ & _).
  pose proof (word_at_in_word w Hw) as Hne.
  pose proof (word_list_in_word w Hw) as Hwl.
  rewrite <- (word_list_skip_spaces (skip_word w)) in Hwl.
  match goal with
  | |- context [if ?b then _ else _] => destruct b eqn:Hb
  end.
  - apply andb_true_iff in Hb as [Hb _]. apply negb_true_iff in Hb.
    assert (in_word (skip_spaces (skip_word w)) = true) as Hw'
      by (by rewrite skip_spaces_in_word, Hb).
    match goal with
    | |- context [line_loop k _ _ false ?c] =>
        destruct (IH (skip_spaces (skip_word w)) false c ltac:(lia) Hw')
          as (t & r & c' & -> & Hr & Hi & Hl & Hf)
    end.
    eexists _, r, c'. split; [done|]. split_and!; try done; [lia| |].
    + rewrite <- append_assoc.
      rewrite (append_assoc _ (word_at w) t).
      rewrite sep_word_list; try done.
      * by rewrite Hwl, Hl.
      * unfold in_word. rewrite (Hf eq_refl). by rewrite andb_false_r.
    + intros ->. done.
  - eexists _, _, _. split; [done|]. split_and!; try lia.
    + apply skip_spaces_in_word.
    + rewrite <- (append_nil_r (_ +:+ word_at w)), append_assoc.
      rewrite sep_word_list by done. by rewrite Hwl.
    + intros ->. done.
Qed.

Lemma desc_loop_S k s column :
  desc_loop (S k) s column =
    if at_end s then Some ""
    else
      let w := skip_spaces s in
      if at_end w
      then Some (set_column DESC_START_COL column true).1
      else
        match line_loop (String.length w) w (skip_word w) true
                (set_column DESC_START_COL column true).2 with
        | Some (t, r, column') =>
            match desc_loop k r column' with
            | Some u =>
                Some ((set_column DESC_START_COL column true).1 +:+ t +:+ u)
            | None => None
            end
        | None => None
        end.
Proof.
  cbn [desc_loop]. destruct (at_end s); [done|].
  destruct (set_column DESC_START_COL column true) as [pad c].
  by rewrite find_word_unfold.
Qed.

Lemma spaces_not_in_word t : chars_all isspace t = true -> in_word t = false.
Proof.
  destruct t as [|c r]; [done|]. cbn [chars_all]. rewrite in_word_cons.
  by intros [-> _]%andb_true_iff.
Qed.

Lemma pad_in_word column t :
  in_word ((set_column DESC_START_COL column true).1 +:+ t) = false.
Proof.
  destruct (set_column_spec DESC_START_COL column true)
    as (_ & _ & _ & Hs & Hn).
  specialize (Hn eq_refl).
  rewrite in_word_append by done.
  by apply spaces_not_in_word.
Qed.

(** The outer loop comes to an end within as many rounds as the text has
    characters, and writes the words of the text. *)
Lemma desc_loop_words k : forall s column,
  String.length s < k ->
  exists out,
    desc_loop k s column = Some out
    /\ word_list out = word_list s /\ in_word out = false.
Proof.
  induction k as [|k IH]; intros s column Hk; [lia|].
  rewrite desc_loop_S. destruct (at_end s) eqn:Hs.
  { exists "". by destruct s. }
  cbv zeta.
  destruct (set_column_spec DESC_START_COL column true)
    as (_ & _ & _ & Hsp & _).
  pose proof (skip_spaces_length s) as Hsl.
  destruct (at_end (skip_spaces s)) eqn:Hw.
  - eexists. split; [done|]. split; [|by apply spaces_not_in_word].
    rewrite <- (word_list_skip_spaces s).
    destruct (skip_spaces s); [|done].
    rewrite <- (append_nil_r (set_column _ _ _).1).
    by rewrite word_list_spaces.
  - assert (in_word (skip_spaces s) = true) as Hi
      by (by rewrite skip_spaces_in_word, Hw).
    destruct (line_loop_words (String.length (skip_spaces s))
                (skip_spaces s) true (set_column DESC_START_COL column true).2
                (le_n _) Hi)
      as (t & r & c & -> & Hr & Hir & Hl & _).
    destruct (IH r c ltac:(lia)) as (u & -> & Hu & Hiu).
    eexists. split; [done|]. split; [|apply pad_in_word].
    rewrite word_list_spaces by done.
    rewrite <- (word_list_skip_spaces s), Hl, <- Hu.
    by rewrite word_list_append.
Qed.

(** X19. [print_opt_desc] comes to an end for every description (of
    fewer than [UINT_MAX] characters, as the model of its indices takes
    it) and every column, and what it writes holds exactly the words of
    the description, in their order: no word is dropped, split or
    joined. *)
Theorem print_opt_desc_keeps_words desc column :
  exists out,
    print_opt_desc desc column = Some out
    /\ word_list out = word_list desc.
Proof.
  destruct (desc_loop_words (S (String.length desc)) desc column
              ltac:(lia)) as (out & H & Hw & _).
  by exists out.
Qed.

(** ** The width of a folded description *)

Lemma wrap_small n : (n <= UINT_MAX)%N -> wrap n = n.
Proof. intros. unfold wrap. apply N.mod_small. lia. Qed.

Lemma sep_cursor (first : bool) column x :
  chars_all not_space x = true ->
  cursor column ((if first then "" else " ") +:+ x) =
    ((if first then column else column + 1) + strlen x)%N
  /\ reach column ((if first then "" else " ") +:+ x) =
    ((if first then column else column + 1) + strlen x)%N.
Proof.
  intros H. destruct first.
  - change ("" +:+ x) with x. by apply cursor_word.
  - rewrite append_cons. change ("" +:+ x) with x. cbn [cursor reach].
    change (Ascii.eqb " " LF) with false. cbv iota.
    destruct (cursor_word (column + 1) x H) as [-> ->]. lia.
Qed.

Lemma skip_spaces_shorter s :
  in_word s = false -> at_end (skip_spaces s) = false ->
  String.length (skip_spaces s) < String.length s.
Proof.
  destruct s as [|c r]; [done|]. rewrite in_word_cons. cbn [skip_spaces].
  destruct (isspace c); [|done]. intros _ _.
  pose proof (skip_spaces_length r). simpl. lia.
Qed.

Lemma word_length_diff w :
  String.length w - String.length (skip_word w) = String.length (word_at w).
Proof. destruct (word_at_split w) as (_ & _ & _ & Hl). lia. Qed.

Section Width.
Variable limit : N.
Hypothesis limit_page : (PAGE_WRAP_COL - 1 <= limit)%N.

Lemma line_loop_width k : forall w (first : bool) column t r c,
  in_word w = true ->
  (column + strlen w + 1 <= UINT_MAX)%N ->
  (column <= limit)%N ->
  (if first then (column + strlen (word_at w) <= limit)%N
   else (column + 1 + strlen (word_at w) < PAGE_WRAP_COL)%N) ->
  line_loop k w (skip_word w) first column = Some (t, r, c) ->
  cursor column t = c /\ (reach column t <= limit)%N.
Proof.
  unfold PAGE_WRAP_COL in *.
  induction k as [|k IH]; intros w first column t r c Hw Hmax Hcol Hfit H;
    [done|].
  rewrite line_loop_S in H. cbv zeta in H. rewrite substring_word in H.
  unfold PAGE_WRAP_COL in H.
  rewrite !word_length_diff in H.
  change (N.of_nat (String.length ?x)) with (strlen x) in H.
  destruct (word_at_split w) as (_ & Hns & Hiw & Hl).
  assert (strlen w = strlen (word_at w) + strlen (skip_word w))%N as Hlw
    by (unfold strlen; lia).
  pose proof (skip_spaces_length (skip_word w)) as Hsl.
  set (w' := skip_spaces (skip_word w)) in *.
  destruct (word_at_split w') as (_ & _ & _ & Hl').
  assert (strlen w' <= strlen (skip_word w))%N as Hsl'
    by (unfold strlen; lia).
  assert (strlen (word_at w') <= strlen w')%N as Hwl'
    by (unfold strlen; lia).
  set (column1 := if first then column else wrap (column + 1)) in *.
  assert (column1 = if first then column else (column + 1)%N) as Hc1.
  { subst column1. destruct first; [done|]. apply wrap_small. lia. }
  assert (column1 + strlen (word_at w) <= limit)%N as Hc2.
  { rewrite Hc1. destruct first; lia. }
  rewrite (wrap_small (column1 + strlen (word_at w))) in H
    by (rewrite Hc1; destruct first; lia).
  destruct (sep_cursor first column (word_at w) Hns) as [Hcur Hrea].
  rewrite <- Hc1 in Hcur, Hrea.
  destruct (at_end w') eqn:He; cbn [negb andb] in H.
  { injection H as <- <- <-. rewrite Hcur, Hrea. split; [done|lia]. }
  assert (strlen w' < strlen (skip_word w))%N as Hlt.
  { pose proof (skip_spaces_shorter (skip_word w) Hiw He).
    subst w'. unfold strlen. lia. }
  rewrite (wrap_small (column1 + strlen (word_at w) + 1 + strlen (word_at w')))
    in H by (rewrite Hc1; destruct first; lia).
  destruct (N.ltb_spec (column1 + strlen (word_at w) + 1 + strlen (word_at w'))
              78) as [Hg|Hg].
  - destruct (line_loop k w' (skip_word w') false
                (column1 + strlen (word_at w))%N)
      as [[[t' r'] c']|] eqn:E; [|done].
    injection H as <- <- <-.
    assert (in_word w' = true) as Hw'
      by (subst w'; by rewrite skip_spaces_in_word, He).
    destruct (IH w' false (column1 + strlen (word_at w))%N t' r' c' Hw')
      as [Hcur' Hrea']; try done.
    { rewrite Hc1. destruct first; lia. }
    rewrite <- append_assoc, cursor_append, reach_append.
    rewrite Hcur, Hrea, Hcur'. split; [done|lia].
  - injection H as <- <- <-. rewrite Hcur, Hrea. split; [done|lia].
Qed.

Lemma desc_loop_width k : forall s column out,
  (strlen s + PAGE_WRAP_COL <= UINT_MAX)%N ->
  (column <= limit)%N ->
  Forall (fun x => (DESC_START_COL + strlen x <= limit)%N) (word_list s) ->
  desc_loop k s column = Some out ->
  (reach column out <= limit)%N.
Proof.
  unfold PAGE_WRAP_COL, DESC_START_COL in *.
  induction k as [|k IH]; intros s column out Hmax Hcol Hall H; [done|].
  rewrite desc_loop_S in H. destruct (at_end s); [by injection H as <-|].
  cbv zeta in H.
  destruct (set_column_spec DESC_START_COL column true)
    as (Hc & Hcur & Hrea & _ & _).
  unfold DESC_START_COL in *.
  pose proof (skip_spaces_length s) as Hsl.
  destruct (at_end (skip_spaces s)) eqn:Hw.
  { injection H as <-. rewrite Hrea. lia. }
  assert (in_word (skip_spaces s) = true) as Hi
    by (by rewrite skip_spaces_in_word, Hw).
  destruct (line_loop_words (String.length (skip_spaces s))
              (skip_spaces s) true (set_column 28 column true).2
              (le_n _) Hi)
    as (t & r & c & Hline & Hr & _ & Hl & _).
  rewrite Hline in H.
  destruct (desc_loop k r c) as [u|] eqn:Hu; [|done].
  injection H as <-.
  assert (Forall (fun x => (28 + strlen x <= limit)%N)
            (word_list (skip_spaces s))) as Hs
    by (by rewrite word_list_skip_spaces).
  pose proof Hs as Hall_r. rewrite Hl in Hall_r.
  apply Forall_app in Hall_r as [_ Hall_r].
  rewrite (word_list_in_word _ Hi) in Hs.
  apply Forall_cons in Hs as [Hfirst _].
  rewrite Hc in Hline.
  assert (strlen (skip_spaces s) <= strlen s)%N as Hsl'
    by (unfold strlen; lia).
  assert (strlen r <= strlen s)%N as Hrl by (unfold strlen; lia).
  destruct (line_loop_width (String.length (skip_spaces s)) (skip_spaces s)
              true 28%N t r c Hi) as [Hcur' Hrea'];
    try done; try lia.
  pose proof (cursor_le_reach 28 t) as Hcr.
  rewrite reach_append, Hcur, reach_append, Hrea, Hcur'.
  pose proof (IH r c u ltac:(lia) ltac:(lia) Hall_r Hu). lia.
Qed.

(** X20. A folded description stays within the page: when the text is
    short enough for the counters not to wrap around, and [limit] is at
    least the last column before [PAGE_WRAP_COL] and large enough for
    every single word of the description placed at [DESC_START_COL],
    the cursor never gets beyond [limit] while the description is
    written (nor beyond the column it started from). *)
Theorem print_opt_desc_width desc column out :
  (strlen desc + PAGE_WRAP_COL <= UINT_MAX)%N ->
  (column <= limit)%N ->
  Forall (fun x => (DESC_START_COL + strlen x <= limit)%N) (word_list desc) ->
  print_opt_desc desc column = Some out ->
  (reach column out <= limit)%N.
Proof. intros. by eapply desc_loop_width. Qed.

End Width.

(** ** The entry of an option *)

Lemma strlen_cons c s : strlen (String c s) = (1 + strlen s)%N.
Proof. unfold strlen. simpl String.length. lia. Qed.

Lemma strlen_nil : strlen "" = 0%N.
Proof. done. Qed.

Lemma append_nil_l (a : string) : "" +:+ a = a.
Proof. done. Qed.

Lemma set_column_short : set_column SHORT_START_COL 0 false = ("  ", 2%N).
Proof. done. Qed.

Lemma set_column_long_after_short :
  set_column LONG_START_COL 5 true = (" ", 6%N).
Proof. done. Qed.

Lemma set_column_long_first :
  set_column LONG_START_COL 0 true = ("      ", 6%N).
Proof. done. Qed.

Ltac texts :=
  repeat first
    [ rewrite append_assoc | rewrite append_cons | rewrite append_nil_l ].

Ltac lengths :=
  repeat first
    [ rewrite strlen_append | rewrite strlen_cons | rewrite strlen_nil ].

Ltac unwrap :=
  repeat match goal with
         | |- context [wrap ?n] => rewrite (wrap_small n) by lia
         end.

Lemma print_option_shape sn ln tmpl desc :
  (strlen (header_text sn ln tmpl) <= UINT_MAX)%N ->
  print_option sn ln tmpl desc =
    match desc with
    | Some d =>
        match print_opt_desc d (strlen (header_text sn ln tmpl)) with
        | Some body => Some (header_text sn ln tmpl +:+ body +:+ nl)
        | None => None
        end
    | None => Some (header_text sn ln tmpl +:+ nl)
    end.
Proof.
  intros H. unfold print_option.
  destruct sn as [sn|], ln as [ln|], tmpl as [tmpl|];
    unfold header_text in *; revert H; lengths; intros H;
    rewrite ?set_column_short; cbv beta iota zeta;
    change (0 + 2)%N with 2%N; change (2 + 2)%N with 4%N;
    rewrite ?(wrap_small 4) by lia; change (4 + 1)%N with 5%N;
    rewrite ?(wrap_small 5) by lia;
    rewrite ?set_column_long_after_short, ?set_column_long_first;
    cbv beta iota zeta; unwrap;
    (destruct desc as [d|];
     [ match goal with
       | |- match print_opt_desc d ?c1 with _ => _ end =
            match print_opt_desc d ?c2 with _ => _ end =>
           replace c1 with c2 by (lengths; lia)
       end;
       destruct (print_opt_desc d _); [|done]
     | ]);
    f_equal; texts; reflexivity.
Qed.

(** X21. The first line of an option's entry is laid out without a line
    break: the short name at column [SHORT_START_COL], the long name at
    column [LONG_START_COL] whether or not a short name comes before it,
    then the argument template; and the column handed to
    [print_opt_desc] is the width of that line. *)
Theorem print_option_layout sn ln tmpl desc :
  (strlen (header_text sn ln tmpl) <= UINT_MAX)%N ->
  print_option sn ln tmpl desc =
    match desc with
    | Some d =>
        match print_opt_desc d (strlen (header_text sn ln tmpl)) with
        | Some body => Some (header_text sn ln tmpl +:+ body +:+ nl)
        | None => None
        end
    | None => Some (header_text sn ln tmpl +:+ nl)
    end.
Proof. apply print_option_shape. Qed.

Lemma reach_nl col : reach col nl = col.
Proof. unfold nl. cbn [reach]. rewrite Ascii.eqb_refl. lia. Qed.

(** X22. The whole entry of an option stays within the page: when its
    first line holds no new-line character and is no wider than [limit],
    [limit] is at least the last column before [PAGE_WRAP_COL], every
    single word of the description fits at [DESC_START_COL], and the
    texts are short enough for the counters not to wrap around, the
    cursor never gets beyond [limit] while the entry is written. *)
Theorem print_option_width limit sn ln tmpl desc out :
  (PAGE_WRAP_COL - 1 <= limit)%N ->
  chars_all not_newline (header_text sn ln tmpl) = true ->
  (strlen (header_text sn ln tmpl) <= limit)%N ->
  (strlen (header_text sn ln tmpl) <= UINT_MAX)%N ->
  match desc with
  | Some d =>
      (strlen d + PAGE_WRAP_COL <= UINT_MAX)%N
      /\ Forall (fun x => (DESC_START_COL + strlen x <= limit)%N)
           (word_list d)
  | None => True
  end ->
  print_option sn ln tmpl desc = Some out ->
  (reach 0 out <= limit)%N.
Proof.
  intros Hlim Hline Hfit Hmax Hdesc H.
  rewrite print_option_shape in H by done.
  destruct (cursor_line 0 _ Hline) as [Hcur Hrea].
  rewrite N.add_0_l in Hcur, Hrea.
  destruct desc as [d|].
  - destruct Hdesc as [Hd Hall].
    destruct (print_opt_desc d _) as [body|] eqn:E; [|done].
    injection H as <-.
    pose proof (desc_loop_width limit Hlim _ _ _ _ Hd Hfit Hall E) as Hb.
    rewrite reach_append, Hcur, Hrea, reach_append, reach_nl.
    pose proof (cursor_le_reach (strlen (header_text sn ln tmpl)) body).
    lia.
  - injection H as <-. rewrite reach_append, Hcur, Hrea, reach_nl. lia.
Qed.

(** ** The help screen as a whole *)

Lemma print_option_some sn ln tmpl desc :
  exists out, print_option sn ln tmpl desc = Some out.
Proof.
  unfold print_option.
  repeat match goal with
         | |- context [let '(_, _) := ?x in _] => destruct x
         end.
  destruct desc as [d|]; [|by eexists].
  match goal with
  | |- context [print_opt_desc d ?c] =>
      destruct (desc_loop_words (S (String.length d)) d c ltac:(lia))
        as (body & Hb & _)
  end.
  unfold print_opt_desc. rewrite Hb. by eexists.
Qed.

Lemma print_options_blocks tbl :
  exists blocks,
    Forall2
      (fun d b =>
         print_option (short_name d) (long_name d) (argument_template d)
           (description d) = Some b)
      (entries tbl) blocks
    /\ print_options tbl = Some (joined blocks).
Proof.
  induction tbl as [|d tbl (blocks & IH1 & IH2)]; [by exists []|].
  cbn [entries print_options]. destruct (is_last d); [by exists []|].
  destruct (print_option_some (short_name d) (long_name d)
              (argument_template d) (description d)) as (b & Hb).
  exists (b :: blocks). rewrite Hb, IH2. split; [|done].
  by constructor.
Qed.

(** X23. [print_help] comes to an end for every context and writes, in
    this order: the usage text, the program's description, the heading,
    one entry for each descriptor before the last member of the table in
    the table's order, then the entry of the version option and the
    entry of the help option. *)
Theorem print_help_lists_table args :
  exists blocks v h,
    Forall2
      (fun d b =>
         print_option (short_name d) (long_name d) (argument_template d)
           (description d) = Some b)
      (entries (opt_desc args)) blocks
    /\ print_option (Some VER_SHORT_OPT_STR) (Some VER_LONG_OPT) None
         (Some VER_DESC) = Some v
    /\ print_option (Some HELP_SHORT_OPT_STR) (Some HELP_LONG_OPT) None
         (Some HELP_DESC) = Some h
    /\ print_help args =
         Some ((print_usage args false).2 +:+ prog_description args +:+ nl
               +:+ "Options:" +:+ nl +:+ joined blocks +:+ v +:+ h).
Proof.
  destruct (print_options_blocks (opt_desc args)) as (blocks & Hb1 & Hb2).
  destruct (print_option_some (Some VER_SHORT_OPT_STR) (Some VER_LONG_OPT)
              None (Some VER_DESC)) as (v & Hv).
  destruct (print_option_some (Some HELP_SHORT_OPT_STR) (Some HELP_LONG_OPT)
              None (Some HELP_DESC)) as (h & Hh).
  exists blocks, v, h. split_and!; try done.
  unfold print_help. by rewrite Hb2, Hv, Hh.
Qed.

(** ** What a call prints at its end *)

Lemma append_not_end a b : at_end b = false -> at_end (a +:+ b) = false.
Proof. intros H. by destruct a. Qed.

Lemma print_usage_not_end args e : at_end (print_usage args e).2 = false.
Proof. unfold print_usage. cbn [snd]. by apply append_not_end. Qed.

Lemma print_version_not_end args : at_end (print_version args) = false.
Proof. unfold print_version. by apply append_not_end. Qed.

Lemma print_help_some args :
  exists t, print_help args = Some t /\ at_end t = false.
Proof.
  destruct (print_options_blocks (opt_desc args)) as (blocks & _ & Hb).
  destruct (print_option_some (Some VER_SHORT_OPT_STR) (Some VER_LONG_OPT)
              None (Some VER_DESC)) as (v & Hv).
  destruct (print_option_some (Some HELP_SHORT_OPT_STR) (Some HELP_LONG_OPT)
              None (Some HELP_DESC)) as (h & Hh).
  unfold print_help. rewrite Hb, Hv, Hh. eexists. split; [done|].
  unfold print_usage. cbn [snd]. rewrite !append_assoc.
  by apply append_not_end.
Qed.

(** X24. What [dooshki_args_parse] prints at its end goes with what it
    returns: the final part always comes to an end; an empty line is
    written to stderr exactly when [errors_found] is set; nothing is
    written to stdout exactly when the call returns
    [DOOSHKI_ARGS_PARSE_OK]; and in that case no error line was written
    during the scan either. *)
Theorem parse_output_matches_outcome args n a m :
  let r := dooshki_args_parse args (entry n a m) in
  exists blank text,
    final_output args r.2 = Some (blank, text)
    /\ blank = errors_found r.2
    /\ (at_end text = true <-> r.1 = DOOSHKI_ARGS_PARSE_OK)
    /\ (r.1 = DOOSHKI_ARGS_PARSE_OK -> stderr r.2 = [] /\ blank = false).
Proof.
  intros r. subst r. unfold dooshki_args_parse. cbn [fst snd].
  destruct (deflate_args_list_frame (scan args (entry n a m)))
    as (_ & Hh & Hv & He & Hs & _).
  destruct (opt_step_scan_loop args (n - 1) 1 (entry n a m))
    as (_ & _ & [Herr _] & _).
  change (scan_loop args (n - 1) 1 (entry n a m))
    with (scan args (entry n a m)) in Herr.
  cbv zeta in Hh, Hv, He, Hs.
  set (s := deflate_args_list (scan args (entry n a m))) in *.
  rewrite <- Hs, <- He in Herr. cbn [stderr entry] in Herr.
  unfold final_output, outcome.
  destruct (show_help s).
  { destruct (print_help_some args) as (t & Ht & Hn). rewrite Ht.
    exists (errors_found s), t. split_and!; try done.
    split; [by rewrite Hn|done]. }
  destruct (show_version s).
  { exists (errors_found s), (print_version args). split_and!; try done.
    split; [by rewrite print_version_not_end|done]. }
  destruct (errors_found s) eqn:E.
  { exists true, (print_usage args true).2. split_and!; try done.
    split; [by rewrite print_usage_not_end|done]. }
  exists false, "". split_and!; try done.
  intros _. split; [|done]. by destruct Herr.
Qed.

End ScreenProperties.

(** * Concrete command lines *)

#[local] Existing Instance lp64.

(** C1, against the claim as stated: the marker is not in what the caller
    gets back; the option-like token after it is. *)
Lemma end_marker_not_kept :
  let r :=
    @dooshki_args_parse lp64 cli_args_context
      (command_line ["prog"; "--"; "-a"] ∅) in
  remaining r.2 = [Some "prog"; Some "-a"] /\
  Some "--" ∉ remaining r.2.
Proof.
  split; [vm_compute; reflexivity|]. vm_compute.
  intros H. repeat (apply elem_of_cons in H as [H|H]; [discriminate H|]).
  by apply elem_of_nil in H.
Qed.

Lemma end_marker_stops_scan_witness :
  ("--" ∉ ["-a"; "notes.txt"]) /\
  (let full :=
    @dooshki_args_parse lp64 cli_args_context
      (command_line ("prog" :: ["-a"; "notes.txt"] ++ "--" :: ["-m"; "x"])
         ∅) in
  let cut :=
    @dooshki_args_parse lp64 cli_args_context
      (command_line ("prog" :: ["-a"; "notes.txt"] ++ ["--"]) ∅) in
  stopper_reached full.2 = true
  /\ (exists left_over,
        left_over `sublist_of` ["-a"; "notes.txt"] /\
        remaining full.2 = Some <$> ("prog" :: left_over ++ ["-m"; "x"]))
  /\ full.1 = cut.1 /\ mem full.2 = mem cut.2
  /\ stderr full.2 = stderr cut.2
  /\ show_help full.2 = show_help cut.2
  /\ show_version full.2 = show_version cut.2
  /\ errors_found full.2 = errors_found cut.2).
Proof.
  assert ("--" ∉ ["-a"; "notes.txt"]) as H.
  { intros H. repeat (apply elem_of_cons in H as [H|H]; [discriminate H|]).
    by apply elem_of_nil in H. }
  split; [exact H|].
  exact (@end_marker_stops_scan lp64 cli_args_context "prog"
           ["-a"; "notes.txt"] ["-m"; "x"] ∅ H).
Defined.

(** C3, against the claim as stated: [--count=abc] writes one
    invalid-number line, and the destination, 5 before the call, holds 0
    after it. *)
Lemma uint_destination_overwritten :
  let before : store := {[1%N := CULong 5]} in
  let r :=
    @dooshki_args_parse lp64 count_args
      (command_line ["prog"; "--count=abc"] before) in
  stderr r.2 = [MsgNotUInt "abc" "--" "count"] /\
  before !! 1%N = Some (CULong 5) /\
  mem r.2 !! 1%N = Some (CULong 0) /\
  mem r.2 !! 1%N <> before !! 1%N.
Proof.
  intros before r.
  assert (before !! 1%N = Some (CULong 5)) as E1 by reflexivity.
  assert (mem r.2 !! 1%N = Some (CULong 0)) as E2 by reflexivity.
  split_and!; [reflexivity | exact E1 | exact E2 |].
  rewrite E1, E2. discriminate.
Qed.

Lemma uint_non_numeric_overwrites_witness :
  let st := @command_line lp64 ["prog"; "--count=abc"] {[1%N := CULong 5]} in
  chars_all not_equals_sign "count" = true /\
  long_search (opt_desc count_args) ("count" +:+ String "=" "abc")
    (String.length "count") = Some count_option /\
  type count_option = DOOSHKI_OPT_UINT /\
  chars_all numeral_char "abc" = false /\
  let s := long_opt count_args 1 ("--" +:+ "count" +:+ String "=" "abc") st in
  stderr s =
    stderr st ++ [MsgNotUInt "abc" "--" (default "" (long_name count_option))]
  /\ errors_found s = true
  /\ mem s = <[opt_storage count_option := CULong (strtoul "abc").1.1]>
               (mem (mark_found count_option st))
  /\ argv s = argv st
  /\ (numeral_char (first_char "abc") = true \/
      mem s !! opt_storage count_option = Some (CULong 0)).
Proof.
  intros st. split_and!; [reflexivity | reflexivity | reflexivity
                          | reflexivity | ].
  apply (@uint_non_numeric_overwrites lp64 count_args 1 "count" "abc"
           count_option st); reflexivity.
Defined.

Lemma long_option_prefix_match_witness :
  let st := @command_line lp64 ["prog"; "--dir=5"] ∅ in
  chars_all not_equals_sign "dir" = true /\
  (long_opt cli_args_context 1 (long_token "dir" (Some "5")) st =
     (if String.eqb (long_token "dir" (Some "5")) "--help" then
        if show_version st then st else set_help st
      else if String.eqb (long_token "dir" (Some "5")) "--version" then
        if show_help st then st else set_version st
      else
        match List.find (long_name_begins "dir")
                (entries (opt_desc cli_args_context)) with
        | Some d => long_matched d 1 (Some "5") st
        | None =>
            set_error
              (print_error (MsgUnrecLong (long_token "dir" (Some "5"))) st)
        end)
   /\ forall d more,
        long_name d = Some ("dir" +:+ more) ->
        long_name_begins "dir" d = true).
Proof.
  intros st. split; [reflexivity|].
  apply (@long_option_prefix_match lp64 cli_args_context 1 "dir"
           (Some "5") st). reflexivity.
Defined.

Lemma cluster_same_as_separate_witness :
  let r1 :=
    @dooshki_args_parse lp64 cli_args_context
      (command_line ["prog"; String "-" (String "l" (String "v" ""));
                     "name"; "12"] ∅) in
  let r2 :=
    @dooshki_args_parse lp64 cli_args_context
      (command_line ["prog"; String "-" (String "l" ""); "name";
                     String "-" (String "v" ""); "12"] ∅) in
  ("l"%char <> "-"%char /\ "v"%char <> "-"%char /\
   "l"%char <> "h"%char /\ "l"%char <> "V"%char /\
   "v"%char <> "h"%char /\ "v"%char <> "V"%char /\
   List.find (short_name_is "l") (entries (opt_desc cli_args_context)) =
     Some label_option /\
   takes_argument (type label_option) = true /\
   List.find (short_name_is "v") (entries (opt_desc cli_args_context)) =
     Some velocity_option /\
   takes_argument (type velocity_option) = true /\
   "name" <> "--") /\
  r1.1 = r2.1 /\ mem r1.2 = mem r2.2 /\ stderr r1.2 = stderr r2.2
  /\ show_help r1.2 = show_help r2.2
  /\ show_version r1.2 = show_version r2.2
  /\ errors_found r1.2 = errors_found r2.2
  /\ remaining r1.2 = [Some "prog"] /\ remaining r2.2 = [Some "prog"]
  /\ ("12" = "--" \/
      mem r1.2 =
        mem (with_word velocity_option "12"
               (with_word label_option "name" (entry 0 [] ∅)))).
Proof.
  intros r1 r2.
  split; [split_and!; first [reflexivity | discriminate]|].
  apply (@cluster_same_as_separate lp64 cli_args_context "prog" "name" "12"
           "l" "v" label_option velocity_option ∅);
    first [reflexivity | discriminate].
Defined.

Lemma found_flag_set_before_value_witness :
  let a := [Some "prog"; Some "--count=abc"] in
  let s := @rounds lp64 count_args 0 (entry 2 a ∅) in
  (1 < 2 /\ stopper_reached s = false /\
   argv s !! 1 = Some (Some "--count=abc") /\
   occurs_in count_args "--count=abc" count_option /\
   opt_found count_option = Some 2%N /\
   Forall (keeps_flag 2%N) (entries (opt_desc count_args))) /\
  mem (scan_step count_args 1 s) !! 2%N = Some (CChar 1) /\
  mem (dooshki_args_parse count_args (entry 2 a ∅)).2 !! 2%N =
    Some (CChar 1) /\
  errors_found (dooshki_args_parse count_args (entry 2 a ∅)).2 = true.
Proof.
  intros a s.
  assert (occurs_in count_args "--count=abc" count_option) as Ho.
  { apply (@occurs_long lp64 count_args "count" (Some "abc") count_option);
      first [reflexivity | discriminate]. }
  assert (Forall (keeps_flag 2%N) (entries (opt_desc count_args))) as Hk.
  { repeat constructor; [discriminate | by intros]. }
  split; [split_and!; first [lia | reflexivity | assumption]|].
  destruct (@found_flag_set_before_value lp64 count_args 2 a ∅ 0
              "--count=abc" count_option 2%N ltac:(lia) eq_refl eq_refl
              Ho eq_refl Hk) as [H1 H2].
  split_and!; [exact H1 | exact H2 | reflexivity].
Defined.

(** C8 and C9 on the spec's own command lines: the lone dash is gone and
    nothing is reported; the empty count is accepted as 0. *)
Example lone_dash_example :
  let r :=
    @dooshki_args_parse lp64 cli_args_context
      (command_line ["prog"; "-"; "file.txt"] ∅) in
  r.1 = DOOSHKI_ARGS_PARSE_OK /\ stderr r.2 = [] /\
  remaining r.2 = [Some "prog"; Some "file.txt"].
Proof. by vm_compute. Qed.

Example empty_count_example :
  let r :=
    @dooshki_args_parse lp64 count_args
      (command_line ["prog"; "--count="] {[1%N := CULong 5]}) in
  r.1 = DOOSHKI_ARGS_PARSE_OK /\ stderr r.2 = [] /\
  mem r.2 !! 1%N = Some (CULong 0).
Proof. intros r. split_and!; reflexivity. Qed.

(** The other unsigned conversions of the spec's examples. *)
Example count_too_large_example :
  let r :=
    @dooshki_args_parse lp64 count_args
      (command_line ["prog"; "--count=99999999999999999999"] ∅) in
  r.1 = DOOSHKI_ARGS_PARSE_ERROR /\
  stderr r.2 = [MsgTooLarge "99999999999999999999" "--" "count"].
Proof. by vm_compute. Qed.

(** Help wins over an error met later in the scan, which is still
    reported. *)
Example help_with_error_example :
  let r :=
    @dooshki_args_parse lp64 cli_args_context
      (command_line ["prog"; "-h"; "extra"; "--bogus"] ∅) in
  r.1 = DOOSHKI_ARGS_HELP_SHOWN /\ stderr r.2 = [MsgUnrecLong "--bogus"] /\
  remaining r.2 = [Some "prog"; Some "extra"].
Proof. by vm_compute. Qed.

(** An unknown short option between two operands. *)
Example stray_option_example :
  let r :=
    @dooshki_args_parse lp64 cli_args_context
      (command_line ["prog"; "-a"; "file1.txt"; "-x"; "file2.txt"] ∅) in
  remaining r.2 = [Some "prog"; Some "file1.txt"; Some "file2.txt"] /\
  stderr r.2 = [MsgUnrecShort "x"].
Proof. by vm_compute. Qed.

(** [-m -a] leaves the shared flag set, [-a -m] leaves it clear. *)
Example shared_destination_example :
  mem (@dooshki_args_parse lp64 cli_args_context
         (command_line ["prog"; "-m"; "-a"] ∅)).2 !! automatic =
    Some (CChar 1) /\
  mem (@dooshki_args_parse lp64 cli_args_context
         (command_line ["prog"; "-a"; "-m"] ∅)).2 !! automatic =
    Some (CChar 0).
Proof. split; reflexivity. Qed.

(** * Concrete inputs for the further properties *)

#[local] Existing Instance uint32.

Lemma operands_pass_through_witness :
  Forall (fun t => first_char t <> "-"%char) ["a.txt"; "b.txt"] /\
  @dooshki_args_parse lp64 cli_args_context
    (command_line ("prog" :: ["a.txt"; "b.txt"]) ∅) =
  (DOOSHKI_ARGS_PARSE_OK, command_line ("prog" :: ["a.txt"; "b.txt"]) ∅).
Proof.
  assert (Forall (fun t => first_char t <> "-"%char) ["a.txt"; "b.txt"])
    as H by (repeat constructor; discriminate).
  split; [exact H|].
  exact (@operands_pass_through lp64 cli_args_context "prog"
           ["a.txt"; "b.txt"] ∅ H).
Defined.

Lemma unknown_long_option_reported_witness :
  let st := @command_line lp64 ["prog"; "--bogus"] ∅ in
  (chars_all not_equals_sign "bogus" = true /\
   long_token "bogus" None <> "--" /\
   long_token "bogus" None <> "--help" /\
   long_token "bogus" None <> "--version" /\
   List.find (long_name_begins "bogus")
     (entries (opt_desc cli_args_context)) = None /\
   argv st !! 1 = Some (Some (long_token "bogus" None))) /\
  scan_step cli_args_context 1 st =
    set_argv (<[1 := None]> (argv st))
      (set_error (print_error (MsgUnrecLong (long_token "bogus" None)) st)).
Proof.
  intros st.
  split; [split_and!; first [reflexivity | discriminate]|].
  apply (@unknown_long_option_reported lp64 cli_args_context 1 "bogus"
           None st); first [reflexivity | discriminate].
Defined.

Lemma unknown_short_option_reported_witness :
  let st := @command_line lp64 ["prog"; "-xa"] ∅ in
  ("x"%char <> "h"%char /\ "x"%char <> "V"%char /\
   List.find (short_name_is "x") (entries (opt_desc cli_args_context)) =
     None) /\
  short_char cli_args_context 1 "x" st =
    set_error (print_error (MsgUnrecShort "x") st) /\
  short_loop cli_args_context 1 (String "x" "a") st =
    short_loop cli_args_context 1 "a"
      (set_error (print_error (MsgUnrecShort "x") st)).
Proof.
  intros st.
  split; [split_and!; first [reflexivity | discriminate]|].
  apply (@unknown_short_option_reported lp64 cli_args_context 1 "x" "a" st);
    first [reflexivity | discriminate].
Defined.

Lemma missing_argument_writes_nothing_witness :
  let st := @command_line lp64 ["prog"; "--label"] ∅ in
  (takes_argument (type label_option) = true /\
   ((forall k, 2 <= k < 2 + (argc st - 2) -> null_at (argv st) k) \/
    exists j, next_word (argv st) 2 (argc st - 2) j "--")) /\
  long_matched label_option 1 None st =
    set_error (print_error (MsgMissingLong (default "" (long_name label_option)))
                 (mark_found label_option st))
  /\ short_matched label_option 1 st =
    set_error (print_error (MsgMissingShort (default "" (short_name label_option)))
                 (mark_found label_option st)).
Proof.
  intros st.
  assert ((forall k, 2 <= k < 2 + (argc st - 2) -> null_at (argv st) k) \/
          exists j, next_word (argv st) 2 (argc st - 2) j "--") as H.
  { left. intros k Hk. simpl in Hk. lia. }
  split; [split; [reflexivity | exact H]|].
  apply (@missing_argument_writes_nothing lp64 label_option 1 st);
    [reflexivity | exact H].
Defined.

Lemma inline_value_not_expected_witness :
  let st := @command_line lp64 ["prog"; "--automatic=yes"] ∅ in
  (chars_all not_equals_sign "automatic" = true /\
   List.find (long_name_begins "automatic")
     (entries (opt_desc cli_args_context)) = Some automatic_option /\
   takes_argument (type automatic_option) = false /\
   argv st !! 1 = Some (Some (long_token "automatic" (Some "yes")))) /\
  scan_step cli_args_context 1 st =
    set_argv (<[1 := None]> (argv st))
      (set_error
         (print_error
            (MsgNotExpected "yes" (default "" (long_name automatic_option)))
            (mark_found automatic_option st))).
Proof.
  intros st. split; [split_and!; reflexivity|].
  apply (@inline_value_not_expected lp64 cli_args_context 1 "automatic"
           "yes" automatic_option st); reflexivity.
Defined.

Lemma parse_writes_only_destinations_witness :
  let m : store := {[99%N := CChar 7]} in
  Forall (leaves_cell 99%N) (entries (opt_desc count_args)) /\
  mem (@dooshki_args_parse lp64 count_args
         (entry 2 [Some "prog"; Some "--count=5"] m)).2 !! 99%N = m !! 99%N.
Proof.
  intros m.
  assert (Forall (leaves_cell 99%N) (entries (opt_desc count_args))) as H.
  { repeat constructor; try discriminate. }
  split; [exact H|].
  exact (@parse_writes_only_destinations lp64 99%N count_args H 2
           [Some "prog"; Some "--count=5"] m).
Defined.

Lemma long_forms_agree_witness :
  (chars_all not_equals_sign "label" = true /\ "label" <> "" /\
   "label" <> "help" /\ "label" <> "version" /\
   List.find (long_name_begins "label")
     (entries (opt_desc cli_args_context)) = Some label_option /\
   takes_argument (type label_option) = true /\ "-x" <> "--") /\
  let r1 :=
    @dooshki_args_parse lp64 cli_args_context
      (command_line ["prog"; long_token "label" None; "-x"] ∅) in
  let r2 :=
    @dooshki_args_parse lp64 cli_args_context
      (command_line ["prog"; long_token "label" (Some "-x")] ∅) in
  r1.1 = r2.1 /\ mem r1.2 = mem r2.2 /\ stderr r1.2 = stderr r2.2
  /\ show_help r1.2 = show_help r2.2
  /\ show_version r1.2 = show_version r2.2
  /\ errors_found r1.2 = errors_found r2.2
  /\ remaining r1.2 = [Some "prog"] /\ remaining r2.2 = [Some "prog"]
  /\ mem r1.2 = mem (with_long_word label_option "-x" (entry 0 [] ∅)).
Proof.
  split; [split_and!; first [reflexivity | discriminate]|].
  apply (@long_forms_agree lp64 cli_args_context "prog" "label" "-x"
           label_option ∅); first [reflexivity | discriminate].
Defined.

Lemma uint_in_range_stored_witness :
  let st := @entry lp64 0 [] ∅ in
  (chars_all isdigit "18446744073709551615" = true /\
   at_end "18446744073709551615" = false /\
   (numeral_value "18446744073709551615" <= ULONG_MAX)%Z) /\
  process_uint_arg velocity_option "-" "v" "18446744073709551615" st =
    (true,
     poke (opt_storage velocity_option)
       (CULong (numeral_value "18446744073709551615")) st).
Proof.
  intros st.
  split; [split_and!; first [reflexivity | by vm_compute]|].
  apply (@uint_in_range_stored lp64 velocity_option "-" "v"
           "18446744073709551615" st); first [reflexivity | by vm_compute].
Defined.

Lemma int_in_range_stored_witness :
  let st := @entry lp64 0 [] ∅ in
  (chars_all isdigit "9223372036854775807" = true /\
   at_end "9223372036854775807" = false) /\
  ((numeral_value "9223372036854775807" <= LONG_MAX)%Z ->
   process_int_arg direction_option "--" "direction"
     "9223372036854775807" st =
     (true,
      poke (opt_storage direction_option)
        (CLong (numeral_value "9223372036854775807")) st))
  /\ ((LONG_MIN <= - numeral_value "9223372036854775807")%Z ->
      process_int_arg direction_option "--" "direction"
        (String "-" "9223372036854775807") st =
        (true,
         poke (opt_storage direction_option)
           (CLong (- numeral_value "9223372036854775807")) st)).
Proof.
  intros st. split; [split; reflexivity|].
  apply (@int_in_range_stored lp64 direction_option "--" "direction"
           "9223372036854775807" st); reflexivity.
Defined.

Lemma int_out_of_range_reported_witness :
  let st := @entry lp64 0 [] ∅ in
  (chars_all isdigit "9223372036854775809" = true /\
   at_end "9223372036854775809" = false /\
   @LONG_MIN lp64 <> @LONG_MAX lp64) /\
  ((LONG_MAX < numeral_value "9223372036854775809")%Z ->
   process_int_arg direction_option "--" "direction"
     "9223372036854775809" st =
     (false,
      print_error (MsgTooLarge "9223372036854775809" "--" "direction")
        (poke (opt_storage direction_option) (CLong LONG_MAX) st)))
  /\ ((- numeral_value "9223372036854775809" < LONG_MIN)%Z ->
      process_int_arg direction_option "--" "direction"
        (String "-" "9223372036854775809") st =
        (false,
         print_error
           (MsgTooSmall (String "-" "9223372036854775809") "--" "direction")
           (poke (opt_storage direction_option) (CLong LONG_MIN) st))).
Proof.
  intros st.
  split; [split_and!; first [reflexivity | discriminate]|].
  apply (@int_out_of_range_reported lp64 direction_option "--" "direction"
           "9223372036854775809" st); first [reflexivity | discriminate].
Defined.

Lemma uint_space_minus_accepted_witness :
  let st := @entry lp64 0 [] ∅ in
  (chars_all isdigit "5" = true /\ at_end "5" = false /\
   (numeral_value "5" <= ULONG_MAX)%Z) /\
  process_uint_arg velocity_option "-" "v" (String " " (String "-" "5")) st =
    (true,
     poke (opt_storage velocity_option)
       (CULong ((ULONG_MAX + 1 - numeral_value "5") mod (ULONG_MAX + 1))) st).
Proof.
  intros st.
  split; [split_and!; first [reflexivity | by vm_compute]|].
  apply (@uint_space_minus_accepted lp64 velocity_option "-" "v" "5" st);
    first [reflexivity | by vm_compute].
Defined.

Lemma int_non_numeric_reported_witness :
  let st := @entry lp64 0 [] ∅ in
  chars_all numeral_char "12x" = false /\
  process_int_arg direction_option "--" "direction" "12x" st =
    (false,
     print_error (MsgNotInt "12x" "--" "direction")
       (poke (opt_storage direction_option) (CLong (strtol "12x").1.1) st)).
Proof.
  intros st. split; [reflexivity|].
  apply (@int_non_numeric_reported lp64 direction_option "--" "direction"
           "12x" st); reflexivity.
Defined.

Lemma print_opt_desc_width_witness :
  ((PAGE_WRAP_COL - 1 <= 77)%N /\
   (strlen manual_description + PAGE_WRAP_COL <= UINT_MAX)%N /\
   (4 <= 77)%N /\
   Forall (fun x => (DESC_START_COL + strlen x <= 77)%N)
     (word_list manual_description) /\
   print_opt_desc manual_description 4 = Some manual_folded) /\
  (reach 4 manual_folded <= 77)%N.
Proof.
  assert (Forall (fun x => (DESC_START_COL + strlen x <= 77)%N)
            (word_list manual_description)) as H.
  { vm_compute. repeat (constructor; [discriminate|]). constructor. }
  split; [split_and!; first [by vm_compute | exact H]|].
  apply (@print_opt_desc_width uint32 77%N ltac:(by vm_compute)
           manual_description 4%N manual_folded);
    first [by vm_compute | exact H].
Defined.

Lemma print_option_layout_witness :
  (strlen (header_text (Some "a") (Some "automatic") None) <= UINT_MAX)%N /\
  print_option (Some "a") (Some "automatic") None (Some "Automatic.") =
    match
      print_opt_desc "Automatic."
        (strlen (header_text (Some "a") (Some "automatic") None))
    with
    | Some body =>
        Some (header_text (Some "a") (Some "automatic") None +:+ body +:+ nl)
    | None => None
    end.
Proof.
  split; [by vm_compute|].
  apply (@print_option_layout uint32 (Some "a") (Some "automatic") None
           (Some "Automatic.")).
  by vm_compute.
Defined.

Lemma print_option_width_witness :
  let out := "  -m" +:+ manual_folded +:+ nl in
  ((PAGE_WRAP_COL - 1 <= 77)%N /\
   chars_all not_newline (header_text (Some "m") None None) = true /\
   (strlen (header_text (Some "m") None None) <= 77)%N /\
   (strlen (header_text (Some "m") None None) <= UINT_MAX)%N /\
   ((strlen manual_description + PAGE_WRAP_COL <= UINT_MAX)%N /\
    Forall (fun x => (DESC_START_COL + strlen x <= 77)%N)
      (word_list manual_description)) /\
   print_option (Some "m") None None (Some manual_description) = Some out) /\
  (reach 0 out <= 77)%N.
Proof.
  intros out.
  assert (Forall (fun x => (DESC_START_COL + strlen x <= 77)%N)
            (word_list manual_description)) as H.
  { vm_compute. repeat (constructor; [discriminate|]). constructor. }
  split; [split_and!; first [by vm_compute | exact H]|].
  apply (@print_option_width uint32 77%N (Some "m") None None
           (Some manual_description) out);
    first [by vm_compute | split; [by vm_compute | exact H]].
Defined.

(** The help screen of the demo program, as the program prints it. *)
Example demo_help_screen :
  print_help cli_args_described =
    Some (unlines
      [ "dooshki_args_demo 0.1 - Dooshki's demo for his CLI arguments library";
        "Usage:";
        "    dooshki_args_demo [OPTIONS] [FILE1 [FILE2 [...]]]";
        "";
        "This program serves as a simple example of Dooshki's command line argument";
        "parsing library.";
        "";
        "The library is designed to be easily integrated into any small project";
        "written in the C programming language.  It has a small code footprint,";
        "and works in any environment which supports ANSI C89.";
        "";
        "This program tests all of the supported command line option types, including";
        "a custom type (by the use of a callback function), and displays the collected";
        "information.";
        "";
        "Options:";
        "  -a, --automatic           Perform the requested action automatically.";
        "  -m                        Perform the requested action manually. This";
        "                            option has an intentionally long description, as";
        "                            to show the line-wrapping support.";
        "  -l, --label=<NAME>        Label to display.";
        "  -r, --rating=<RATING>";
        "      --direction=<DIR>     Projectile direction.";
        "  -v <VEL>                  Projectile velocity.";
        "  -q, --quality=<GOOD|BAD|UGLY>";
        "                            Quality of the projectiles to be used.";
        "  -V, --version             Display the program's version and quit.";
        "  -h, --help                Display this help screen and quit." ]).
Proof. vm_compute. reflexivity. Qed.

(** * Concrete command lines for what stays and for the built-in options *)


(** What stays of a longer command line: [-l] takes [name], [-v] takes
    [12], [-x] is unknown, [--label] takes [--help], which is therefore
    no request for help, and the marker ends the scan. *)
Example unconsumed_example :
  unconsumed cli_args_context 0
    ["-lv"; "name"; "12"; "a"; "-x"; "b"; "--label"; "--help"; "c"; "--";
     "-a"] = ["a"; "b"; "c"; "-a"]
  /\ remaining
       (@dooshki_args_parse lp64 cli_args_context
          (command_line
             ["prog"; "-lv"; "name"; "12"; "a"; "-x"; "b"; "--label";
              "--help"; "c"; "--"; "-a"] ∅)).2 =
     [Some "prog"; Some "a"; Some "b"; Some "c"; Some "-a"].
Proof. by vm_compute. Qed.

(** The first of the two built-in options wins, in either order and
    inside a cluster. *)
Example first_builtin_wins_example :
  (@dooshki_args_parse lp64 cli_args_context
     (command_line ["prog"; "--version"; "--help"] ∅)).1 =
    DOOSHKI_ARGS_VER_SHOWN
  /\ (@dooshki_args_parse lp64 cli_args_context
        (command_line ["prog"; "--help"; "--version"] ∅)).1 =
    DOOSHKI_ARGS_HELP_SHOWN
  /\ (@dooshki_args_parse lp64 cli_args_context
        (command_line ["prog"; "-aVh"; "x"] ∅)).1 =
    DOOSHKI_ARGS_VER_SHOWN
  /\ (@dooshki_args_parse lp64 cli_args_context
        (command_line ["prog"; "-h"; "-V"] ∅)).1 =
    DOOSHKI_ARGS_HELP_SHOWN.
Proof. by vm_compute. Qed.

(** The floating-point option: [1.5] is stored as [3 * 2^-1], a number
    too large, too small or too close to zero is reported as such, and a
    text that is no number is rejected. *)
Example rating_example :
  let r :=
    @dooshki_args_parse lp64 cli_args_context
      (command_line ["prog"; "--rating"; "1.5"] ∅) in
  r.1 = DOOSHKI_ARGS_PARSE_OK /\ stderr r.2 = [] /\
  mem r.2 !! rating = Some (CDouble (B64_finite false 6755399441055744 (-52)))
  /\ mem r.2 !! rating_set = Some (CChar 1)
  /\ remaining r.2 = [Some "prog"].
Proof. intros r. split_and!; reflexivity. Qed.

Example rating_range_example :
  stderr (@dooshki_args_parse lp64 cli_args_context
            (command_line ["prog"; "--rating=1e999"] ∅)).2 =
    [MsgTooLarge "1e999" "--" "rating"]
  /\ stderr (@dooshki_args_parse lp64 cli_args_context
               (command_line ["prog"; "--rating=-1e999"] ∅)).2 =
    [MsgTooSmall "-1e999" "--" "rating"]
  /\ stderr (@dooshki_args_parse lp64 cli_args_context
               (command_line ["prog"; "--rating=1e-999"] ∅)).2 =
    [MsgUnderflow "1e-999" "--" "rating"]
  /\ stderr (@dooshki_args_parse lp64 cli_args_context
               (command_line ["prog"; "-r"; "2.5e3x"] ∅)).2 =
    [MsgNotFloat "2.5e3x" "-" "r"]
  /\ (@dooshki_args_parse lp64 cli_args_context
        (command_line ["prog"; "--rating=inf"] ∅)).1 =
    DOOSHKI_ARGS_PARSE_OK.
Proof. by vm_compute. Qed.

(** [strtod] on numbers at the edges of the range of a [double]. *)
Example strtod_edges_example :
  strtod64 "1.7976931348623157e308" =
    (B64_finite false 9007199254740991 971, "", false)
  /\ strtod64 "1.7976931348623159e308" = (B64_inf false, "", true)
  /\ strtod64 "4.9e-324" = (B64_finite false 1 (-1074), "", true)
  /\ strtod64 "2.4703282292062327e-324" = (B64_zero false, "", true)
  /\ strtod64 "0.1" = (B64_finite false 7205759403792794 (-56), "", false)
  /\ strtod64 "0x1.8p1" = (B64_finite false 6755399441055744 (-51), "", false)
  /\ strtod64 "-.5e1 rest" =
       (B64_finite true 5629499534213120 (-50), " rest", false)
  /\ strtod64 "1e" = (B64_finite false 4503599627370496 (-52), "e", false)
  /\ strtod64 "nan(12)x" = (B64_nan, "x", false)
  /\ strtod64 "." = (B64_zero false, ".", false).
Proof. by vm_compute. Qed.
